(** * SimpleVector: a shallow embedding of [simple-vector/simple_vector.h]

    The container owns one heap buffer through an [ArrayPtr] and tracks a
    [size_] and a [capacity_], both of type [size_t].  Buffers live in an
    explicit heap keyed by their address, so that ownership, reallocation and
    aliasing are visible in the statements; container objects live in an
    object store keyed by their own address, so that [this != &rhs] can be
    decided.  Exceptions, failed assertions and undefined behaviour are
    outcomes of a small state-and-error monad.

    Conventions.  The element type [T] has value semantics: copying, moving
    and value-initialising an element cannot fail; moving from an element
    leaves [moved x] behind.  An item handed to [PushBack] or [Insert] is a
    reference: it is bound to a slot of some buffer, possibly the container's
    own, or to an object outside every buffer, and it is read when the code
    reads it.  Iterators are pointers: a block and an offset.  The element
    type's [operator==] and [operator<] are parameters of the comparison
    operators. *)

From Stdlib Require Import ZArith Lia.
From stdpp Require Import gmap list.

Open Scope Z_scope.

(** ** Machine integers *)

(** [size_t] is an unsigned 64-bit integer: arithmetic wraps around. *)
Definition SIZE_BITS : Z := 64.
Definition SIZE_MAX : Z := 2 ^ SIZE_BITS - 1.
Definition PTRDIFF_MAX : Z := 2 ^ (SIZE_BITS - 1) - 1.
Definition wrap (z : Z) : Z := z mod 2 ^ SIZE_BITS.

(** ** Outcomes *)

(** The two exceptions that can leave a member function. *)
Inductive exn := BadAlloc | OutOfRange.

(** Ways in which a call stops being a defined computation: a failed
    [assert], [std::terminate] (an exception leaving a [noexcept] function),
    or undefined behaviour (access outside a buffer, unrelated pointers). *)
Inductive fault := AssertionFailed | Terminated | UndefinedBehaviour.

Inductive outcome (S A : Type) : Type :=
| Ok (a : A) (s : S)
| Throw (e : exn) (s : S)
| Fault (f : fault).
Arguments Ok {S A} a s.
Arguments Throw {S A} e s.
Arguments Fault {S A} f.

Definition ret {S A} (a : A) : S -> outcome S A := fun s => Ok a s.

Definition bind {S A B} (m : S -> outcome S A) (k : A -> S -> outcome S B)
  : S -> outcome S B :=
  fun s => match m s with
           | Ok a s' => k a s'
           | Throw e s' => Throw e s'
           | Fault f => Fault f
           end.

Definition throw {S A} (e : exn) : S -> outcome S A := fun s => Throw e s.
Definition fail {S A} (f : fault) : S -> outcome S A := fun _ => Fault f.

(** [assert(c)] of <cassert>. *)
Definition assert {S} (c : bool) : S -> outcome S unit :=
  if c then ret tt else fail AssertionFailed.

(** A [noexcept] function: an exception that would leave it calls
    [std::terminate]. *)
Definition noexcept {S A} (m : S -> outcome S A) : S -> outcome S A :=
  fun s => match m s with
           | Throw _ _ => Fault Terminated
           | r => r
           end.

Declare Scope cpp_scope.
Delimit Scope cpp_scope with cpp.
Notation "x <- m ; k" := (bind m (fun x => k))
  (at level 100, m at next level, right associativity) : cpp_scope.
Notation "m ;; k" := (bind m (fun _ => k))
  (at level 100, right associativity) : cpp_scope.
Open Scope cpp_scope.

(** Partial-correctness predicates on computations: what holds of a value
    that is returned, and which exceptions can be thrown. *)
Definition post {S A} (m : S -> outcome S A) (Q : A -> Prop) : Prop :=
  forall s a s', m s = Ok a s' -> Q a.

Definition throws {S A} (m : S -> outcome S A) (E : exn -> Prop) : Prop :=
  forall s e s', m s = Throw e s' -> E e.

(** ** Pointers *)

(** A [Type*]: the buffer it points into ([None] for a pointer derived from
    [nullptr]) and the offset of the slot inside that buffer. *)
Record ptr := Ptr { base : option nat; off : Z }.

Definition ptr_add (p : ptr) (d : Z) : ptr := Ptr (base p) (off p + d).

Global Instance option_nat_eq_dec : EqDecision (option nat) := _.

(** [last - first] (also [std::distance]); defined only inside one array. *)
Definition ptr_diff (last first : ptr) : option Z :=
  if decide (base last = base first) then Some (off last - off first) else None.

(** [p <= q] on pointers; unspecified for pointers into different arrays. *)
Definition ptr_le (p q : ptr) : option bool :=
  if decide (base p = base q) then Some (off p <=? off q) else None.
Definition ptr_lt (p q : ptr) : option bool :=
  if decide (base p = base q) then Some (off p <? off q) else None.

(** [ReserveProxyObj] and the free function [Reserve]. *)
Record ReserveProxyObj := { proxy_capacity_ : Z }.
Definition GetCapacityProxy (o : ReserveProxyObj) : Z := proxy_capacity_ o.
Definition ReserveObj (capacity_to_reserve : Z) : ReserveProxyObj :=
  {| proxy_capacity_ := capacity_to_reserve |}.

(** The container object: the [ArrayPtr] handle [a_] (the address of the
    buffer it owns, [None] when it owns nothing), [size_] and [capacity_]. *)
Record SimpleVector := mkVec { a_ : option nat; size_ : Z; capacity_ : Z }.

Section Container.

Context {T : Type}.
(** [Type{}], the value-initialised element. *)
Variable dflt : T.
(** The state in which moving from an element leaves it. *)
Variable moved : T -> T.
(** The allocator: whether a request for [n] slots is granted. *)
Variable can_alloc : Z -> bool.

(** The heap of buffers, keyed by address, and computations over it. *)
Local Abbreviation heap := (gmap nat (list T)).
Local Abbreviation M A := (heap -> outcome heap A).

(** *** Raw memory access *)

Definition slot (h : heap) (p : ptr) : option T :=
  match base p with
  | Some b => match h !! b with
              | Some buf => if 0 <=? off p then buf !! Z.to_nat (off p) else None
              | None => None
              end
  | None => None
  end.

(** [*p] as an rvalue. *)
Definition load (p : ptr) : M T :=
  fun h => match slot h p with
           | Some x => Ok x h
           | None => Fault UndefinedBehaviour
           end.

(** [*p = x]. *)
Definition store (p : ptr) (x : T) : M unit :=
  fun h => match base p with
           | Some b =>
               match h !! b with
               | Some buf =>
                   if (0 <=? off p) && (off p <? Z.of_nat (length buf))
                   then Ok tt (<[b := <[Z.to_nat (off p) := x]> buf]> h)
                   else Fault UndefinedBehaviour
               | None => Fault UndefinedBehaviour
               end
           | None => Fault UndefinedBehaviour
           end.

(** *** Arguments passed by reference *)

(** What a [const Type&] or a [Type&&] parameter is bound to: a slot of some
    buffer, or an object that lives outside every buffer (a temporary, a
    local variable), of which only the value matters. *)
Inductive cref := Temp (x : T) | RefTo (p : ptr).

(** Reading through the reference. *)
Definition read (r : cref) : M T :=
  match r with
  | Temp x => ret x
  | RefTo p => load p
  end.

(** Writing through the reference; the result is the object as it is left. *)
Definition write (r : cref) (x : T) : M cref :=
  match r with
  | Temp _ => ret (Temp x)
  | RefTo p => store p x;; ret (RefTo p)
  end.

(** [*dst = item]. *)
Definition assign_from (dst : ptr) (item : cref) : M unit :=
  x <- read item; store dst x.

(** [std::exchange( *dst, std::move(item))]: the old value is moved out of
    the slot (the caller drops it), then the item is move-assigned to the
    slot, which leaves the item moved-from. *)
Definition exchange_from (dst : ptr) (item : cref) : M cref :=
  old <- load dst;
  store dst (moved old);;
  x <- read item;
  store dst x;;
  write item (moved x).

(** *** The raw buffer owner *)

(** Modelled from the spec: [ArrayPtr] of array_ptr.h, the raw buffer owner,
    whose source is not part of the repository snapshot.  Constructing it
    with [n] slots allocates a block and default-constructs every slot, or
    fails with [std::bad_alloc]; no array object exceeds [PTRDIFF_MAX]
    elements, so such a request is always refused. *)
Definition grants (n : Z) : bool := (n <=? PTRDIFF_MAX) && can_alloc n.

Definition ArrayPtr_new (n : Z) : M (option nat) :=
  fun h => if grants n
           then let b := fresh (dom h) in
                Ok (Some b) (<[b := replicate (Z.to_nat n) dflt]> h)
           else Throw BadAlloc h.

(** Modelled from the spec: the destructor of [ArrayPtr] releases the owned
    block, once. *)
Definition ArrayPtr_delete (a : option nat) : M unit :=
  fun h => match a with
           | None => Ok tt h
           | Some b => match h !! b with
                       | Some _ => Ok tt (delete b h)
                       | None => Fault UndefinedBehaviour
                       end
           end.

(** Modelled from the spec: [ArrayPtr::Get], the pointer to the first slot. *)
Definition Get (a : option nat) : ptr := Ptr a 0.

(** Modelled from the spec: [ArrayPtr::operator[]], unchecked. *)
Definition ArrayPtr_index (a : option nat) (index : Z) : ptr := Ptr a index.

(** Modelled from the spec: [ArrayPtr::swap] exchanges the two handles. *)
Definition ArrayPtr_swap (a b : option nat) : option nat * option nat := (b, a).

(** *** Algorithms of the standard library *)

(** The number of steps of [for (it = first; it != last; ++it)]; when [last]
    is not reachable from [first] the loop leaves the array. *)
Definition range (first last : ptr) : M nat :=
  match ptr_diff last first with
  | Some d => if 0 <=? d then ret (Z.to_nat d) else fail UndefinedBehaviour
  | None => fail UndefinedBehaviour
  end.

(** [*dst = *src], or [*dst = std::move( *src)] when [mv] is set. *)
Definition assign_elem (mv : bool) (dst src : ptr) : M unit :=
  x <- load src;
  store dst x;;
  if mv then store src (moved x) else ret tt.

Fixpoint copy_n (mv : bool) (n : nat) (first d_first : ptr) : M unit :=
  match n with
  | O => ret tt
  | S k => assign_elem mv d_first first;;
           copy_n mv k (ptr_add first 1) (ptr_add d_first 1)
  end.

(** [std::copy(first, last, d_first)]; [mv] stands for the two
    [std::make_move_iterator] wrappers. *)
Definition copy (mv : bool) (first last d_first : ptr) : M unit :=
  n <- range first last;
  copy_n mv n first d_first.

Fixpoint copy_backward_n (mv : bool) (n : nat) (last d_last : ptr) : M unit :=
  match n with
  | O => ret tt
  | S k => let last' := ptr_add last (-1) in
           let d_last' := ptr_add d_last (-1) in
           assign_elem mv d_last' last';;
           copy_backward_n mv k last' d_last'
  end.

(** [std::copy_backward(first, last, d_last)]. *)
Definition copy_backward (mv : bool) (first last d_last : ptr) : M unit :=
  n <- range first last;
  copy_backward_n mv n last d_last.

Fixpoint fill_n (n : nat) (first : ptr) (value : T) : M unit :=
  match n with
  | O => ret tt
  | S k => store first value;; fill_n k (ptr_add first 1) value
  end.

(** [std::fill(first, last, value)]. *)
Definition fill (first last : ptr) (value : T) : M unit :=
  n <- range first last;
  fill_n n first value.

(** [std::copy(init.begin(), init.end(), d_first)] from an
    [std::initializer_list]. *)
Fixpoint copy_init (init : list T) (d_first : ptr) : M unit :=
  match init with
  | [] => ret tt
  | x :: rest => store d_first x;; copy_init rest (ptr_add d_first 1)
  end.

(** [for (it = first; it != last; ++it) std::exchange( *it, std::move(Type{}))]. *)
Fixpoint reset_n (n : nat) (it : ptr) : M unit :=
  match n with
  | O => ret tt
  | S k => _ <- load it; store it dflt;; reset_n k (ptr_add it 1)
  end.

Definition reset (first last : ptr) : M unit :=
  n <- range first last;
  reset_n n first.

(** *** Observers *)

Definition GetSize (this : SimpleVector) : Z := size_ this.
Definition GetCapacity (this : SimpleVector) : Z := capacity_ this.
Definition IsEmpty (this : SimpleVector) : bool := GetSize this =? 0.

Definition begin_ (this : SimpleVector) : ptr := Get (a_ this).
Definition end_ (this : SimpleVector) : ptr := ptr_add (Get (a_ this)) (GetSize this).
Definition cbegin (this : SimpleVector) : ptr := Get (a_ this).
Definition cend (this : SimpleVector) : ptr := ptr_add (Get (a_ this)) (GetSize this).

(** *** Constructors *)

(** [SimpleVector() noexcept = default]: a default [ArrayPtr], which owns
    nothing, and the two zero member initialisers. *)
Definition ctor_default : SimpleVector := mkVec None 0 0.

(** [SimpleVector(size_t size, const Type& value)]. *)
Definition ctor_fill (size : Z) (value : T) : M SimpleVector :=
  a <- ArrayPtr_new size;
  fill (Get a) (ptr_add (Get a) size) value;;
  ret (mkVec a size size).

(** [explicit SimpleVector(size_t size)] delegates with [Type{}]. *)
Definition ctor_size (size : Z) : M SimpleVector := ctor_fill size dflt.

(** [SimpleVector(std::initializer_list<Type> init)]. *)
Definition ctor_init (init : list T) : M SimpleVector :=
  let n := Z.of_nat (length init) in
  a <- ArrayPtr_new n;
  copy_init init (Get a);;
  ret (mkVec a n n).

(** [SimpleVector(const SimpleVector& other)]. *)
Definition ctor_copy (other : SimpleVector) : M SimpleVector :=
  a <- ArrayPtr_new (GetCapacity other);
  copy false (begin_ other) (end_ other) (Get a);;
  ret (mkVec a (GetSize other) (GetCapacity other)).

(** [SimpleVector(SimpleVector&& other) noexcept]; returns the new object
    and [other] as it is left. *)
Definition ctor_move (other : SimpleVector) : M (SimpleVector * SimpleVector) :=
  noexcept (
    a <- ArrayPtr_new (GetCapacity other);
    copy true (begin_ other) (end_ other) (Get a);;
    ret (mkVec a (GetSize other) (GetCapacity other), mkVec (a_ other) 0 0)).

(** [explicit SimpleVector(const ReserveProxyObj obj)]. *)
Definition ctor_reserve (obj : ReserveProxyObj) : M SimpleVector :=
  a <- ArrayPtr_new (GetCapacityProxy obj);
  ret (mkVec a 0 (GetCapacityProxy obj)).

(** The implicit destructor destroys the member [a_]. *)
Definition dtor (this : SimpleVector) : M unit := ArrayPtr_delete (a_ this).

(** *** Member functions *)

(** [void Clear() noexcept]: only [size_] is written. *)
Definition Clear (this : SimpleVector) : SimpleVector :=
  mkVec (a_ this) 0 (capacity_ this).

Definition Resize (this : SimpleVector) (new_size : Z) : M SimpleVector :=
  if new_size <=? GetCapacity this then
    (if GetSize this <? new_size
     then reset (ptr_add (begin_ this) (GetSize this))
                (ptr_add (begin_ this) new_size)
     else ret tt);;
    ret (mkVec (a_ this) new_size (capacity_ this))
  else
    let new_capacity := Z.max (wrap (GetCapacity this * 2)) new_size in
    new_a <- ArrayPtr_new new_capacity;
    copy true (begin_ this) (end_ this) (Get new_a);;
    reset (ptr_add (Get new_a) (GetSize this)) (ptr_add (Get new_a) new_size);;
    let '(a', new_a') := ArrayPtr_swap (a_ this) new_a in
    ArrayPtr_delete new_a';;
    ret (mkVec a' new_size new_capacity).

Definition ResizeForOneElement (this : SimpleVector) : M SimpleVector :=
  if GetSize this =? GetCapacity this
  then Resize this (wrap (GetSize this + 1))
  else ret (mkVec (a_ this) (wrap (size_ this + 1)) (capacity_ this)).

Definition GetPosToInsert (this : SimpleVector) (pos : ptr)
  : M (SimpleVector * ptr) :=
  match ptr_diff pos (cbegin this) with
  | None => fail UndefinedBehaviour
  | Some distance_to_pos =>
      this' <- ResizeForOneElement this;
      let pos_to_insert := ptr_add (begin_ this') distance_to_pos in
      (if 1 <? GetSize this'
       then copy_backward true pos_to_insert (ptr_add (end_ this') (-1))
                          (end_ this')
       else ret tt);;
      ret (this', pos_to_insert)
  end.

Definition Reserve (this : SimpleVector) (new_capacity : Z) : M SimpleVector :=
  if GetCapacity this <? new_capacity then
    new_a <- ArrayPtr_new new_capacity;
    copy false (begin_ this) (end_ this) (Get new_a);;
    let '(a', new_a') := ArrayPtr_swap (a_ this) new_a in
    ArrayPtr_delete new_a';;
    ret (mkVec a' (size_ this) new_capacity)
  else ret this.

(** [void PushBack(const Type& item)]: [item] is read after the buffer was
    made ready. *)
Definition PushBack (this : SimpleVector) (item : cref) : M SimpleVector :=
  this' <- ResizeForOneElement this;
  assign_from (ptr_add (end_ this') (-1)) item;;
  ret this'.

(** [void PushBack(Type&& item)]; the caller's [item] as it is left is
    returned next to the container. *)
Definition PushBack_rv (this : SimpleVector) (item : cref)
  : M (SimpleVector * cref) :=
  this' <- ResizeForOneElement this;
  item' <- exchange_from (ptr_add (end_ this') (-1)) item;
  ret (this', item').

(** [assert(pos >= begin() && pos <= end())]. *)
Definition assert_insertable (this : SimpleVector) (pos : ptr) : M unit :=
  match ptr_le (begin_ this) pos, ptr_le pos (end_ this) with
  | Some c1, Some c2 => assert (c1 && c2)
  | _, _ => fail UndefinedBehaviour
  end.

(** [assert(pos >= begin() && pos < end())]. *)
Definition assert_dereferenceable (this : SimpleVector) (pos : ptr) : M unit :=
  match ptr_le (begin_ this) pos, ptr_lt pos (end_ this) with
  | Some c1, Some c2 => assert (c1 && c2)
  | _, _ => fail UndefinedBehaviour
  end.

(** [Iterator Insert(ConstIterator pos, const Type& value)]: [value] is read
    after the elements were shifted. *)
Definition Insert (this : SimpleVector) (pos : ptr) (value : cref)
  : M (SimpleVector * ptr) :=
  assert_insertable this pos;;
  r <- GetPosToInsert this pos;
  assign_from (snd r) value;;
  ret r.

(** [Iterator Insert(ConstIterator pos, Type&& value)]. *)
Definition Insert_rv (this : SimpleVector) (pos : ptr) (value : cref)
  : M (SimpleVector * ptr * cref) :=
  assert_insertable this pos;;
  r <- GetPosToInsert this pos;
  value' <- exchange_from (snd r) value;
  ret (r, value').

(** [void PopBack() noexcept]. *)
Definition PopBack (this : SimpleVector) : M SimpleVector :=
  noexcept (
    assert (negb (IsEmpty this));;
    ret (mkVec (a_ this) (wrap (size_ this - 1)) (capacity_ this))).

Definition Erase (this : SimpleVector) (pos : ptr) : M (SimpleVector * ptr) :=
  assert_dereferenceable this pos;;
  match ptr_diff pos (cbegin this) with
  | None => fail UndefinedBehaviour
  | Some distance_to_pos =>
      let pos_to_erase := ptr_add (begin_ this) distance_to_pos in
      copy true (ptr_add pos_to_erase 1) (end_ this) pos_to_erase;;
      ret (mkVec (a_ this) (wrap (size_ this - 1)) (capacity_ this),
           pos_to_erase)
  end.

(** [void swap(SimpleVector& other) noexcept]: the two objects after it. *)
Definition swap (this other : SimpleVector) : SimpleVector * SimpleVector :=
  let '(a1, a2) := ArrayPtr_swap (a_ this) (a_ other) in
  (mkVec a1 (size_ other) (capacity_ other),
   mkVec a2 (size_ this) (capacity_ this)).

(** [operator[]] (const and non-const, [noexcept]): a reference to the slot. *)
Definition index (this : SimpleVector) (i : Z) : M ptr :=
  noexcept (
    assert (i <? GetSize this);;
    ret (ArrayPtr_index (a_ this) i)).

(** [At], const and non-const alike. *)
Definition At (this : SimpleVector) (i : Z) : M ptr :=
  if GetSize this <=? i
  then throw OutOfRange
  else ret (ArrayPtr_index (a_ this) i).

(** *** The object store *)

(** Container objects are identified by their address, which is what
    [this != &rhs] compares; [mem] is the heap their buffers live in. *)
Record state := mkState { objs : gmap nat SimpleVector; mem : gmap nat (list T) }.

Local Abbreviation P A := (state -> outcome state A).

Definition lift {A} (m : M A) : P A :=
  fun s => match m (mem s) with
           | Ok a h => Ok a (mkState (objs s) h)
           | Throw e h => Throw e (mkState (objs s) h)
           | Fault f => Fault f
           end.

(** Access through a reference; a reference to no live object is undefined. *)
Definition get_obj (x : nat) : P SimpleVector :=
  fun s => match objs s !! x with
           | Some v => Ok v s
           | None => Fault UndefinedBehaviour
           end.

Definition put_obj (x : nat) (v : SimpleVector) : P unit :=
  fun s => Ok tt (mkState (<[x := v]> (objs s)) (mem s)).

(** A constructor runs on storage that holds no live object. *)
Definition new_obj (x : nat) (v : SimpleVector) : P unit :=
  fun s => match objs s !! x with
           | None => Ok tt (mkState (<[x := v]> (objs s)) (mem s))
           | Some _ => Fault UndefinedBehaviour
           end.

Definition free_obj (x : nat) : P unit :=
  fun s => Ok tt (mkState (delete x (objs s)) (mem s)).

(** [SimpleVector& operator=(const SimpleVector& rhs)]. *)
Definition op_assign (this rhs : nat) : P unit :=
  l <- get_obj this;
  r <- get_obj rhs;
  if negb (bool_decide (this = rhs)) then
    if IsEmpty r then put_obj this (Clear l)
    else
      rhs_copy <- lift (ctor_copy r);
      let '(l', rhs_copy') := swap l rhs_copy in
      put_obj this l';;
      lift (dtor rhs_copy')
  else ret tt.

(** [swap] on two objects of the store (possibly the same one). *)
Definition swap_obj (this other : nat) : P unit :=
  l <- get_obj this;
  o <- get_obj other;
  let '(l', o') := swap l o in
  put_obj this l';;
  put_obj other o'.

(** A member function that updates [*this]. *)
Definition method (this : nat) (f : SimpleVector -> M SimpleVector) : P unit :=
  v <- get_obj this;
  v' <- lift (f v);
  put_obj this v'.

(** The public interface, as calls on objects of the store.  Arguments of
    type [size_t] are converted on entry, which wraps them. *)
Inductive call :=
| New (x : nat)
| NewSize (x : nat) (size : Z)
| NewFill (x : nat) (size : Z) (value : T)
| NewInit (x : nat) (init : list T)
| NewCopy (x other : nat)
| NewMove (x other : nat)
| NewReserve (x : nat) (capacity_to_reserve : Z)
| Delete (x : nat)
| Assign (this rhs : nat)
| CallReserve (this : nat) (new_capacity : Z)
| CallPushBack (this : nat) (item : cref)
| CallPushBackRv (this : nat) (item : cref)
| CallInsert (this : nat) (pos : ptr) (value : cref)
| CallInsertRv (this : nat) (pos : ptr) (value : cref)
| CallPopBack (this : nat)
| CallErase (this : nat) (pos : ptr)
| CallSwap (this other : nat)
| CallClear (this : nat)
| CallResize (this : nat) (new_size : Z)
| CallIndex (this : nat) (i : Z)
| CallAt (this : nat) (i : Z).

Definition exec (c : call) : P unit :=
  match c with
  | New x => new_obj x ctor_default
  | NewSize x size => v <- lift (ctor_size (wrap size)); new_obj x v
  | NewFill x size value => v <- lift (ctor_fill (wrap size) value); new_obj x v
  | NewInit x init => v <- lift (ctor_init init); new_obj x v
  | NewCopy x other =>
      o <- get_obj other; v <- lift (ctor_copy o); new_obj x v
  | NewMove x other =>
      o <- get_obj other;
      r <- lift (ctor_move o);
      put_obj other (snd r);; new_obj x (fst r)
  | NewReserve x n => v <- lift (ctor_reserve (ReserveObj (wrap n))); new_obj x v
  | Delete x => v <- get_obj x; lift (dtor v);; free_obj x
  | Assign this rhs => op_assign this rhs
  | CallReserve this n => method this (fun v => Reserve v (wrap n))
  | CallPushBack this item => method this (fun v => PushBack v item)
  | CallPushBackRv this item =>
      method this (fun v => r <- PushBack_rv v item; ret (fst r))
  | CallInsert this pos value =>
      method this (fun v => r <- Insert v pos value; ret (fst r))
  | CallInsertRv this pos value =>
      method this (fun v => r <- Insert_rv v pos value; ret (fst (fst r)))
  | CallPopBack this => method this PopBack
  | CallErase this pos => method this (fun v => r <- Erase v pos; ret (fst r))
  | CallSwap this other => swap_obj this other
  | CallClear this => method this (fun v => ret (Clear v))
  | CallResize this n => method this (fun v => Resize v (wrap n))
  | CallIndex this i => method this (fun v => _ <- index v (wrap i); ret v)
  | CallAt this i => method this (fun v => _ <- At v (wrap i); ret v)
  end.

(** States of a program that starts with no object and performs calls; a
    call that throws leaves a state the program goes on from. *)
Inductive reachable : state -> Prop :=
| reach_init : reachable (mkState ∅ ∅)
| reach_ok c s s' : reachable s -> exec c s = Ok tt s' -> reachable s'
| reach_throw c s e s' : reachable s -> exec c s = Throw e s' -> reachable s'.

(** Runs calls in order, stopping at the first that does not return. *)
Fixpoint run (cs : list call) : P unit :=
  match cs with
  | [] => ret tt
  | c :: rest => exec c;; run rest
  end.

(** *** Abstraction *)

(** The slots of the buffer a container holds. *)
Definition buffer (h : heap) (v : SimpleVector) : list T :=
  match a_ v with
  | Some b => default [] (h !! b)
  | None => []
  end.

(** The element sequence: the first [size_] slots. *)
Definition elems (h : heap) (v : SimpleVector) : list T :=
  take (Z.to_nat (size_ v)) (buffer h v).

(** A well-formed container: the invariant on the counters, and a live
    buffer with at least [capacity_] slots behind a non-null handle. *)
Definition wf (h : heap) (v : SimpleVector) : Prop :=
  (0 <= size_ v <= capacity_ v) /\ (capacity_ v <= PTRDIFF_MAX) /\
  match a_ v with
  | Some b =>
      exists buf : list T,
        h !! b = Some buf /\ (capacity_ v <= Z.of_nat (length buf))
  | None => capacity_ v = 0
  end.

(** The heap once the block behind a handle is released. *)
Definition release (a : option nat) (h : heap) : heap :=
  match a with
  | Some b => delete b h
  | None => h
  end.

(** The argument is bound to an object that holds [x] and is not a slot of
    the container's own block. *)
Definition denotes (h : heap) (v : SimpleVector) (r : cref) (x : T) : Prop :=
  match r with
  | Temp y => y = x
  | RefTo p => slot h p = Some x /\ base p <> a_ v
  end.

(** The argument can be read when [PushBack] or [Insert] reads it: it is
    bound to a live object, and not to a slot of the container's own block
    when that block is about to be replaced. *)
Definition usable (h : heap) (v : SimpleVector) (r : cref) : Prop :=
  match r with
  | Temp _ => True
  | RefTo p => is_Some (slot h p) /\ (base p = a_ v -> size_ v < capacity_ v)
  end.

(** The invariant on the two counters. *)
Definition sound (v : SimpleVector) : Prop := 0 <= size_ v <= capacity_ v.

(** The invariant holds of every object of the store. *)
Definition all_sound (s : state) : Prop :=
  forall x v, objs s !! x = Some v -> sound v.

(** A computation on the store keeps an invariant, whether it returns or
    throws. *)
Definition keeps {A} (I : state -> Prop) (m : state -> outcome state A) : Prop :=
  forall s, I s ->
    match m s with
    | Ok _ s' => I s'
    | Throw _ s' => I s'
    | Fault _ => True
    end.

(** Ownership: every object of the store is well formed, and no two objects
    hold the same block. *)
Definition wf_state (s : state) : Prop :=
  (forall x v, objs s !! x = Some v -> wf (mem s) v) /\
  (forall x y vx vy b,
     x <> y -> objs s !! x = Some vx -> objs s !! y = Some vy ->
     a_ vx = Some b -> a_ vy <> Some b).

(** Every block other than the container's own is left as it was. *)
Definition frame (v : SimpleVector) (h h' : heap) : Prop :=
  forall b buf, h !! b = Some buf -> a_ v <> Some b -> h' !! b = Some buf.

(** What a member function may do: its object stays well formed, the
    blocks of other objects are untouched, and its handle is the old one or
    a block that was not allocated before. *)
Definition updates (v : SimpleVector) (h : heap) (v' : SimpleVector) (h' : heap)
  : Prop :=
  wf h' v' /\ frame v h h' /\
  (a_ v' = a_ v \/ exists b, a_ v' = Some b /\ h !! b = None).

Definition method_spec (f : SimpleVector -> M SimpleVector) : Prop :=
  forall v h, wf h v ->
    match f v h with
    | Ok v' h' => updates v h v' h'
    | Throw _ h' => h' = h
    | Fault _ => True
    end.

(** The capacity after making room for one more element. *)
Definition grown_capacity (v : SimpleVector) : Z :=
  if size_ v =? capacity_ v
  then Z.max (capacity_ v * 2) (size_ v + 1)
  else capacity_ v.

(** Appends the items one after the other. *)
Fixpoint push_all (items : list cref) (this : SimpleVector) : M SimpleVector :=
  match items with
  | [] => ret this
  | x :: rest => this' <- PushBack this x; push_all rest this'
  end.

(** *** Comparison operators *)

Section Comparison.

(** [operator==] and [operator<] of the element type. *)
Variable eqb : T -> T -> bool.
Variable ltb : T -> T -> bool.

Fixpoint equal_n (n : nat) (first1 first2 : ptr) : M bool :=
  match n with
  | O => ret true
  | S k => x <- load first1;
           y <- load first2;
           if eqb x y
           then equal_n k (ptr_add first1 1) (ptr_add first2 1)
           else ret false
  end.

(** [std::equal(first1, last1, first2)]. *)
Definition equal (first1 last1 first2 : ptr) : M bool :=
  n <- range first1 last1;
  equal_n n first1 first2.

(** The loop of [std::lexicographical_compare]: it runs while both ranges
    have elements left, and ends with
    [first1 == last1 && first2 != last2]. *)
Fixpoint lexicographical_compare_n (n1 n2 : nat) (first1 first2 : ptr) : M bool :=
  match n1, n2 with
  | O, O => ret false
  | O, S _ => ret true
  | S _, O => ret false
  | S k1, S k2 =>
      x <- load first1;
      y <- load first2;
      if ltb x y then ret true
      else if ltb y x then ret false
      else lexicographical_compare_n k1 k2 (ptr_add first1 1) (ptr_add first2 1)
  end.

(** [std::lexicographical_compare(first1, last1, first2, last2)]. *)
Definition lexicographical_compare (first1 last1 first2 last2 : ptr) : M bool :=
  n1 <- range first1 last1;
  n2 <- range first2 last2;
  lexicographical_compare_n n1 n2 first1 first2.

(** [operator==]: the same object, or equal sizes and equal elements. *)
Definition op_eq (lhs rhs : nat) : P bool :=
  l <- get_obj lhs;
  r <- get_obj rhs;
  if bool_decide (lhs = rhs) then ret true
  else if GetSize l =? GetSize r
       then lift (equal (begin_ l) (end_ l) (begin_ r))
       else ret false.

(** [operator!=]. *)
Definition op_ne (lhs rhs : nat) : P bool :=
  b <- op_eq lhs rhs; ret (negb b).

(** [operator<]. *)
Definition op_lt (lhs rhs : nat) : P bool :=
  l <- get_obj lhs;
  r <- get_obj rhs;
  lift (lexicographical_compare (begin_ l) (end_ l) (begin_ r) (end_ r)).

(** [operator<=]: [!(rhs < lhs)]. *)
Definition op_le (lhs rhs : nat) : P bool :=
  b <- op_lt rhs lhs; ret (negb b).

(** [operator>]: [rhs < lhs]. *)
Definition op_gt (lhs rhs : nat) : P bool := op_lt rhs lhs.

(** [operator>=]: [rhs <= lhs]. *)
Definition op_ge (lhs rhs : nat) : P bool := op_le rhs lhs.

(** Element-wise equality of two sequences of the same length, and the
    lexicographic order, on lists: what the two algorithms compute. *)
Fixpoint all_eqb (xs ys : list T) : bool :=
  match xs, ys with
  | x :: xs', y :: ys' => eqb x y && all_eqb xs' ys'
  | _, _ => true
  end.

Fixpoint lex_ltb (xs ys : list T) : bool :=
  match xs, ys with
  | [], [] => false
  | [], _ :: _ => true
  | _ :: _, [] => false
  | x :: xs', y :: ys' =>
      if ltb x y then true else if ltb y x then false else lex_ltb xs' ys'
  end.

End Comparison.

(** Every block of memory is held by some object of the store. *)
Definition no_leak (s : state) : Prop :=
  forall b, is_Some (mem s !! b) ->
            exists x v, objs s !! x = Some v /\ a_ v = Some b.

(** A computation that writes only into block [a], and in place: every
    other block is what it was and no block changes its length. *)
Definition in_place (a : option nat) {A} (m : M A) : Prop :=
  forall h r h', m h = Ok r h' ->
    (forall b, a <> Some b -> h' !! b = h !! b) /\
    (forall b, length <$> (h' !! b) = length <$> (h !! b)).

(** A member function that does what [g] does on some value and then
    writes through the reference it was given. *)
Definition then_writes (f : SimpleVector -> M SimpleVector)
    (g : T -> SimpleVector -> M SimpleVector) (r : cref) : Prop :=
  forall v h,
    f v h = Fault UndefinedBehaviour \/
    exists x, f v h = (v' <- g x v; _ <- write r (moved x); ret v') h.

(** A computation that allocates and releases nothing. *)
Definition same_dom {A} (m : M A) : Prop :=
  forall h a h', m h = Ok a h' -> dom h' = dom h.

(** The blocks left by a member function: the one its object holds
    afterwards, and the old ones other than the one its object held. *)
Definition tight (v : SimpleVector) (h : heap) (v' : SimpleVector) (h' : heap)
  : Prop :=
  forall b, b ∈ dom h' -> a_ v' = Some b \/ (b ∈ dom h /\ a_ v <> Some b).

Definition method_tight (f : SimpleVector -> M SimpleVector) : Prop :=
  forall v h v' h', f v h = Ok v' h' -> tight v h v' h'.

(** A computation that returns or throws: no failed assertion, no
    [std::terminate], no undefined behaviour. *)
Definition defined {S A} (r : outcome S A) : Prop :=
  match r with
  | Fault _ => False
  | _ => True
  end.

(** What a call asks of its caller: a constructor runs on storage that holds
    no object; references are to live objects; a position given to [Insert]
    lies in [begin(), end()] and one given to [Erase] in [begin(), end());
    [PopBack] is not called on an empty container and [operator[]] not on an
    index from the size on (the four assertions); the item given to
    [PushBack] or [Insert] is bound to a live object, and not to a slot of
    the container's own block when the container is full; and the move
    constructor, being [noexcept], is granted the block it asks for. *)
Definition requires (s : state) (c : call) : Prop :=
  match c with
  | New x | NewSize x _ | NewFill x _ _ | NewInit x _ | NewReserve x _ =>
      objs s !! x = None
  | NewCopy x other =>
      objs s !! x = None /\ is_Some (objs s !! other)
  | NewMove x other =>
      objs s !! x = None /\
      exists o, objs s !! other = Some o /\ grants (capacity_ o) = true
  | Delete x | CallReserve x _
  | CallClear x | CallResize x _ | CallAt x _ =>
      is_Some (objs s !! x)
  | CallPushBack x item | CallPushBackRv x item =>
      exists v, objs s !! x = Some v /\ usable (mem s) v item
  | Assign x y | CallSwap x y =>
      is_Some (objs s !! x) /\ is_Some (objs s !! y)
  | CallInsert x pos value | CallInsertRv x pos value =>
      exists v, objs s !! x = Some v /\ base pos = a_ v /\
                0 <= off pos <= size_ v /\ usable (mem s) v value
  | CallErase x pos =>
      exists v, objs s !! x = Some v /\ base pos = a_ v /\
                0 <= off pos < size_ v
  | CallPopBack x => exists v, objs s !! x = Some v /\ 0 < size_ v
  | CallIndex x i => exists v, objs s !! x = Some v /\ wrap i < size_ v
  end.

(** ** The monad *)

Lemma bind_Ok {S A B} (m : S -> outcome S A) (k : A -> S -> outcome S B) s a s' :
  m s = Ok a s' -> bind m k s = k a s'.
Proof. unfold bind. now intros ->. Qed.

Lemma bind_Throw {S A B} (m : S -> outcome S A) (k : A -> S -> outcome S B) s e s' :
  m s = Throw e s' -> bind m k s = Throw e s'.
Proof. unfold bind. now intros ->. Qed.

Lemma bind_inv_Ok {S A B} (m : S -> outcome S A) (k : A -> S -> outcome S B) s b s2 :
  bind m k s = Ok b s2 -> exists a s1, m s = Ok a s1 /\ k a s1 = Ok b s2.
Proof. unfold bind. destruct (m s); [eauto | discriminate | discriminate]. Qed.

Lemma bind_inv_Throw {S A B} (m : S -> outcome S A) (k : A -> S -> outcome S B) s e s2 :
  bind m k s = Throw e s2 ->
  m s = Throw e s2 \/ exists a s1, m s = Ok a s1 /\ k a s1 = Throw e s2.
Proof.
  unfold bind. destruct (m s) as [a s1 | e' s1 | f]; [eauto | | discriminate].
  intros [= -> ->]. now left.
Qed.

(** ** Memory access on a buffer split around a slot *)

Lemma ptr_add_succ a (n : nat) :
  ptr_add (Ptr a (Z.of_nat n)) 1 = Ptr a (Z.of_nat (S n)).
Proof. unfold ptr_add. simpl. f_equal. lia. Qed.

Lemma ptr_add_pred a (n : nat) :
  ptr_add (Ptr a (Z.of_nat (S n))) (-1) = Ptr a (Z.of_nat n).
Proof. unfold ptr_add. simpl off. simpl base. f_equal. lia. Qed.

Lemma load_at (h : heap) b pre x rest :
  h !! b = Some (pre ++ x :: rest) ->
  load (Ptr (Some b) (Z.of_nat (length pre))) h = Ok x h.
Proof.
  intros Hb. unfold load, slot. simpl. rewrite Hb.
  destruct (Z.leb_spec 0 (Z.of_nat (length pre))); [| lia].
  rewrite Nat2Z.id, list_lookup_middle; done.
Qed.

Lemma store_at (h : heap) b pre x rest y :
  h !! b = Some (pre ++ x :: rest) ->
  store (Ptr (Some b) (Z.of_nat (length pre))) y h
  = Ok tt (<[b := pre ++ y :: rest]> h).
Proof.
  intros Hb. unfold store. simpl. rewrite Hb.
  destruct (Z.leb_spec 0 (Z.of_nat (length pre))); [| lia].
  destruct (Z.ltb_spec (Z.of_nat (length pre))
              (Z.of_nat (length (pre ++ x :: rest)))) as [_ | Hge].
  - simpl. rewrite Nat2Z.id. do 2 f_equal.
    rewrite insert_app_r_alt by lia. now rewrite Nat.sub_diag.
  - rewrite length_app in Hge. simpl in Hge. lia.
Qed.

(** Writing a list over a window of a buffer. *)
Lemma copy_init_at init : forall (h : heap) b pre old rest,
  h !! b = Some (pre ++ old ++ rest) ->
  length old = length init ->
  copy_init init (Ptr (Some b) (Z.of_nat (length pre))) h
  = Ok tt (<[b := pre ++ init ++ rest]> h).
Proof.
  induction init as [| x init IH]; intros h b pre old rest Hb Hlen.
  - destruct old; [| discriminate]. simpl in *. unfold ret.
    now rewrite insert_id.
  - destruct old as [| o old]; [discriminate |]. simpl in Hlen.
    cbn [copy_init]. erewrite bind_Ok; [| eapply store_at; exact Hb].
    rewrite ptr_add_succ.
    replace (S (length pre)) with (length (pre ++ [x]))
      by (rewrite length_app; simpl; lia).
    erewrite (IH _ b (pre ++ [x]) old rest).
    + rewrite insert_insert_eq. now rewrite <- app_assoc.
    + rewrite lookup_insert_eq. now rewrite <- app_assoc.
    + lia.
Qed.

Lemma fill_n_copy_init n : forall p value (h : heap),
  fill_n n p value h = copy_init (replicate n value) p h.
Proof.
  induction n as [| n IH]; intros p value h; [reflexivity |].
  cbn [fill_n replicate copy_init]. unfold bind.
  destruct (store p value h); [apply IH | reflexivity | reflexivity].
Qed.

Lemma load_then_store {A} p x (k : unit -> heap -> outcome heap A) (h : heap) :
  bind (load p) (fun _ => bind (store p x) k) h = bind (store p x) k h.
Proof.
  unfold bind, load, store, slot. destruct (base p) as [b |]; [| reflexivity].
  destruct (h !! b) as [buf |] eqn:Hb; [| reflexivity].
  destruct (Z.leb_spec 0 (off p)) as [Hle | Hlt]; [| reflexivity].
  destruct (buf !! Z.to_nat (off p)) eqn:Hl; simpl.
  - rewrite Hb. destruct (Z.leb_spec 0 (off p)); [reflexivity | lia].
  - apply lookup_ge_None in Hl.
    destruct (Z.ltb_spec (off p) (Z.of_nat (length buf))); [lia | reflexivity].
Qed.

Lemma reset_n_fill_n n : forall p (h : heap),
  reset_n n p h = fill_n n p dflt h.
Proof.
  induction n as [| n IH]; intros p h; [reflexivity |].
  cbn [reset_n fill_n]. rewrite load_then_store. unfold bind.
  destruct (store p dflt h); [apply IH | reflexivity | reflexivity].
Qed.

(** ** The copy loops *)

Ltac heap_eq :=
  apply map_eq; intros ?k; rewrite ?lookup_insert;
  repeat case_decide; subst; try congruence; try reflexivity.

Lemma length_snoc {A} (l : list A) x : length (l ++ [x]) = S (length l).
Proof. rewrite length_app. simpl. lia. Qed.

Lemma from_option_last_cons {A B} (f : A -> B) d x (l : list A) :
  from_option f d (last (x :: l)) = from_option f (f x) (last l).
Proof.
  destruct l as [| t l]; [reflexivity |].
  change (last (x :: t :: l)) with (last (t :: l)).
  destruct (last (t :: l)) eqn:E; [reflexivity |].
  apply last_None in E. discriminate.
Qed.

(** One assignment between two different buffers. *)
Lemma assign_elem_across mv (h : heap) bs bd ps x rs pd o rd :
  bs <> bd ->
  h !! bs = Some (ps ++ x :: rs) ->
  h !! bd = Some (pd ++ o :: rd) ->
  assign_elem mv (Ptr (Some bd) (Z.of_nat (length pd)))
                 (Ptr (Some bs) (Z.of_nat (length ps))) h
  = Ok tt (<[bs := ps ++ (if mv then moved x else x) :: rs]>
             (<[bd := pd ++ x :: rd]> h)).
Proof.
  intros Hne Hs Hd. unfold assign_elem.
  erewrite bind_Ok; [| eapply load_at; exact Hs].
  erewrite bind_Ok; [| eapply store_at; exact Hd].
  destruct mv.
  - erewrite store_at; [reflexivity |].
    rewrite lookup_insert_ne by congruence. exact Hs.
  - unfold ret. f_equal. symmetry. apply insert_id.
    rewrite lookup_insert_ne by congruence. exact Hs.
Qed.

(** [std::copy] from a window of one buffer to a window of another: the
    destination receives the source values; a moving copy leaves the source
    slots moved-from. *)
Lemma copy_n_across mv bs bd xs : forall (h : heap) ps rs pd old rd,
  bs <> bd ->
  h !! bs = Some (ps ++ xs ++ rs) ->
  h !! bd = Some (pd ++ old ++ rd) ->
  length old = length xs ->
  copy_n mv (length xs) (Ptr (Some bs) (Z.of_nat (length ps)))
                        (Ptr (Some bd) (Z.of_nat (length pd))) h
  = Ok tt (<[bs := ps ++ (if mv then moved <$> xs else xs) ++ rs]>
             (<[bd := pd ++ xs ++ rd]> h)).
Proof.
  induction xs as [| x xs IH]; intros h ps rs pd old rd Hne Hs Hd Hlen.
  - destruct old; [| discriminate]. simpl in *. unfold ret. f_equal.
    rewrite (insert_id h bd) by exact Hd. symmetry. apply insert_id.
    destruct mv; exact Hs.
  - destruct old as [| o old]; [discriminate |]. simpl in Hlen.
    cbn [length copy_n].
    erewrite bind_Ok; [| eapply assign_elem_across; eauto].
    rewrite !ptr_add_succ, <- (length_snoc pd x),
      <- (length_snoc ps (if mv then moved x else x)).
    erewrite (IH _ _ rs _ old rd); [| exact Hne | | | lia].
    + f_equal. rewrite <- !app_assoc. destruct mv; simpl; heap_eq.
    + rewrite lookup_insert_eq, <- app_assoc. reflexivity.
    + rewrite lookup_insert_ne, lookup_insert_eq, <- app_assoc by congruence.
      reflexivity.
Qed.

(** [std::copy] one slot to the left inside a buffer, moving: the window
    slides left and the last source slot is left moved-from. *)
Lemma copy_n_shift_left xs : forall (h : heap) b pre y rest,
  h !! b = Some (pre ++ y :: xs ++ rest) ->
  copy_n true (length xs) (Ptr (Some b) (Z.of_nat (S (length pre))))
                          (Ptr (Some b) (Z.of_nat (length pre))) h
  = Ok tt (<[b := pre ++ xs ++ from_option moved y (last xs) :: rest]> h).
Proof.
  induction xs as [| x xs IH]; intros h b pre y rest Hb.
  - simpl. unfold ret. now rewrite insert_id.
  - cbn [length copy_n]. unfold assign_elem.
    rewrite <- (length_snoc pre y).
    erewrite bind_Ok;
      [| erewrite bind_Ok; [| eapply load_at; rewrite <- app_assoc; exact Hb];
         rewrite length_snoc;
         erewrite bind_Ok; [| eapply store_at; exact Hb];
         rewrite <- (length_snoc pre x);
         eapply store_at; rewrite lookup_insert_eq, <- app_assoc; reflexivity].
    rewrite !ptr_add_succ. rewrite (length_snoc pre y), <- (length_snoc pre x).
    erewrite (IH _ b (pre ++ [x]) (moved x) rest).
    + f_equal. rewrite !insert_insert_eq, <- app_assoc. simpl. do 3 f_equal.
      now rewrite from_option_last_cons.
    + rewrite lookup_insert_eq. reflexivity.
Qed.

(** [std::copy_backward] one slot to the right inside a buffer, moving: the
    window slides right and its first slot is left moved-from. *)
Lemma copy_backward_n_shift_right xs : forall (h : heap) b pre y rest,
  h !! b = Some (pre ++ xs ++ y :: rest) ->
  copy_backward_n true (length xs)
    (Ptr (Some b) (Z.of_nat (length pre + length xs)))
    (Ptr (Some b) (Z.of_nat (S (length pre + length xs)))) h
  = Ok tt (<[b := pre ++ from_option moved y (head xs) :: xs ++ rest]> h).
Proof.
  induction xs as [| x xs IH] using rev_ind; intros h b pre y rest Hb.
  - simpl. unfold ret. now rewrite insert_id.
  - rewrite length_snoc, Nat.add_succ_r. cbn [copy_backward_n].
    rewrite !ptr_add_pred. unfold assign_elem.
    assert (Hb1 : h !! b = Some ((pre ++ xs) ++ x :: y :: rest))
      by (rewrite Hb, <- !app_assoc; reflexivity).
    assert (Hb2 : h !! b = Some ((pre ++ xs ++ [x]) ++ y :: rest))
      by (rewrite Hb, <- !app_assoc; reflexivity).
    assert (Hl1 : (length pre + length xs)%nat = length (pre ++ xs))
      by (now rewrite length_app).
    assert (Hl2 : S (length pre + length xs) = length (pre ++ xs ++ [x]))
      by (rewrite !length_app; simpl; lia).
    erewrite bind_Ok;
      [| erewrite bind_Ok; [| rewrite Hl1; eapply load_at; exact Hb1];
         erewrite bind_Ok; [| rewrite Hl2; eapply store_at; exact Hb2];
         rewrite Hl1; eapply store_at;
         rewrite lookup_insert_eq, <- !app_assoc; reflexivity].
    erewrite (IH _ b pre (moved x) (x :: rest)).
    + f_equal. rewrite !insert_insert_eq, <- !app_assoc. simpl. do 3 f_equal.
      destruct xs; reflexivity.
    + rewrite lookup_insert_eq, <- !app_assoc. reflexivity.
Qed.

(** ** Well-formed containers *)

Lemma wrap_small z : 0 <= z <= SIZE_MAX -> wrap z = z.
Proof. unfold wrap, SIZE_MAX. intros H. apply Z.mod_small. lia. Qed.

Lemma PTRDIFF_MAX_val : PTRDIFF_MAX = 9223372036854775807.
Proof. reflexivity. Qed.

Lemma SIZE_MAX_val : SIZE_MAX = 18446744073709551615.
Proof. reflexivity. Qed.

Lemma range_same a i j (h : heap) :
  i <= j -> range (Ptr a i) (Ptr a j) h = Ok (Z.to_nat (j - i)) h.
Proof.
  intros Hij. unfold range, ptr_diff. simpl.
  destruct (decide (a = a)); [| congruence].
  destruct (Z.leb_spec 0 (j - i)); [reflexivity | lia].
Qed.

(** The buffer of a well-formed container splits into the live elements and
    the spare slots. *)
Lemma wf_view (h : heap) v :
  wf h v ->
  exists live spare,
    buffer h v = live ++ spare /\ elems h v = live /\
    size_ v = Z.of_nat (length live) /\
    capacity_ v <= Z.of_nat (length (live ++ spare)) /\
    (forall b, a_ v = Some b -> h !! b = Some (live ++ spare)) /\
    (a_ v = None -> live = [] /\ spare = []).
Proof.
  intros (Hsz & Hmax & Hbuf).
  exists (take (Z.to_nat (size_ v)) (buffer h v)),
         (drop (Z.to_nat (size_ v)) (buffer h v)).
  rewrite take_drop. unfold elems.
  assert (Hcap : capacity_ v <= Z.of_nat (length (buffer h v))).
  { unfold buffer. destruct (a_ v) as [b |].
    - destruct Hbuf as (buf & -> & Hle). exact Hle.
    - simpl. lia. }
  split_and!; try reflexivity; try assumption.
  - rewrite length_take. lia.
  - intros b Hb. unfold buffer. rewrite Hb in *.
    destruct Hbuf as (buf & -> & _). reflexivity.
  - unfold buffer. intros ->. now rewrite take_nil, drop_nil.
Qed.

Lemma ArrayPtr_new_Ok n (h : heap) :
  grants n = true ->
  ArrayPtr_new n h
  = Ok (Some (fresh (dom h))) (<[fresh (dom h) := replicate (Z.to_nat n) dflt]> h).
Proof. unfold ArrayPtr_new. now intros ->. Qed.

Lemma ArrayPtr_new_Throw n (h : heap) :
  grants n = false -> ArrayPtr_new n h = Throw BadAlloc h.
Proof. unfold ArrayPtr_new. now intros ->. Qed.

Lemma fresh_None (h : heap) : h !! fresh (dom h) = None.
Proof. apply not_elem_of_dom, is_fresh. Qed.

Lemma replicate_split (n m : nat) (x : T) :
  (n <= m)%nat -> replicate m x = replicate n x ++ replicate (m - n) x.
Proof. intros H. rewrite <- replicate_add. f_equal. lia. Qed.

Lemma copy_same mv a i j d (h : heap) :
  i <= j ->
  copy mv (Ptr a i) (Ptr a j) d h = copy_n mv (Z.to_nat (j - i)) (Ptr a i) d h.
Proof. intros Hij. unfold copy. now erewrite bind_Ok by (apply range_same; lia). Qed.

Lemma copy_backward_same mv a i j d (h : heap) :
  i <= j ->
  copy_backward mv (Ptr a i) (Ptr a j) d h
  = copy_backward_n mv (Z.to_nat (j - i)) (Ptr a j) d h.
Proof.
  intros Hij. unfold copy_backward.
  now erewrite bind_Ok by (apply range_same; lia).
Qed.

Lemma reset_same a i j (h : heap) :
  i <= j ->
  reset (Ptr a i) (Ptr a j) h
  = copy_init (replicate (Z.to_nat (j - i)) dflt) (Ptr a i) h.
Proof.
  intros Hij. unfold reset. erewrite bind_Ok by (apply range_same; lia).
  now rewrite reset_n_fill_n, fill_n_copy_init.
Qed.

Lemma fill_same a i j value (h : heap) :
  i <= j ->
  fill (Ptr a i) (Ptr a j) value h
  = copy_init (replicate (Z.to_nat (j - i)) value) (Ptr a i) h.
Proof.
  intros Hij. unfold fill. erewrite bind_Ok by (apply range_same; lia).
  now rewrite fill_n_copy_init.
Qed.

(** Overwriting the slots after [pre] with [k] copies of a value. *)
Lemma copy_init_replicate (h : heap) b pre old rest (k : nat) x i :
  h !! b = Some (pre ++ old ++ rest) ->
  length old = k -> i = Z.of_nat (length pre) ->
  copy_init (replicate k x) (Ptr (Some b) i) h
  = Ok tt (<[b := pre ++ replicate k x ++ rest]> h).
Proof.
  intros Hb Hk ->. eapply copy_init_at; [exact Hb |].
  now rewrite length_replicate.
Qed.

(** *** Resize *)

(** Growth: a fresh block of [max (2 * capacity) new_size] slots receives the
    live elements, then default values; the old block is released. *)
Lemma Resize_grow (h : heap) v n :
  wf h v -> capacity_ v < n ->
  grants (Z.max (capacity_ v * 2) n) = true ->
  Resize v n h
  = Ok (mkVec (Some (fresh (dom h))) n (Z.max (capacity_ v * 2) n))
       (release (a_ v)
          (<[fresh (dom h) :=
               elems h v ++ replicate (Z.to_nat (n - size_ v)) dflt
                 ++ replicate (Z.to_nat (Z.max (capacity_ v * 2) n - n)) dflt]> h)).
Proof.
  intros Hwf Hn Hg.
  destruct (wf_view h v Hwf) as (live & spare & Hbuf & Hel & Hsz & Hcap & Hlk & Hnull).
  destruct Hwf as (Hs & Hmax & _).
  unfold Resize, begin_, end_, Get, ptr_add, GetCapacity, GetSize. simpl.
  destruct (Z.leb_spec n (capacity_ v)); [lia |].
  rewrite wrap_small by (rewrite SIZE_MAX_val; rewrite PTRDIFF_MAX_val in Hmax; lia).
  set (nc := Z.max (capacity_ v * 2) n) in *.
  set (b' := fresh (dom h)).
  assert (Hg' : nc <= PTRDIFF_MAX).
  { unfold grants in Hg. apply andb_true_iff in Hg as [Hg _]. lia. }
  erewrite bind_Ok; [| apply ArrayPtr_new_Ok; exact Hg]. fold b'.
  rewrite Hel.
  assert (Hrep : replicate (Z.to_nat nc) dflt
                 = replicate (length live) dflt
                     ++ replicate (Z.to_nat (n - size_ v)) dflt
                     ++ replicate (Z.to_nat (nc - n)) dflt).
  { rewrite <- !replicate_add. f_equal. lia. }
  rewrite Hrep.
  replace (0 + size_ v) with (size_ v) by lia.
  destruct (a_ v) as [b |] eqn:Ha.
  - assert (Hne : b <> b').
    { intros ->. specialize (Hlk _ eq_refl). unfold b' in Hlk.
      rewrite fresh_None in Hlk. discriminate. }
    erewrite bind_Ok;
      [| rewrite copy_same by lia;
         replace (Z.to_nat (size_ v - 0)) with (length live) by lia;
         apply (copy_n_across true b b' live _ [] spare []
                  (replicate (length live) dflt));
         [exact Hne
         | rewrite lookup_insert_ne by congruence; apply Hlk; reflexivity
         | rewrite lookup_insert_eq; reflexivity
         | apply length_replicate ]].
    erewrite bind_Ok;
      [| rewrite reset_same by lia;
         eapply (copy_init_replicate _ b' live);
         [ rewrite lookup_insert_ne, lookup_insert_eq by congruence; simpl;
           reflexivity
         | apply length_replicate
         | lia ]].
    unfold ArrayPtr_delete, bind.
    rewrite !lookup_insert_ne, lookup_insert_eq by congruence.
    unfold ret. f_equal. simpl.
    apply map_eq. intros k. rewrite ?lookup_delete, ?lookup_insert.
    repeat case_decide; subst; try congruence; try reflexivity.
  - destruct (Hnull eq_refl) as [-> ->]. simpl in *.
    rewrite !Hsz.
    erewrite bind_Ok; [| rewrite copy_same by lia; reflexivity].
    erewrite bind_Ok;
      [| rewrite reset_same by lia;
         eapply (copy_init_replicate _ b' []);
         [ rewrite lookup_insert_eq; simpl; reflexivity
         | apply length_replicate
         | simpl; lia ]].
    unfold ArrayPtr_delete, bind, ret. f_equal.
    rewrite insert_insert_eq. reflexivity.
Qed.

Lemma Resize_grow_Throw (h : heap) v n :
  wf h v -> capacity_ v < n ->
  grants (Z.max (capacity_ v * 2) n) = false ->
  Resize v n h = Throw BadAlloc h.
Proof.
  intros (Hs & Hmax & _) Hn Hg. unfold Resize, GetCapacity.
  destruct (Z.leb_spec n (capacity_ v)); [lia |].
  rewrite wrap_small by (rewrite SIZE_MAX_val; rewrite PTRDIFF_MAX_val in Hmax; lia).
  apply bind_Throw, ArrayPtr_new_Throw, Hg.
Qed.

Lemma grants_le n : grants n = true -> n <= PTRDIFF_MAX.
Proof. unfold grants. intros H. apply andb_true_iff in H as [H _]. lia. Qed.

Lemma frame_release_insert v (h : heap) buf :
  frame v h (release (a_ v) (<[fresh (dom h) := buf]> h)).
Proof.
  intros b old Hb Hne.
  assert (b <> fresh (dom h)) by (intros ->; rewrite fresh_None in Hb; discriminate).
  destruct (a_ v) as [b0 |]; simpl.
  - rewrite lookup_delete_ne, lookup_insert_ne by congruence. exact Hb.
  - rewrite lookup_insert_ne by congruence. exact Hb.
Qed.

Lemma lookup_release_insert v (h : heap) buf :
  wf h v ->
  release (a_ v) (<[fresh (dom h) := buf]> h) !! fresh (dom h) = Some buf.
Proof.
  intros (_ & _ & Hb). destruct (a_ v) as [b |]; simpl.
  - destruct Hb as (old & Hold & _).
    rewrite lookup_delete_ne, lookup_insert_eq; [reflexivity |].
    intros ->. rewrite fresh_None in Hold. discriminate.
  - apply lookup_insert_eq.
Qed.

(** *** Making room for one element *)

(** [ResizeForOneElement] either returns a container whose buffer holds the
    old elements followed by at least one more slot, or throws
    [std::bad_alloc] without touching anything; it throws only when growth
    is needed and the allocator refuses. *)
Lemma ResizeForOneElement_post (h : heap) v :
  wf h v ->
  match ResizeForOneElement v h with
  | Ok v1 h1 =>
      exists b1 s spare,
        a_ v1 = Some b1 /\
        h1 !! b1 = Some (elems h v ++ s :: spare) /\
        size_ v1 = size_ v + 1 /\
        capacity_ v1 = grown_capacity v /\
        size_ v1 <= capacity_ v1 <= PTRDIFF_MAX /\
        capacity_ v1 <= Z.of_nat (length (elems h v ++ s :: spare)) /\
        (size_ v < capacity_ v -> a_ v1 = a_ v /\ h1 = h) /\
        (size_ v = capacity_ v -> b1 = fresh (dom h)) /\
        frame v h h1
  | Throw e h1 =>
      e = BadAlloc /\ h1 = h /\ size_ v = capacity_ v /\
      grants (grown_capacity v) = false
  | Fault _ => False
  end.
Proof.
  intros Hwf.
  destruct (wf_view h v Hwf) as (live & spare & Hbuf & Hel & Hsz & Hcap & Hlk & Hnull).
  pose proof Hwf as (Hs & Hmax & Hb).
  unfold ResizeForOneElement, grown_capacity, GetSize, GetCapacity.
  rewrite PTRDIFF_MAX_val in Hmax.
  rewrite wrap_small by (rewrite SIZE_MAX_val; lia).
  destruct (Z.eqb_spec (size_ v) (capacity_ v)) as [Heq | Hne].
  - destruct (grants (Z.max (capacity_ v * 2) (size_ v + 1))) eqn:Hg.
    + rewrite Resize_grow by (try assumption; lia).
      pose proof (grants_le _ Hg) as Hle.
      set (nc := Z.max (capacity_ v * 2) (size_ v + 1)) in *.
      replace (size_ v + 1 - size_ v) with 1 by lia.
      exists (fresh (dom h)), dflt, (replicate (Z.to_nat (nc - (size_ v + 1))) dflt).
      simpl. split_and!; try reflexivity; try lia.
      * rewrite lookup_release_insert by assumption. reflexivity.
      * rewrite Hel, length_app. simpl. rewrite length_replicate. lia.
      * apply frame_release_insert.
    + rewrite Resize_grow_Throw by (try assumption; lia). auto.
  - destruct (a_ v) as [b |] eqn:Ha; [| lia].
    specialize (Hlk b eq_refl).
    destruct spare as [| s spare].
    { rewrite app_nil_r in Hcap. lia. }
    unfold ret. exists b, s, spare. simpl. rewrite Hel.
    split_and!; try reflexivity; try lia; try assumption.
    + auto.
    + intros b0 buf Hb0 _. exact Hb0.
Qed.

Lemma elems_length (h : heap) v :
  wf h v -> Z.of_nat (length (elems h v)) = size_ v.
Proof.
  intros Hwf. destruct (wf_view h v Hwf) as (live & spare & _ & -> & -> & _).
  reflexivity.
Qed.

Lemma elems_intro (h : heap) v b l r :
  a_ v = Some b -> h !! b = Some (l ++ r) -> size_ v = Z.of_nat (length l) ->
  elems h v = l.
Proof.
  intros Ha Hb Hs. unfold elems, buffer. rewrite Ha, Hb, Hs, Nat2Z.id. simpl.
  apply take_app_length.
Qed.

Lemma wf_intro (h : heap) v b buf :
  a_ v = Some b -> h !! b = Some buf ->
  0 <= size_ v <= capacity_ v -> capacity_ v <= PTRDIFF_MAX ->
  capacity_ v <= Z.of_nat (length buf) ->
  wf h v.
Proof.
  intros Ha Hb Hs Hmax Hlen. unfold wf. rewrite Ha. split_and!; try lia.
  exists buf. auto.
Qed.

Lemma frame_insert v (h h1 : heap) b buf :
  frame v h h1 -> (a_ v = Some b \/ h !! b = None) ->
  frame v h (<[b := buf]> h1).
Proof.
  intros Hf Hb b0 old Hb0 Hne.
  rewrite lookup_insert_ne; [apply Hf; assumption |].
  intros ->. destruct Hb as [Hb | Hb]; congruence.
Qed.

(** *** PushBack *)

(** Appending: the element sequence gains [item] at its end; the call either
    returns, or throws [std::bad_alloc] leaving everything as it was, and it
    throws only when the buffer is full and the allocator refuses. *)
Lemma assign_from_Temp dst x : assign_from dst (Temp x) = store dst x.
Proof. reflexivity. Qed.

Lemma PushBack_post (h : heap) v item :
  wf h v ->
  match PushBack v (Temp item) h with
  | Ok v' h' =>
      wf h' v' /\
      elems h' v' = elems h v ++ [item] /\
      size_ v' = size_ v + 1 /\
      capacity_ v' = grown_capacity v /\
      (size_ v < capacity_ v -> a_ v' = a_ v) /\
      frame v h h' /\
      (size_ v = capacity_ v -> a_ v' = Some (fresh (dom h)))
  | Throw e h' =>
      e = BadAlloc /\ h' = h /\ size_ v = capacity_ v /\
      grants (grown_capacity v) = false
  | Fault _ => False
  end.
Proof.
  intros Hwf. pose proof (ResizeForOneElement_post h v Hwf) as Hroe.
  pose proof (elems_length h v Hwf) as Hlen.
  pose proof Hwf as (Hs & _).
  unfold PushBack, bind.
  destruct (ResizeForOneElement v h) as [v1 h1 | e h1 | f]; [| exact Hroe | exact Hroe].
  destruct Hroe as (b1 & s & spare & Ha1 & Hb1 & Hs1 & Hc1 & Hle1 & Hlen1 & Hsame & Hfresh & Hfr).
  rewrite assign_from_Temp.
  unfold end_, Get, ptr_add, GetSize. simpl. rewrite Ha1.
  replace (0 + size_ v1 + -1) with (Z.of_nat (length (elems h v))) by lia.
  erewrite store_at by exact Hb1. unfold ret.
  assert (Hlk : <[b1 := elems h v ++ item :: spare]> h1 !! b1
                = Some ((elems h v ++ [item]) ++ spare))
    by (rewrite lookup_insert_eq, <- app_assoc; reflexivity).
  split_and!; try assumption.
  - eapply wf_intro; [exact Ha1 | exact Hlk | lia | lia |].
    rewrite !length_app in *. simpl in *. lia.
  - eapply elems_intro; [exact Ha1 | exact Hlk |].
    rewrite length_snoc. lia.
  - intros Hlt. apply Hsame, Hlt.
  - apply frame_insert; [exact Hfr |].
    destruct (Z.eq_dec (size_ v) (capacity_ v)) as [Heq | Hne].
    + right. rewrite (Hfresh Heq). apply fresh_None.
    + left. destruct (Hsame ltac:(lia)) as [<- _]. exact Ha1.
  - intros Heq. rewrite Ha1, (Hfresh Heq). reflexivity.
Qed.

(** *** Insert *)

Lemma assert_insertable_Ok v pos (h : heap) :
  base pos = a_ v -> 0 <= off pos <= size_ v ->
  assert_insertable v pos h = Ok tt h.
Proof.
  intros Hb Ho. unfold assert_insertable, ptr_le, begin_, end_, Get, ptr_add, GetSize.
  simpl. rewrite Hb.
  destruct (decide (a_ v = a_ v)); [| congruence].
  destruct (Z.leb_spec 0 (off pos)); [| lia].
  destruct (Z.leb_spec (off pos) (0 + size_ v)); [reflexivity | lia].
Qed.

(** Inserting before the slot at distance [off pos] from [begin()]: the
    elements from there on move one slot to the right and [value] takes the
    gap; the position returned is that slot in the (possibly new) buffer. *)
Lemma Insert_post (h : heap) v pos value :
  wf h v -> base pos = a_ v -> 0 <= off pos <= size_ v ->
  match Insert v pos (Temp value) h with
  | Ok (v', p) h' =>
      wf h' v' /\
      elems h' v' = take (Z.to_nat (off pos)) (elems h v)
                      ++ value :: drop (Z.to_nat (off pos)) (elems h v) /\
      size_ v' = size_ v + 1 /\
      capacity_ v' = grown_capacity v /\
      p = Ptr (a_ v') (off pos) /\
      slot h' p = Some value /\
      (size_ v < capacity_ v -> a_ v' = a_ v) /\
      frame v h h' /\
      (size_ v = capacity_ v -> a_ v' = Some (fresh (dom h)))
  | Throw e h' =>
      e = BadAlloc /\ h' = h /\ size_ v = capacity_ v /\
      grants (grown_capacity v) = false
  | Fault _ => False
  end.
Proof.
  intros Hwf Hbase Hoff. pose proof (ResizeForOneElement_post h v Hwf) as Hroe.
  pose proof (elems_length h v Hwf) as Hlen.
  pose proof Hwf as (Hs & _).
  unfold Insert. erewrite bind_Ok by (apply assert_insertable_Ok; assumption).
  unfold GetPosToInsert, ptr_diff, cbegin, Get. simpl.
  destruct (decide (base pos = a_ v)) as [_ | ?]; [| congruence].
  unfold bind at 2. unfold bind at 1.
  destruct (ResizeForOneElement v h) as [v1 h1 | e h1 | f]; [| exact Hroe | exact Hroe].
  destruct Hroe as (b1 & s & spare & Ha1 & Hb1 & Hs1 & Hc1 & Hle1 & Hlen1 & Hsame & Hfresh & Hfr).
  set (i := Z.to_nat (off pos)).
  set (pre := take i (elems h v)). set (xs := drop i (elems h v)).
  assert (Hsplit : elems h v = pre ++ xs) by (symmetry; apply take_drop).
  assert (Hpre : length pre = i) by (unfold pre; rewrite length_take; lia).
  assert (Hxs : Z.of_nat (length xs) = size_ v - off pos)
    by (unfold xs; rewrite length_drop; lia).
  rewrite Hsplit, <- app_assoc in Hb1.
  unfold begin_, end_, Get, ptr_add, GetSize. simpl. rewrite Ha1.
  assert (Hshift : exists z,
    (if 1 <? size_ v1
     then copy_backward true (Ptr (Some b1) (0 + (off pos - 0)))
            (Ptr (Some b1) (0 + size_ v1 + -1)) (Ptr (Some b1) (0 + size_ v1))
     else ret tt) h1
    = Ok tt (<[b1 := pre ++ z :: xs ++ spare]> h1)).
  { destruct (Z.ltb_spec 1 (size_ v1)).
    - exists (from_option moved s (head xs)).
      rewrite copy_backward_same by lia.
      replace (Z.to_nat (0 + size_ v1 + -1 - (0 + (off pos - 0))))
        with (length xs) by lia.
      replace (0 + size_ v1 + -1) with (Z.of_nat (length pre + length xs)) by lia.
      replace (0 + size_ v1) with (Z.of_nat (S (length pre + length xs))) by lia.
      apply copy_backward_n_shift_right. exact Hb1.
    - exists s. unfold ret. f_equal. symmetry. apply insert_id.
      assert (Hx : xs = []) by (apply nil_length_inv; lia).
      rewrite Hx in *. exact Hb1. }
  destruct Hshift as (z & Hshift).
  erewrite (bind_Ok _ _ h1) by exact Hshift. unfold ret at 1. simpl.
  replace (0 + (off pos - 0)) with (Z.of_nat (length pre)) by lia.
  rewrite assign_from_Temp.
  erewrite bind_Ok by (eapply store_at; apply lookup_insert_eq).
  unfold ret. rewrite insert_insert_eq.
  assert (Hlk : <[b1 := pre ++ value :: xs ++ spare]> h1 !! b1
                = Some ((pre ++ value :: xs) ++ spare))
    by (rewrite lookup_insert_eq, <- app_assoc; reflexivity).
  split_and!; try assumption.
  - eapply wf_intro; [exact Ha1 | exact Hlk | lia | lia |].
    rewrite Hsplit in Hlen1. rewrite ?length_app in *. simpl in *.
    rewrite ?length_app in *. simpl in *. lia.
  - eapply elems_intro; [exact Ha1 | exact Hlk |].
    rewrite length_app. simpl. lia.
  - rewrite Ha1. f_equal. lia.
  - unfold slot. simpl. rewrite lookup_insert_eq.
    destruct (Z.leb_spec 0 (Z.of_nat (length pre))); [| lia].
    rewrite Nat2Z.id. apply list_lookup_middle. reflexivity.
  - intros Hlt. apply Hsame, Hlt.
  - apply frame_insert; [exact Hfr |].
    destruct (Z.eq_dec (size_ v) (capacity_ v)) as [Heq | Hne].
    + right. rewrite (Hfresh Heq). apply fresh_None.
    + left. destruct (Hsame ltac:(lia)) as [<- _]. exact Ha1.
  - intros Heq. rewrite Ha1, (Hfresh Heq). reflexivity.
Qed.

(** *** Erase and PopBack *)

Lemma assert_dereferenceable_Ok v pos (h : heap) :
  base pos = a_ v -> 0 <= off pos < size_ v ->
  assert_dereferenceable v pos h = Ok tt h.
Proof.
  intros Hb Ho.
  unfold assert_dereferenceable, ptr_le, ptr_lt, begin_, end_, Get, ptr_add, GetSize.
  simpl. rewrite Hb.
  destruct (decide (a_ v = a_ v)); [| congruence].
  destruct (Z.leb_spec 0 (off pos)); [| lia].
  destruct (Z.ltb_spec (off pos) (0 + size_ v)); [reflexivity | lia].
Qed.

(** Erasing the slot at distance [off pos] from [begin()]: the elements after
    it move one slot to the left; the handle and the capacity stay. *)
Lemma Erase_post (h : heap) v pos :
  wf h v -> base pos = a_ v -> 0 <= off pos < size_ v ->
  exists h',
    Erase v pos h
    = Ok (mkVec (a_ v) (size_ v - 1) (capacity_ v), Ptr (a_ v) (off pos)) h' /\
    wf h' (mkVec (a_ v) (size_ v - 1) (capacity_ v)) /\
    elems h' (mkVec (a_ v) (size_ v - 1) (capacity_ v))
    = take (Z.to_nat (off pos)) (elems h v)
        ++ drop (S (Z.to_nat (off pos))) (elems h v) /\
    frame v h h'.
Proof.
  intros Hwf Hbase Hoff.
  destruct (wf_view h v Hwf) as (live & spare & Hbuf & Hel & Hsz & Hcap & Hlk & Hnull).
  pose proof Hwf as (Hs & Hmax & _). rewrite PTRDIFF_MAX_val in Hmax.
  destruct (a_ v) as [b |] eqn:Ha;
    [| destruct (Hnull eq_refl) as [-> _]; simpl in Hsz; lia].
  specialize (Hlk b eq_refl). rewrite Hel.
  set (i := Z.to_nat (off pos)).
  destruct (drop i live) as [| y xs] eqn:Hdrop.
  { apply (f_equal length) in Hdrop. rewrite length_drop in Hdrop. simpl in Hdrop. lia. }
  set (pre := take i live).
  assert (Hsplit : live = pre ++ y :: xs)
    by (rewrite <- Hdrop; symmetry; apply take_drop).
  assert (Hpre : length pre = i) by (unfold pre; rewrite length_take; lia).
  assert (Hxs : Z.of_nat (length xs) = size_ v - off pos - 1).
  { apply (f_equal length) in Hdrop. rewrite length_drop in Hdrop.
    simpl in Hdrop. lia. }
  assert (Hdrop' : drop (S i) live = xs).
  { rewrite Hsplit, <- Hpre.
    change (pre ++ y :: xs) with (pre ++ [y] ++ xs). rewrite app_assoc.
    rewrite <- (length_snoc pre y). apply drop_app_length. }
  rewrite Hdrop'.
  rewrite Hsplit, <- app_assoc in Hlk. simpl in Hlk.
  exists (<[b := pre ++ xs ++ from_option moved y (last xs) :: spare]> h).
  assert (Hlk' : <[b := pre ++ xs ++ from_option moved y (last xs) :: spare]> h !! b
                 = Some ((pre ++ xs) ++ from_option moved y (last xs) :: spare))
    by (rewrite lookup_insert_eq, <- app_assoc; reflexivity).
  split_and!.
  - unfold Erase.
    erewrite bind_Ok by (apply assert_dereferenceable_Ok; rewrite ?Ha; assumption).
    unfold ptr_diff, cbegin, begin_, end_, Get, ptr_add, GetSize. simpl.
    rewrite Hbase, Ha.
    destruct (decide (Some b = Some b)) as [_ | ?]; [| congruence].
    rewrite wrap_small by (rewrite SIZE_MAX_val; lia).
    erewrite bind_Ok.
    + unfold ret. do 3 f_equal. lia.
    + rewrite copy_same by lia.
      replace (Z.to_nat (0 + size_ v - (0 + (off pos - 0) + 1))) with (length xs) by lia.
      replace (0 + (off pos - 0) + 1) with (Z.of_nat (S (length pre))) by lia.
      replace (0 + (off pos - 0)) with (Z.of_nat (length pre)) by lia.
      apply copy_n_shift_left. exact Hlk.
  - eapply wf_intro;
      [reflexivity | exact Hlk' | simpl; lia | rewrite PTRDIFF_MAX_val; simpl; lia |].
    simpl. rewrite Hsplit in Hcap.
    rewrite ?length_app in *. simpl in *. rewrite ?length_app in *. simpl in *. lia.
  - eapply elems_intro; [reflexivity | exact Hlk' |].
    simpl. rewrite length_app. lia.
  - intros b0 buf Hb0 Hne. rewrite lookup_insert_ne by congruence. exact Hb0.
Qed.

Lemma PopBack_Ok (h : heap) v :
  wf h v -> 0 < size_ v ->
  PopBack v h = Ok (mkVec (a_ v) (size_ v - 1) (capacity_ v)) h.
Proof.
  intros (Hs & Hmax & _) Hpos. rewrite PTRDIFF_MAX_val in Hmax.
  unfold PopBack, noexcept, IsEmpty, GetSize.
  destruct (Z.eqb_spec (size_ v) 0); [lia |]. simpl.
  rewrite wrap_small by (rewrite SIZE_MAX_val; lia). reflexivity.
Qed.

Lemma elems_shrink (h : heap) v n :
  0 <= n <= size_ v ->
  elems h (mkVec (a_ v) n (capacity_ v)) = take (Z.to_nat n) (elems h v).
Proof.
  intros Hn. unfold elems, buffer. simpl. rewrite take_take. f_equal. lia.
Qed.

(** *** Reserve *)

(** Copying the live elements of a well-formed container into the first
    slots of a block allocated just before. *)
Lemma copy_live_to_fresh mv (h : heap) v rest :
  wf h v ->
  exists h1,
    copy mv (begin_ v) (end_ v) (Get (Some (fresh (dom h))))
      (<[fresh (dom h) := replicate (length (elems h v)) dflt ++ rest]> h)
    = Ok tt h1 /\
    h1 !! fresh (dom h) = Some (elems h v ++ rest) /\
    (forall b, b <> fresh (dom h) -> a_ v <> Some b -> h1 !! b = h !! b) /\
    (forall b, a_ v = Some b ->
       b <> fresh (dom h) /\
       h1 !! b = Some ((if mv then moved <$> elems h v else elems h v)
                         ++ drop (Z.to_nat (size_ v)) (buffer h v))).
Proof.
  intros Hwf.
  destruct (wf_view h v Hwf) as (live & spare & Hbuf & Hel & Hsz & Hcap & Hlk & Hnull).
  unfold begin_, end_, Get, ptr_add, GetSize. simpl.
  rewrite copy_same by lia. rewrite Hel, Hbuf, Hsz, Nat2Z.id, drop_app_length.
  replace (Z.to_nat (0 + Z.of_nat (length live) - 0)) with (length live) by lia.
  set (b' := fresh (dom h)).
  destruct (a_ v) as [b |] eqn:Ha.
  - assert (Hne : b <> b').
    { intros ->. specialize (Hlk _ eq_refl). unfold b' in Hlk.
      rewrite fresh_None in Hlk. discriminate. }
    eexists. split_and!.
    + apply (copy_n_across mv b b' live _ [] spare []
               (replicate (length live) dflt));
        [exact Hne
        | rewrite lookup_insert_ne by congruence; apply Hlk; reflexivity
        | rewrite lookup_insert_eq; reflexivity
        | apply length_replicate ].
    + rewrite lookup_insert_ne, lookup_insert_eq by congruence. reflexivity.
    + intros b0 Hb0 Hb0'. rewrite !lookup_insert_ne by congruence. reflexivity.
    + intros b0 [= <-]. split; [exact Hne |]. rewrite lookup_insert_eq. reflexivity.
  - destruct (Hnull eq_refl) as [-> ->]. simpl.
    eexists. split_and!; [reflexivity | | | discriminate].
    + rewrite lookup_insert_eq. reflexivity.
    + intros b0 Hb0 _. rewrite lookup_insert_ne by congruence. reflexivity.
Qed.

Lemma release_copy_live (h h1 : heap) v buf :
  h1 !! fresh (dom h) = Some buf ->
  (forall b, b <> fresh (dom h) -> a_ v <> Some b -> h1 !! b = h !! b) ->
  (forall b, a_ v = Some b -> b <> fresh (dom h)) ->
  release (a_ v) h1 = release (a_ v) (<[fresh (dom h) := buf]> h).
Proof.
  intros Hnew Hother Hne. apply map_eq. intros k.
  destruct (a_ v) as [b |] eqn:Ha; simpl.
  - rewrite !lookup_delete. case_decide; [reflexivity |].
    rewrite lookup_insert. case_decide; [subst; exact Hnew |].
    apply Hother; congruence.
  - rewrite lookup_insert. case_decide; [subst; exact Hnew |].
    apply Hother; congruence.
Qed.

Lemma ArrayPtr_delete_Ok a (h : heap) :
  (forall b, a = Some b -> is_Some (h !! b)) ->
  ArrayPtr_delete a h = Ok tt (release a h).
Proof.
  intros Hb. unfold ArrayPtr_delete, release. destruct a as [b |]; [| reflexivity].
  destruct (Hb b eq_refl) as [buf ->]. reflexivity.
Qed.

(** [Reserve] above the capacity moves the elements to a block of exactly
    [n] slots; the size stays. *)
Lemma Reserve_grow (h : heap) v n :
  wf h v -> capacity_ v < n -> grants n = true ->
  Reserve v n h
  = Ok (mkVec (Some (fresh (dom h))) (size_ v) n)
       (release (a_ v)
          (<[fresh (dom h) :=
               elems h v ++ replicate (Z.to_nat (n - size_ v)) dflt]> h)).
Proof.
  intros Hwf Hn Hg. pose proof (elems_length h v Hwf) as Hlen.
  pose proof Hwf as (Hs & _).
  unfold Reserve, GetCapacity.
  destruct (Z.ltb_spec (capacity_ v) n); [| lia].
  erewrite bind_Ok by (apply ArrayPtr_new_Ok; exact Hg).
  rewrite (replicate_split (length (elems h v)) (Z.to_nat n)) by lia.
  destruct (copy_live_to_fresh false h v
              (replicate (Z.to_nat n - length (elems h v)) dflt) Hwf)
    as (h1 & Hcopy & Hnew & Hother & Hold).
  erewrite bind_Ok by exact Hcopy. simpl.
  erewrite bind_Ok
    by (apply ArrayPtr_delete_Ok; intros b Hb; destruct (Hold b Hb) as [_ ->]; eauto).
  unfold ret. erewrite release_copy_live; [| exact Hnew | exact Hother | apply Hold].
  do 5 f_equal. lia.
Qed.

Lemma Reserve_Throw (h : heap) v n :
  capacity_ v < n -> grants n = false -> Reserve v n h = Throw BadAlloc h.
Proof.
  intros Hn Hg. unfold Reserve, GetCapacity.
  destruct (Z.ltb_spec (capacity_ v) n); [| lia].
  apply bind_Throw, ArrayPtr_new_Throw, Hg.
Qed.

Lemma Reserve_enough (h : heap) v n :
  n <= capacity_ v -> Reserve v n h = Ok v h.
Proof.
  intros Hn. unfold Reserve, GetCapacity.
  destruct (Z.ltb_spec (capacity_ v) n); [lia | reflexivity].
Qed.

(** *** Constructors *)

Lemma ctor_init_eq (h : heap) init :
  ctor_init init h
  = if grants (Z.of_nat (length init))
    then Ok (mkVec (Some (fresh (dom h))) (Z.of_nat (length init))
               (Z.of_nat (length init)))
            (<[fresh (dom h) := init]> h)
    else Throw BadAlloc h.
Proof.
  unfold ctor_init. destruct (grants (Z.of_nat (length init))) eqn:Hg.
  - erewrite bind_Ok by (apply ArrayPtr_new_Ok; exact Hg).
    rewrite Nat2Z.id. unfold Get.
    erewrite bind_Ok.
    + reflexivity.
    + rewrite (copy_init_at init _ (fresh (dom h)) [] (replicate (length init) dflt) []).
      * rewrite insert_insert_eq, app_nil_r. reflexivity.
      * rewrite lookup_insert_eq, app_nil_r. reflexivity.
      * apply length_replicate.
  - apply bind_Throw, ArrayPtr_new_Throw, Hg.
Qed.

Lemma ctor_copy_post (h : heap) v :
  wf h v ->
  match ctor_copy v h with
  | Ok d h' =>
      d = mkVec (Some (fresh (dom h))) (size_ v) (capacity_ v) /\
      h' = <[fresh (dom h) :=
               elems h v ++ replicate (Z.to_nat (capacity_ v - size_ v)) dflt]> h
  | Throw e h' => e = BadAlloc /\ h' = h /\ grants (capacity_ v) = false
  | Fault _ => False
  end.
Proof.
  intros Hwf. pose proof (elems_length h v Hwf) as Hlen.
  destruct (wf_view h v Hwf) as (live & spare & Hbuf & Hel & Hsz & Hcap & Hlk & Hnull).
  pose proof Hwf as (Hs & _).
  unfold ctor_copy, GetCapacity, GetSize.
  destruct (grants (capacity_ v)) eqn:Hg.
  - erewrite bind_Ok by (apply ArrayPtr_new_Ok; exact Hg).
    rewrite (replicate_split (length (elems h v)) (Z.to_nat (capacity_ v))) by lia.
    destruct (copy_live_to_fresh false h v
                (replicate (Z.to_nat (capacity_ v) - length (elems h v)) dflt) Hwf)
      as (h1 & Hcopy & Hnew & Hother & Hold).
    erewrite bind_Ok by exact Hcopy. unfold ret. split; [reflexivity |].
    apply map_eq. intros k. rewrite lookup_insert. case_decide.
    + subst k. rewrite Hnew. do 3 f_equal. lia.
    + destruct (decide (a_ v = Some k)) as [Hk | Hk].
      * destruct (Hold k Hk) as [_ ->]. rewrite (Hlk k Hk), Hel, Hbuf, Hsz.
        now rewrite Nat2Z.id, drop_app_length.
      * apply Hother; congruence.
  - erewrite bind_Throw by (apply ArrayPtr_new_Throw; exact Hg). auto.
Qed.

(** The move constructor allocates a block of the source's capacity and
    moves the live elements into it one by one; the source keeps its block
    and has its counters reset. *)
Lemma ctor_move_post (h : heap) v :
  wf h v ->
  match ctor_move v h with
  | Ok (d, v') h' =>
      grants (capacity_ v) = true /\
      d = mkVec (Some (fresh (dom h))) (size_ v) (capacity_ v) /\
      v' = mkVec (a_ v) 0 0 /\
      h' !! fresh (dom h)
      = Some (elems h v ++ replicate (Z.to_nat (capacity_ v - size_ v)) dflt) /\
      (forall b, a_ v = Some b ->
         b <> fresh (dom h) /\
         h' !! b = Some ((moved <$> elems h v)
                           ++ drop (Z.to_nat (size_ v)) (buffer h v))) /\
      (forall b, b <> fresh (dom h) -> a_ v <> Some b -> h' !! b = h !! b)
  | Throw _ _ => False
  | Fault f => f = Terminated /\ grants (capacity_ v) = false
  end.
Proof.
  intros Hwf. pose proof (elems_length h v Hwf) as Hlen.
  pose proof Hwf as (Hs & _).
  unfold ctor_move, noexcept, GetCapacity, GetSize.
  destruct (grants (capacity_ v)) eqn:Hg.
  - erewrite bind_Ok by (apply ArrayPtr_new_Ok; exact Hg).
    rewrite (replicate_split (length (elems h v)) (Z.to_nat (capacity_ v))) by lia.
    destruct (copy_live_to_fresh true h v
                (replicate (Z.to_nat (capacity_ v) - length (elems h v)) dflt) Hwf)
      as (h1 & Hcopy & Hnew & Hother & Hold).
    erewrite bind_Ok by exact Hcopy. unfold ret.
    split_and!; try reflexivity; try assumption.
    rewrite Hnew. do 3 f_equal. lia.
  - erewrite bind_Throw by (apply ArrayPtr_new_Throw; exact Hg). auto.
Qed.

(** *** Checked access *)

Lemma At_eq (h : heap) v i :
  At v i h = if size_ v <=? i then Throw OutOfRange h else Ok (Ptr (a_ v) i) h.
Proof. unfold At, GetSize. destruct (size_ v <=? i); reflexivity. Qed.

Lemma slot_elems (h : heap) v i :
  wf h v -> 0 <= i < size_ v ->
  slot h (Ptr (a_ v) i) = elems h v !! Z.to_nat i /\
  is_Some (elems h v !! Z.to_nat i).
Proof.
  intros Hwf Hi.
  destruct (wf_view h v Hwf) as (live & spare & Hbuf & Hel & Hsz & Hcap & Hlk & Hnull).
  rewrite Hel. assert (Hlt : (Z.to_nat i < length live)%nat) by lia.
  split; [| apply lookup_lt_is_Some; exact Hlt].
  unfold slot. simpl.
  destruct (a_ v) as [b |] eqn:Ha;
    [| destruct (Hnull eq_refl) as [-> _]; simpl in Hlt; lia].
  rewrite (Hlk b eq_refl).
  destruct (Z.leb_spec 0 i); [| lia].
  now rewrite lookup_app_l.
Qed.

(** *** Growth *)

Lemma wf_release_fresh (h : heap) v buf size cap :
  wf h v -> 0 <= size <= cap -> cap <= PTRDIFF_MAX ->
  cap <= Z.of_nat (length buf) ->
  wf (release (a_ v) (<[fresh (dom h) := buf]> h))
     (mkVec (Some (fresh (dom h))) size cap).
Proof.
  intros Hwf Hs Hmax Hlen.
  apply (wf_intro _ _ (fresh (dom h)) buf); simpl; try assumption; try reflexivity.
  apply lookup_release_insert, Hwf.
Qed.

(** [Resize] above the capacity. *)
Lemma Resize_grow_post (h : heap) v n :
  wf h v -> capacity_ v < n ->
  match Resize v n h with
  | Ok v' h' =>
      wf h' v' /\
      elems h' v' = elems h v ++ replicate (Z.to_nat (n - size_ v)) dflt /\
      size_ v' = n /\
      capacity_ v' = Z.max (capacity_ v * 2) n /\
      frame v h h'
  | Throw e h' =>
      e = BadAlloc /\ h' = h /\ grants (Z.max (capacity_ v * 2) n) = false
  | Fault _ => False
  end.
Proof.
  intros Hwf Hn. pose proof (elems_length h v Hwf) as Hlen.
  pose proof Hwf as (Hs & _).
  destruct (grants (Z.max (capacity_ v * 2) n)) eqn:Hg.
  - rewrite Resize_grow by assumption. pose proof (grants_le _ Hg) as Hle.
    split_and!; try reflexivity.
    + apply wf_release_fresh; [assumption | lia | assumption |].
      rewrite !length_app, !length_replicate. lia.
    + eapply elems_intro; simpl; [reflexivity | |].
      * rewrite lookup_release_insert by assumption. now rewrite app_assoc.
      * rewrite length_app, length_replicate. lia.
    + apply frame_release_insert.
  - rewrite Resize_grow_Throw by assumption. auto.
Qed.

(** *** Repeated appends *)

Lemma wf_ctor_default (h : heap) : wf h ctor_default.
Proof. unfold wf, ctor_default. simpl. rewrite PTRDIFF_MAX_val. lia. Qed.

Lemma elems_ctor_default (h : heap) : elems h ctor_default = [].
Proof. reflexivity. Qed.



(** ** What is returned, what is thrown *)

Lemma post_ret {S A} (a : A) (Q : A -> Prop) : Q a -> post (@ret S A a) Q.
Proof. intros Ha s a' s' [= <- _]. exact Ha. Qed.

Lemma post_bind {S A B} (m : S -> outcome S A) (k : A -> S -> outcome S B) P Q :
  post m P -> (forall a, P a -> post (k a) Q) -> post (bind m k) Q.
Proof.
  intros Hm Hk s b s2 Hb. apply bind_inv_Ok in Hb as (a & s1 & Ha & Hb).
  eapply Hk; [eapply Hm; exact Ha | exact Hb].
Qed.

Lemma post_any {S A} (m : S -> outcome S A) : post m (fun _ => True).
Proof. intros s a s' _. exact I. Qed.

Lemma post_fail {S A} f (Q : A -> Prop) : post (@fail S A f) Q.
Proof. intros s a s' H. discriminate. Qed.

Lemma post_throw {S A} e (Q : A -> Prop) : post (@throw S A e) Q.
Proof. intros s a s' H. discriminate. Qed.

Lemma post_assert {S} (c : bool) : post (@assert S c) (fun _ => c = true).
Proof. intros s a s' H. destruct c; [reflexivity | discriminate]. Qed.

Lemma post_noexcept {S A} (m : S -> outcome S A) Q :
  post m Q -> post (noexcept m) Q.
Proof.
  intros Hm s a s' H. unfold noexcept in H. apply (Hm s a s').
  destruct (m s); [exact H | discriminate | exact H].
Qed.

Lemma throws_ret {S A} (a : A) E : throws (@ret S A a) E.
Proof. intros s e s' H. discriminate. Qed.

Lemma throws_fail {S A} f E : throws (@fail S A f) E.
Proof. intros s e s' H. discriminate. Qed.

Lemma throws_assert {S} (c : bool) E : throws (@assert S c) E.
Proof. intros s e s' H. destruct c; discriminate. Qed.

Lemma throws_bind {S A B} (m : S -> outcome S A) (k : A -> S -> outcome S B) E :
  throws m E -> (forall a, throws (k a) E) -> throws (bind m k) E.
Proof.
  intros Hm Hk s e s2 Hb.
  apply bind_inv_Throw in Hb as [Hb | (a & s1 & _ & Hb)].
  - eapply Hm, Hb.
  - eapply Hk, Hb.
Qed.

Lemma throws_noexcept {S A} (m : S -> outcome S A) E : throws (noexcept m) E.
Proof. intros s e s' H. unfold noexcept in H. destruct (m s); discriminate. Qed.

Lemma throws_load p E : throws (load p) E.
Proof. intros h e h' H. unfold load in H. destruct (slot h p); discriminate. Qed.

Lemma throws_store p x E : throws (store p x) E.
Proof.
  intros h e h' H. unfold store in H.
  destruct (base p); [| discriminate]. destruct (h !! n); [| discriminate].
  destruct (_ && _); discriminate.
Qed.

Lemma throws_range p q E : throws (range p q) E.
Proof.
  unfold range. destruct (ptr_diff q p); [| apply throws_fail].
  destruct (0 <=? z); [apply throws_ret | apply throws_fail].
Qed.

Lemma throws_assign_elem mv d s E : throws (assign_elem mv d s) E.
Proof.
  unfold assign_elem. apply throws_bind; [apply throws_load | intros x].
  apply throws_bind; [apply throws_store | intros _].
  destruct mv; [apply throws_store | apply throws_ret].
Qed.

Lemma throws_copy_n mv n E : forall p q, throws (copy_n mv n p q) E.
Proof.
  induction n as [| n IH]; intros p q; [apply throws_ret |].
  cbn [copy_n]. apply throws_bind; [apply throws_assign_elem | intros _; apply IH].
Qed.

Lemma throws_copy mv p q d E : throws (copy mv p q d) E.
Proof.
  unfold copy. apply throws_bind; [apply throws_range | intros n; apply throws_copy_n].
Qed.

Lemma throws_copy_backward_n mv n E : forall p q, throws (copy_backward_n mv n p q) E.
Proof.
  induction n as [| n IH]; intros p q; [apply throws_ret |].
  cbn [copy_backward_n].
  apply throws_bind; [apply throws_assign_elem | intros _; apply IH].
Qed.

Lemma throws_copy_backward mv p q d E : throws (copy_backward mv p q d) E.
Proof.
  unfold copy_backward.
  apply throws_bind; [apply throws_range | intros n; apply throws_copy_backward_n].
Qed.

Lemma throws_fill_n n value E : forall p, throws (fill_n n p value) E.
Proof.
  induction n as [| n IH]; intros p; [apply throws_ret |].
  cbn [fill_n]. apply throws_bind; [apply throws_store | intros _; apply IH].
Qed.

Lemma throws_fill p q value E : throws (fill p q value) E.
Proof.
  unfold fill. apply throws_bind; [apply throws_range | intros n; apply throws_fill_n].
Qed.

Lemma throws_copy_init init E : forall p, throws (copy_init init p) E.
Proof.
  induction init as [| x init IH]; intros p; [apply throws_ret |].
  cbn [copy_init]. apply throws_bind; [apply throws_store | intros _; apply IH].
Qed.

Lemma throws_reset_n n E : forall p, throws (reset_n n p) E.
Proof.
  induction n as [| n IH]; intros p; [apply throws_ret |].
  cbn [reset_n]. apply throws_bind; [apply throws_load | intros _].
  apply throws_bind; [apply throws_store | intros _; apply IH].
Qed.

Lemma throws_reset p q E : throws (reset p q) E.
Proof.
  unfold reset. apply throws_bind; [apply throws_range | intros n; apply throws_reset_n].
Qed.

Lemma throws_ArrayPtr_new n : throws (ArrayPtr_new n) (eq BadAlloc).
Proof.
  intros h e h' H. unfold ArrayPtr_new in H.
  destruct (grants n); [discriminate |]. now injection H as <- _.
Qed.

Lemma throws_ArrayPtr_delete a E : throws (ArrayPtr_delete a) E.
Proof.
  intros h e h' H. unfold ArrayPtr_delete in H.
  destruct a as [b |]; [| discriminate]. destruct (h !! b); discriminate.
Qed.

Lemma throws_read r E : throws (read r) E.
Proof. destruct r; [apply throws_ret | apply throws_load]. Qed.

Lemma throws_write r x E : throws (write r x) E.
Proof.
  destruct r; [apply throws_ret |]. cbn [write].
  apply throws_bind; [apply throws_store | intros _; apply throws_ret].
Qed.

Lemma throws_assign_from dst r E : throws (assign_from dst r) E.
Proof.
  unfold assign_from.
  apply throws_bind; [apply throws_read | intros x; apply throws_store].
Qed.

Lemma throws_exchange_from dst r E : throws (exchange_from dst r) E.
Proof.
  unfold exchange_from.
  apply throws_bind; [apply throws_load | intros old].
  apply throws_bind; [apply throws_store | intros _].
  apply throws_bind; [apply throws_read | intros x].
  apply throws_bind; [apply throws_store | intros _; apply throws_write].
Qed.

Create HintDb throws discriminated.
#[local] Hint Resolve throws_ret throws_fail throws_assert throws_noexcept
  throws_load throws_store throws_copy throws_copy_backward throws_fill
  throws_copy_init throws_reset throws_ArrayPtr_new throws_ArrayPtr_delete
  throws_assign_from throws_exchange_from
  : throws.

(** Splits a computation along its binds and branches. *)
Ltac throws_step :=
  match goal with
  | |- throws (bind _ _) _ => apply throws_bind; [| intros ?]
  | |- throws (if ?c then _ else _) _ => destruct c
  | |- throws (match ?x with Some _ => _ | None => _ end) _ => destruct x
  | |- throws (match ?x with (_, _) => _ end) _ => destruct x
  | |- throws _ _ => solve [eauto with throws]
  end.

Lemma throws_Resize v n : throws (Resize v n) (eq BadAlloc).
Proof. unfold Resize, ArrayPtr_swap. repeat throws_step. Qed.

Lemma throws_ResizeForOneElement v : throws (ResizeForOneElement v) (eq BadAlloc).
Proof.
  unfold ResizeForOneElement. destruct (_ =? _); [apply throws_Resize | apply throws_ret].
Qed.

Lemma throws_GetPosToInsert v pos : throws (GetPosToInsert v pos) (eq BadAlloc).
Proof.
  unfold GetPosToInsert. destruct (ptr_diff _ _); [| apply throws_fail].
  apply throws_bind; [apply throws_ResizeForOneElement | intros v1].
  repeat throws_step.
Qed.

Lemma throws_assert_insertable v pos E : throws (assert_insertable v pos) E.
Proof.
  unfold assert_insertable. destruct (ptr_le _ _); [| apply throws_fail].
  destruct (ptr_le _ _); [apply throws_assert | apply throws_fail].
Qed.

Lemma throws_assert_dereferenceable v pos E :
  throws (assert_dereferenceable v pos) E.
Proof.
  unfold assert_dereferenceable. destruct (ptr_le _ _); [| apply throws_fail].
  destruct (ptr_lt _ _); [apply throws_assert | apply throws_fail].
Qed.

#[local] Hint Resolve throws_Resize throws_ResizeForOneElement
  throws_GetPosToInsert throws_assert_insertable throws_assert_dereferenceable
  : throws.

Lemma throws_Reserve v n : throws (Reserve v n) (eq BadAlloc).
Proof. unfold Reserve, ArrayPtr_swap. repeat throws_step. Qed.

Lemma throws_PushBack v item : throws (PushBack v item) (eq BadAlloc).
Proof. unfold PushBack. repeat throws_step. Qed.

Lemma throws_PushBack_rv v item : throws (PushBack_rv v item) (eq BadAlloc).
Proof. unfold PushBack_rv. repeat throws_step. Qed.

Lemma throws_Insert v pos value : throws (Insert v pos value) (eq BadAlloc).
Proof. unfold Insert. repeat throws_step. Qed.

Lemma throws_Insert_rv v pos value : throws (Insert_rv v pos value) (eq BadAlloc).
Proof. unfold Insert_rv. repeat throws_step. Qed.

Lemma throws_PopBack v E : throws (PopBack v) E.
Proof. unfold PopBack. apply throws_noexcept. Qed.

Lemma throws_Erase v pos E : throws (Erase v pos) E.
Proof. unfold Erase. repeat throws_step. Qed.

Lemma throws_index v i E : throws (index v i) E.
Proof. unfold index. apply throws_noexcept. Qed.

Lemma throws_At v i : throws (At v i) (eq OutOfRange).
Proof.
  intros h e h' H. rewrite At_eq in H.
  destruct (size_ v <=? i); [| discriminate]. now injection H as <- _.
Qed.

Lemma throws_ctor_fill n value : throws (ctor_fill n value) (eq BadAlloc).
Proof. unfold ctor_fill. repeat throws_step. Qed.

Lemma throws_ctor_init init : throws (ctor_init init) (eq BadAlloc).
Proof. unfold ctor_init. repeat throws_step. Qed.

Lemma throws_ctor_copy v : throws (ctor_copy v) (eq BadAlloc).
Proof. unfold ctor_copy. repeat throws_step. Qed.

Lemma throws_ctor_move v E : throws (ctor_move v) E.
Proof. unfold ctor_move. apply throws_noexcept. Qed.

Lemma throws_ctor_reserve obj : throws (ctor_reserve obj) (eq BadAlloc).
Proof. unfold ctor_reserve. repeat throws_step. Qed.

Lemma throws_dtor v E : throws (dtor v) E.
Proof. unfold dtor. apply throws_ArrayPtr_delete. Qed.

Lemma throws_lift {A} (m : heap -> outcome heap A) E :
  throws m E -> throws (lift m) E.
Proof.
  intros Hm s e s' H. unfold lift in H.
  destruct (m (mem s)) eqn:Hms; try discriminate.
  injection H as <- _. eapply Hm, Hms.
Qed.

Lemma throws_get_obj x E : throws (get_obj x) E.
Proof. intros s e s' H. unfold get_obj in H. destruct (objs s !! x); discriminate. Qed.

Lemma throws_put_obj x v E : throws (put_obj x v) E.
Proof. intros s e s' H. discriminate. Qed.

Lemma throws_new_obj x v E : throws (new_obj x v) E.
Proof. intros s e s' H. unfold new_obj in H. destruct (objs s !! x); discriminate. Qed.

Lemma throws_free_obj x E : throws (free_obj x) E.
Proof. intros s e s' H. discriminate. Qed.

#[local] Hint Resolve throws_get_obj throws_put_obj throws_new_obj throws_free_obj
  throws_Reserve throws_PushBack throws_PushBack_rv throws_Insert
  throws_Insert_rv throws_PopBack throws_Erase throws_index throws_ctor_fill
  throws_ctor_init throws_ctor_copy throws_ctor_move throws_ctor_reserve
  throws_dtor : throws.

Lemma throws_method this f E :
  (forall v, throws (f v) E) -> throws (method this f) E.
Proof.
  intros Hf. unfold method. apply throws_bind; [apply throws_get_obj | intros v].
  apply throws_bind; [apply throws_lift, Hf | intros v'; apply throws_put_obj].
Qed.

Lemma throws_op_assign this rhs : throws (op_assign this rhs) (eq BadAlloc).
Proof.
  unfold op_assign, swap, ArrayPtr_swap. repeat throws_step.
  apply throws_lift. eauto with throws.
  apply throws_lift. eauto with throws.
Qed.

Lemma throws_swap_obj this other E : throws (swap_obj this other) E.
Proof. unfold swap_obj, swap, ArrayPtr_swap. repeat throws_step. Qed.

(** Of all calls, only [At] throws [std::out_of_range]; whatever else is
    thrown is the allocator's [std::bad_alloc]. *)
Lemma throws_exec c :
  throws (exec c)
    (fun e => match c with CallAt _ _ => e = OutOfRange | _ => e = BadAlloc end).
Proof.
  assert (Hsym : forall m : state -> outcome state unit,
            throws m (eq BadAlloc) -> throws m (fun e => e = BadAlloc)).
  { intros m Hm s e s' H. symmetry. eapply Hm, H. }
  destruct c; cbn [exec]; try apply Hsym;
    try (apply throws_method; intros v);
    try solve [repeat (throws_step || apply throws_lift)].
  - apply throws_op_assign.
  - apply throws_swap_obj.
  - apply throws_bind; [| intros; apply throws_ret].
    intros s e s' H. symmetry. eapply throws_At, H.
Qed.

(** ** The invariant on the counters *)

Lemma wrap_range z : 0 <= wrap z <= SIZE_MAX.
Proof.
  unfold wrap, SIZE_MAX. pose proof (Z.mod_pos_bound z (2 ^ SIZE_BITS)) as H.
  assert (0 < 2 ^ SIZE_BITS) by reflexivity. lia.
Qed.

Lemma wrap_le z : 0 <= z -> wrap z <= z.
Proof. intros Hz. unfold wrap. apply Z.mod_le; [exact Hz | reflexivity]. Qed.

Ltac post_step :=
  match goal with
  | |- post (bind _ _) _ => eapply post_bind; [apply post_any | intros ? _]
  | |- post (ret _) _ => apply post_ret
  | |- post (fail _) _ => apply post_fail
  | |- post (throw _) _ => apply post_throw
  | |- post (noexcept _) _ => apply post_noexcept
  | |- post (match ?x with Some _ => _ | None => _ end) _ => destruct x
  end.

Lemma post_Resize v n : sound v -> 0 <= n -> post (Resize v n) sound.
Proof.
  intros Hv Hn. unfold Resize, ArrayPtr_swap, GetCapacity, sound in *.
  destruct (Z.leb_spec n (capacity_ v)); repeat post_step; simpl; lia.
Qed.

Lemma post_ResizeForOneElement v : sound v -> post (ResizeForOneElement v) sound.
Proof.
  intros Hv. unfold ResizeForOneElement, GetSize, GetCapacity.
  pose proof (wrap_range (size_ v + 1)) as Hr.
  destruct (Z.eqb_spec (size_ v) (capacity_ v)) as [Heq | Hne].
  - apply post_Resize; [exact Hv | lia].
  - apply post_ret. unfold sound in *. simpl.
    pose proof (wrap_le (size_ v + 1)). lia.
Qed.

Lemma post_GetPosToInsert v pos :
  sound v -> post (GetPosToInsert v pos) (fun r => sound (fst r)).
Proof.
  intros Hv. unfold GetPosToInsert. destruct (ptr_diff _ _); [| apply post_fail].
  eapply post_bind; [apply post_ResizeForOneElement, Hv | intros v1 Hv1].
  repeat post_step. exact Hv1.
Qed.

Lemma post_PushBack v item : sound v -> post (PushBack v item) sound.
Proof.
  intros Hv. unfold PushBack.
  eapply post_bind; [apply post_ResizeForOneElement, Hv | intros v1 Hv1].
  repeat post_step. exact Hv1.
Qed.

Lemma post_PushBack_rv v item :
  sound v -> post (PushBack_rv v item) (fun r => sound (fst r)).
Proof.
  intros Hv. unfold PushBack_rv.
  eapply post_bind; [apply post_ResizeForOneElement, Hv | intros v1 Hv1].
  repeat post_step. exact Hv1.
Qed.

Lemma post_Insert v pos value :
  sound v -> post (Insert v pos value) (fun r => sound (fst r)).
Proof.
  intros Hv. unfold Insert. post_step.
  eapply post_bind; [apply post_GetPosToInsert, Hv | intros r Hr].
  repeat post_step. exact Hr.
Qed.

Lemma post_Insert_rv v pos value :
  sound v -> post (Insert_rv v pos value) (fun r => sound (fst (fst r))).
Proof.
  intros Hv. unfold Insert_rv. post_step.
  eapply post_bind; [apply post_GetPosToInsert, Hv | intros r Hr].
  repeat post_step. exact Hr.
Qed.

Lemma post_PopBack v : sound v -> post (PopBack v) sound.
Proof.
  intros Hv. unfold PopBack, IsEmpty, GetSize. apply post_noexcept.
  eapply post_bind; [apply post_assert | intros u Hc; simpl in Hc].
  apply post_ret. unfold sound in *. simpl.
  destruct (Z.eqb_spec (size_ v) 0); [discriminate |].
  pose proof (wrap_le (size_ v - 1)). pose proof (wrap_range (size_ v - 1)). lia.
Qed.

Lemma post_assert_dereferenceable v pos :
  post (assert_dereferenceable v pos) (fun _ => 0 < size_ v).
Proof.
  unfold assert_dereferenceable, ptr_le, ptr_lt, begin_, end_, Get, ptr_add, GetSize.
  simpl. destruct (decide (a_ v = base pos)); [| apply post_fail].
  destruct (decide (base pos = a_ v)); [| apply post_fail].
  intros h u h' H. pose proof (post_assert _ h u h' H) as Hc.
  apply andb_true_iff in Hc as [H1 H2]. lia.
Qed.

Lemma post_Erase v pos : sound v -> post (Erase v pos) (fun r => sound (fst r)).
Proof.
  intros Hv. unfold Erase.
  eapply post_bind;
    [apply post_assert_dereferenceable | intros u Hpos; simpl in Hpos].
  destruct (ptr_diff _ _); [| apply post_fail].
  repeat post_step. unfold sound in *. simpl.
  pose proof (wrap_le (size_ v - 1)). pose proof (wrap_range (size_ v - 1)). lia.
Qed.

Lemma post_Reserve v n : sound v -> post (Reserve v n) sound.
Proof.
  intros Hv. unfold Reserve, ArrayPtr_swap, GetCapacity.
  destruct (Z.ltb_spec (capacity_ v) n); repeat post_step; [| exact Hv].
  unfold sound in *. simpl. lia.
Qed.

Lemma post_ctor_fill n value : 0 <= n -> post (ctor_fill n value) sound.
Proof. intros Hn. unfold ctor_fill. repeat post_step. unfold sound. simpl. lia. Qed.

Lemma post_ctor_init init : post (ctor_init init) sound.
Proof. unfold ctor_init. repeat post_step. unfold sound. simpl. lia. Qed.

Lemma post_ctor_copy v : sound v -> post (ctor_copy v) sound.
Proof. intros Hv. unfold ctor_copy. repeat post_step. exact Hv. Qed.

Lemma post_ctor_move v :
  sound v -> post (ctor_move v) (fun r => sound (fst r) /\ sound (snd r)).
Proof.
  intros Hv. unfold ctor_move. repeat post_step. split; [exact Hv |].
  unfold sound. simpl. lia.
Qed.

Lemma post_ctor_reserve obj :
  0 <= GetCapacityProxy obj -> post (ctor_reserve obj) sound.
Proof. intros Hn. unfold ctor_reserve. repeat post_step. unfold sound. simpl. lia. Qed.

Lemma sound_Clear v : sound v -> sound (Clear v).
Proof. unfold sound, Clear. simpl. lia. Qed.

(** *** The store *)

Lemma all_sound_insert s x v h :
  all_sound s -> sound v -> all_sound (mkState (<[x := v]> (objs s)) h).
Proof.
  intros Hs Hv y u. simpl. rewrite lookup_insert. case_decide.
  - intros [= <-]. exact Hv.
  - apply Hs.
Qed.

Lemma all_sound_mem s h : all_sound s -> all_sound (mkState (objs s) h).
Proof. intros Hs y u. simpl. apply Hs. Qed.

Lemma keeps_bind {A B} (m : state -> outcome state A) (k : A -> state -> outcome state B) :
  keeps all_sound m -> (forall a, keeps all_sound (k a)) -> keeps all_sound (bind m k).
Proof.
  intros Hm Hk s Hs. unfold bind. specialize (Hm s Hs).
  destruct (m s) as [a s1 | e s1 | f]; [apply Hk, Hm | exact Hm | exact I].
Qed.

Lemma keeps_ret {A} (a : A) : keeps all_sound (ret a).
Proof. intros s Hs. exact Hs. Qed.

Lemma keeps_get x {B} (k : SimpleVector -> state -> outcome state B) :
  (forall v, sound v -> keeps all_sound (k v)) -> keeps all_sound (bind (get_obj x) k).
Proof.
  intros Hk s Hs. unfold bind, get_obj.
  destruct (objs s !! x) as [v |] eqn:Hx; [| exact I].
  apply Hk; [eapply Hs, Hx | exact Hs].
Qed.

Lemma keeps_lift {A B} (m : heap -> outcome heap A) Q
    (k : A -> state -> outcome state B) :
  post m Q -> (forall a, Q a -> keeps all_sound (k a)) -> keeps all_sound (bind (lift m) k).
Proof.
  intros Hm Hk s Hs. unfold bind, lift.
  destruct (m (mem s)) as [a h | e h | f] eqn:Hms; [| | exact I].
  - apply Hk; [eapply Hm, Hms | apply all_sound_mem, Hs].
  - apply all_sound_mem, Hs.
Qed.

Lemma keeps_lift_end {A} (m : heap -> outcome heap A) : keeps all_sound (lift m).
Proof.
  intros s Hs. unfold lift.
  destruct (m (mem s)); [| | exact I]; apply all_sound_mem, Hs.
Qed.

Lemma keeps_put x v : sound v -> keeps all_sound (put_obj x v).
Proof. intros Hv s Hs. unfold put_obj. apply all_sound_insert; assumption. Qed.

Lemma keeps_new x v : sound v -> keeps all_sound (new_obj x v).
Proof.
  intros Hv s Hs. unfold new_obj. destruct (objs s !! x); [exact I |].
  apply all_sound_insert; assumption.
Qed.

Lemma keeps_free x : keeps all_sound (free_obj x).
Proof.
  intros s Hs y u. unfold free_obj. simpl. rewrite lookup_delete.
  case_decide; [discriminate | apply Hs].
Qed.

Lemma keeps_method this f Q :
  (forall v, sound v -> post (f v) Q) -> (forall v', Q v' -> sound v') ->
  keeps all_sound (method this f).
Proof.
  intros Hf HQ. unfold method. apply keeps_get. intros v Hv.
  eapply keeps_lift; [apply Hf, Hv | intros v' Hv'].
  apply keeps_put, HQ, Hv'.
Qed.

Lemma post_fst {S A B} (m : S -> outcome S (A * B)) (Q : A -> Prop) :
  post m (fun r => Q (fst r)) -> post (r <- m; ret (fst r)) Q.
Proof.
  intros Hm. eapply post_bind; [exact Hm | intros r Hr; apply post_ret, Hr].
Qed.

Lemma keeps_op_assign this rhs : keeps all_sound (op_assign this rhs).
Proof.
  unfold op_assign. apply keeps_get. intros l Hl. apply keeps_get. intros r Hr.
  destruct (negb _); [| apply keeps_ret].
  destruct (IsEmpty r); [apply keeps_put, sound_Clear, Hl |].
  eapply keeps_lift; [apply post_ctor_copy, Hr | intros c Hc].
  unfold swap, ArrayPtr_swap.
  apply keeps_bind; [apply keeps_put, Hc | intros _; apply keeps_lift_end].
Qed.

Lemma keeps_swap_obj this other : keeps all_sound (swap_obj this other).
Proof.
  unfold swap_obj. apply keeps_get. intros l Hl. apply keeps_get. intros o Ho.
  unfold swap, ArrayPtr_swap.
  apply keeps_bind; [apply keeps_put, Ho | intros _; apply keeps_put, Hl].
Qed.

(** Every call keeps the invariant, also when it throws. *)
Lemma keeps_exec c : keeps all_sound (exec c).
Proof.
  destruct c; cbn [exec].
  - apply keeps_new. unfold sound, ctor_default. simpl. lia.
  - eapply keeps_lift; [apply post_ctor_fill, wrap_range | intros; now apply keeps_new].
  - eapply keeps_lift; [apply post_ctor_fill, wrap_range | intros; now apply keeps_new].
  - eapply keeps_lift; [apply post_ctor_init | intros; now apply keeps_new].
  - apply keeps_get. intros o Ho.
    eapply keeps_lift; [apply post_ctor_copy, Ho | intros; now apply keeps_new].
  - apply keeps_get. intros o Ho.
    eapply keeps_lift; [apply post_ctor_move, Ho | intros r [Hd Hs]].
    apply keeps_bind; [now apply keeps_put | intros _; now apply keeps_new].
  - eapply keeps_lift;
      [apply post_ctor_reserve; simpl; apply wrap_range | intros; now apply keeps_new].
  - apply keeps_get. intros v Hv.
    apply keeps_bind; [apply keeps_lift_end | intros _; apply keeps_free].
  - apply keeps_op_assign.
  - apply (keeps_method _ _ sound); [intros v Hv; apply post_Reserve, Hv | auto].
  - apply (keeps_method _ _ sound); [intros v Hv; apply post_PushBack, Hv | auto].
  - apply (keeps_method _ _ sound); [| auto].
    intros v Hv. apply post_fst, post_PushBack_rv, Hv.
  - apply (keeps_method _ _ sound); [| auto].
    intros v Hv. apply post_fst, post_Insert, Hv.
  - apply (keeps_method _ _ sound); [| auto].
    intros v Hv. eapply post_bind; [apply post_Insert_rv, Hv |].
    intros r Hr. apply post_ret, Hr.
  - apply (keeps_method _ _ sound); [intros v Hv; apply post_PopBack, Hv | auto].
  - apply (keeps_method _ _ sound); [| auto].
    intros v Hv. apply post_fst, post_Erase, Hv.
  - apply keeps_swap_obj.
  - apply (keeps_method _ _ sound); [| auto].
    intros v Hv. apply post_ret, sound_Clear, Hv.
  - apply (keeps_method _ _ sound); [| auto].
    intros v Hv. apply post_Resize; [exact Hv | apply wrap_range].
  - apply (keeps_method _ _ sound); [| auto].
    intros v Hv. repeat post_step. exact Hv.
  - apply (keeps_method _ _ sound); [| auto].
    intros v Hv. repeat post_step. exact Hv.
Qed.

Lemma reachable_all_sound s : reachable s -> all_sound s.
Proof.
  induction 1 as [| c s s' _ IH Hex | c s e s' _ IH Hex].
  - intros x v. simpl. rewrite lookup_empty. discriminate.
  - pose proof (keeps_exec c s IH) as H. rewrite Hex in H. exact H.
  - pose proof (keeps_exec c s IH) as H. rewrite Hex in H. exact H.
Qed.

(** ** Ownership in reachable states *)

Lemma wf_frame (h h' : heap) v u :
  wf h u -> frame v h h' -> (forall b, a_ u = Some b -> a_ v <> Some b) ->
  wf h' u.
Proof.
  intros (Hs & Hmax & Hb) Hfr Hne. unfold wf. split; [exact Hs |].
  split; [exact Hmax |].
  destruct (a_ u) as [b |] eqn:Ha; [| exact Hb].
  destruct Hb as (buf & Hbuf & Hcap). exists buf.
  split; [eapply Hfr; [exact Hbuf | apply Hne; reflexivity] | exact Hcap].
Qed.

Lemma wf_live (h : heap) v b : wf h v -> a_ v = Some b -> is_Some (h !! b).
Proof. intros (_ & _ & Hb) Ha. rewrite Ha in Hb. destruct Hb as (buf & -> & _). eauto. Qed.

Lemma wf_state_mem s : wf_state s -> wf_state (mkState (objs s) (mem s)).
Proof. intros [H1 H2]. split; simpl; assumption. Qed.

(** Replacing one object by what a member function made of it. *)
Lemma wf_state_update s this v v' h' :
  wf_state s -> objs s !! this = Some v -> updates v (mem s) v' h' ->
  wf_state (mkState (<[this := v']> (objs s)) h').
Proof.
  intros [Hwf Hdis] Hx (Hwf' & Hfr & Hhandle).
  assert (Hother : forall y u b, y <> this -> objs s !! y = Some u ->
            a_ u = Some b -> a_ v' <> Some b).
  { intros y u b Hy Hu Hb Hv'.
    destruct Hhandle as [Heq | (b0 & Hb0 & Hnone)].
    - rewrite Heq in Hv'. exact (Hdis this y v u b (not_eq_sym Hy) Hx Hu Hv' Hb).
    - rewrite Hb0 in Hv'. injection Hv' as ->.
      destruct (wf_live _ _ _ (Hwf y u Hu) Hb) as [buf Hbuf]. congruence. }
  split; simpl.
  - intros y u. rewrite lookup_insert. case_decide.
    + intros [= <-]. exact Hwf'.
    + intros Hy. eapply wf_frame; [eapply Hwf, Hy | exact Hfr |].
      intros b Hb. exact (Hdis y this u v b ltac:(congruence) Hy Hx Hb).
  - intros x y vx vy b Hxy. rewrite !lookup_insert.
    repeat case_decide; subst; try congruence.
    + intros [= <-] Hy Ha Hb. exact (Hother y vy b ltac:(congruence) Hy Hb Ha).
    + intros Hx' [= <-] Ha. exact (Hother x vx b ltac:(congruence) Hx' Ha).
    + apply Hdis. exact Hxy.
Qed.

(** A new object that holds a block allocated for it. *)
Lemma wf_state_new s x buf size cap :
  wf_state s -> objs s !! x = None ->
  0 <= size <= cap -> cap <= PTRDIFF_MAX -> cap <= Z.of_nat (length buf) ->
  wf_state (mkState (<[x := mkVec (Some (fresh (dom (mem s)))) size cap]> (objs s))
                    (<[fresh (dom (mem s)) := buf]> (mem s))).
Proof.
  intros [Hwf Hdis] Hx Hs Hmax Hlen.
  assert (Hfresh : forall y u, objs s !! y = Some u ->
            a_ u <> Some (fresh (dom (mem s)))).
  { intros y u Hy Ha. destruct (wf_live _ _ _ (Hwf y u Hy) Ha) as [old Hold].
    rewrite fresh_None in Hold. discriminate. }
  split; simpl.
  - intros y u. rewrite lookup_insert. case_decide.
    + intros [= <-]. eapply wf_intro; simpl; try eassumption; try reflexivity.
      apply lookup_insert_eq.
    + intros Hy. pose proof (Hwf y u Hy) as (H1 & H2 & H3).
      unfold wf. split; [exact H1 |]. split; [exact H2 |].
      destruct (a_ u) as [b |] eqn:Ha; [| exact H3].
      destruct H3 as (old & Hold & Hcap). exists old. split; [| exact Hcap].
      rewrite lookup_insert_ne; [exact Hold |].
      intros <-. rewrite fresh_None in Hold. discriminate.
  - intros a b va vb blk Hab. rewrite !lookup_insert.
    repeat case_decide; subst; try congruence.
    + intros [= <-] Hb. simpl. intros [= <-]. apply (Hfresh b vb Hb).
    + intros Ha [= <-] Hblk. simpl. intros [= <-]. exact (Hfresh a va Ha Hblk).
    + apply Hdis. exact Hab.
Qed.

Lemma keeps_wf_method this f : method_spec f -> keeps wf_state (method this f).
Proof.
  intros Hf s Hs. unfold method, bind, get_obj.
  destruct (objs s !! this) as [v |] eqn:Hx; [| exact I].
  unfold lift. specialize (Hf v (mem s) (proj1 Hs _ _ Hx)).
  destruct (f v (mem s)) as [v' h' | e h' | f0]; [| | exact I].
  - unfold put_obj. simpl. eapply wf_state_update; eassumption.
  - subst h'. apply wf_state_mem, Hs.
Qed.

(** *** What each member function does to its object *)

Lemma updates_refl (h : heap) v : wf h v -> updates v h v h.
Proof.
  intros Hwf. split; [exact Hwf |]. split; [| left; reflexivity].
  intros b buf Hb _. exact Hb.
Qed.

Lemma updates_release_fresh (h : heap) v buf size cap :
  wf h v -> 0 <= size <= cap -> cap <= PTRDIFF_MAX ->
  cap <= Z.of_nat (length buf) ->
  updates v h (mkVec (Some (fresh (dom h))) size cap)
    (release (a_ v) (<[fresh (dom h) := buf]> h)).
Proof.
  intros Hwf Hs Hmax Hlen. split; [apply wf_release_fresh; assumption |].
  split; [apply frame_release_insert |].
  right. exists (fresh (dom h)). split; [reflexivity | apply fresh_None].
Qed.

(** [Resize] inside the capacity: the handle and the capacity stay, the
    slots between the old and the new size are reset. *)
Lemma Resize_within (h : heap) v n :
  wf h v -> 0 <= n <= capacity_ v ->
  exists h',
    Resize v n h = Ok (mkVec (a_ v) n (capacity_ v)) h' /\
    wf h' (mkVec (a_ v) n (capacity_ v)) /\
    frame v h h' /\
    elems h' (mkVec (a_ v) n (capacity_ v))
    = take (Z.to_nat n) (elems h v) ++ replicate (Z.to_nat (n - size_ v)) dflt.
Proof.
  intros Hwf Hn.
  destruct (wf_view h v Hwf) as (live & spare & Hbuf & Hel & Hsz & Hcap & Hlk & Hnull).
  pose proof Hwf as (Hs & Hmax & Hb).
  unfold Resize, GetCapacity, GetSize, begin_, Get, ptr_add. simpl.
  destruct (Z.leb_spec n (capacity_ v)); [| lia].
  destruct (Z.ltb_spec (size_ v) n) as [Hgrow | Hshrink].
  - destruct (a_ v) as [b |] eqn:Ha;
      [| destruct (Hnull eq_refl) as [-> ->]; simpl in *; lia].
    specialize (Hlk b eq_refl).
    set (k := Z.to_nat (n - size_ v)).
    assert (Hk : (k <= length spare)%nat)
      by (rewrite length_app in Hcap; lia).
    rewrite <- (take_drop k spare) in Hlk.
    exists (<[b := live ++ replicate k dflt ++ drop k spare]> h).
    assert (Hlk' : <[b := live ++ replicate k dflt ++ drop k spare]> h !! b
                   = Some ((live ++ replicate k dflt) ++ drop k spare))
      by (rewrite lookup_insert_eq, <- app_assoc; reflexivity).
    split_and!.
    + erewrite bind_Ok; [reflexivity |].
      rewrite reset_same by lia.
      replace (Z.to_nat (0 + n - (0 + size_ v))) with k by lia.
      eapply copy_init_replicate; [exact Hlk | | lia].
      rewrite length_take. lia.
    + eapply wf_intro; simpl; [reflexivity | exact Hlk' | lia | exact Hmax |].
      rewrite !length_app, length_replicate, length_drop in *. lia.
    + intros b0 buf Hb0 Hne. rewrite lookup_insert_ne by congruence. exact Hb0.
    + rewrite Hel. erewrite elems_intro; simpl; [| reflexivity | exact Hlk' |].
      * rewrite take_ge by lia. reflexivity.
      * rewrite length_app, length_replicate. lia.
  - exists h. split_and!.
    + reflexivity.
    + unfold wf. simpl. split; [lia |]. split; [exact Hmax | exact Hb].
    + intros b buf Hb0 _. exact Hb0.
    + rewrite elems_shrink by lia.
      replace (Z.to_nat (n - size_ v)) with 0%nat by lia.
      simpl. now rewrite app_nil_r.
Qed.

Lemma spec_Resize n : 0 <= n -> method_spec (fun v => Resize v n).
Proof.
  intros Hn v h Hwf. pose proof Hwf as (Hs & _).
  pose proof (elems_length h v Hwf) as Hlen.
  destruct (Z.le_gt_cases n (capacity_ v)) as [Hle | Hgt].
  - destruct (Resize_within h v n Hwf ltac:(lia)) as (h' & -> & Hwf' & Hfr & _).
    split; [exact Hwf' |]. split; [exact Hfr | left; reflexivity].
  - destruct (grants (Z.max (capacity_ v * 2) n)) eqn:Hg.
    + rewrite Resize_grow by assumption. pose proof (grants_le _ Hg).
      apply updates_release_fresh; [assumption | lia | assumption |].
      rewrite !length_app, !length_replicate. lia.
    + rewrite Resize_grow_Throw by assumption. reflexivity.
Qed.

Lemma spec_Reserve n : method_spec (fun v => Reserve v n).
Proof.
  intros v h Hwf. pose proof Hwf as (Hs & _).
  pose proof (elems_length h v Hwf) as Hlen.
  destruct (Z.le_gt_cases n (capacity_ v)) as [Hle | Hgt].
  - rewrite Reserve_enough by assumption. apply updates_refl, Hwf.
  - destruct (grants n) eqn:Hg.
    + rewrite Reserve_grow by assumption. pose proof (grants_le _ Hg).
      apply updates_release_fresh; [assumption | lia | assumption |].
      rewrite !length_app, !length_replicate. lia.
    + rewrite Reserve_Throw by assumption. reflexivity.
Qed.

(** *** Arguments by reference *)

Lemma in_place_ret a {A} (x : A) : in_place a (ret x).
Proof. intros h r h' [= _ <-]. auto. Qed.

Lemma in_place_fail a {A} f : in_place a (fail f : M A).
Proof. intros h r h'. discriminate. Qed.

Lemma in_place_bind a {A B} (m : M A) (k : A -> M B) :
  in_place a m -> (forall x, in_place a (k x)) -> in_place a (bind m k).
Proof.
  intros Hm Hk h r h2 Hrun. apply bind_inv_Ok in Hrun as (x & h1 & H1 & H2).
  destruct (Hm _ _ _ H1) as [Hm1 Hm2]. destruct (Hk x _ _ _ H2) as [Hk1 Hk2].
  split; intros b.
  - intros Hb. rewrite Hk1, Hm1 by exact Hb. reflexivity.
  - rewrite Hk2, Hm2. reflexivity.
Qed.

Lemma in_place_load a p : in_place a (load p).
Proof.
  intros h r h'. unfold load.
  destruct (slot h p); [intros [= _ <-]; auto | discriminate].
Qed.

Lemma in_place_store p x : in_place (base p) (store p x).
Proof.
  intros h r h'. unfold store.
  destruct (base p) as [b |]; [| discriminate].
  destruct (h !! b) as [buf |] eqn:Hb; [| discriminate].
  destruct (_ && _); [| discriminate].
  intros [= _ <-]. split; intros b'.
  - intros Hne. apply lookup_insert_ne. congruence.
  - destruct (decide (b' = b)) as [-> | Hne].
    + rewrite lookup_insert_eq, Hb. simpl. f_equal. apply length_insert.
    + rewrite lookup_insert_ne by congruence. reflexivity.
Qed.

Lemma in_place_range a p q : in_place a (range p q).
Proof.
  unfold range. destruct (ptr_diff q p) as [d |]; [| apply in_place_fail].
  destruct (0 <=? d); [apply in_place_ret | apply in_place_fail].
Qed.

Lemma in_place_assign_elem mv dst src :
  base src = base dst -> in_place (base dst) (assign_elem mv dst src).
Proof.
  intros Hb. unfold assign_elem.
  apply in_place_bind; [apply in_place_load | intros x].
  apply in_place_bind; [apply in_place_store | intros _].
  destruct mv; [rewrite <- Hb; apply in_place_store | apply in_place_ret].
Qed.

Lemma in_place_copy_backward_n mv n : forall last d_last,
  base last = base d_last ->
  in_place (base d_last) (copy_backward_n mv n last d_last).
Proof.
  induction n as [| n IH]; intros last d_last Hb; [apply in_place_ret |].
  cbn [copy_backward_n].
  apply in_place_bind.
  - apply (in_place_assign_elem mv (ptr_add d_last (-1)) (ptr_add last (-1))).
    exact Hb.
  - intros _. apply (IH (ptr_add last (-1)) (ptr_add d_last (-1))). exact Hb.
Qed.

Lemma in_place_copy_backward mv first last d_last :
  base last = base d_last ->
  in_place (base d_last) (copy_backward mv first last d_last).
Proof.
  intros Hb. unfold copy_backward.
  apply in_place_bind; [apply in_place_range | intros n].
  apply in_place_copy_backward_n. exact Hb.
Qed.

(** A slot that exists still exists when no block changed its length. *)
Lemma slot_same_length (h h' : heap) p :
  (forall b, length <$> (h' !! b) = length <$> (h !! b)) ->
  is_Some (slot h p) -> is_Some (slot h' p).
Proof.
  intros Hlen. unfold slot. destruct (base p) as [b |]; [| exact id].
  specialize (Hlen b).
  destruct (h !! b) as [buf |]; [| intros [? [=]]].
  destruct (h' !! b) as [buf' |]; [| discriminate].
  injection Hlen as Hlen. destruct (0 <=? off p); [| exact id].
  rewrite !lookup_lt_is_Some. lia.
Qed.

Lemma slot_frame v (h h1 : heap) p x :
  slot h p = Some x -> base p <> a_ v -> frame v h h1 -> slot h1 p = Some x.
Proof.
  unfold slot. intros Hs Hne Hfr. destruct (base p) as [b |]; [| discriminate].
  destruct (h !! b) as [buf |] eqn:Hb; [| discriminate].
  rewrite (Hfr b buf Hb ltac:(congruence)). exact Hs.
Qed.

Lemma store_Ok_slot p x (h : heap) :
  is_Some (slot h p) -> exists h', store p x h = Ok tt h'.
Proof.
  unfold slot, store. destruct (base p) as [b |]; [| intros [? [=]]].
  destruct (h !! b) as [buf |]; [| intros [? [=]]].
  destruct (Z.leb_spec 0 (off p)); [| intros [? [=]]].
  intros Hs. apply lookup_lt_is_Some in Hs.
  destruct (Z.ltb_spec (off p) (Z.of_nat (length buf))); [| lia].
  simpl. eauto.
Qed.

Lemma store_store {A} p x y (k : unit -> M A) (h : heap) :
  bind (store p x) (fun _ => bind (store p y) k) h = bind (store p y) k h.
Proof.
  unfold bind, store. destruct (base p) as [b |]; [| reflexivity].
  destruct (h !! b) as [buf |] eqn:Hb; [| reflexivity].
  destruct ((0 <=? off p) && (off p <? Z.of_nat (length buf))) eqn:Hin;
    [| reflexivity].
  rewrite lookup_insert_eq, length_insert, Hin, insert_insert_eq,
    list_insert_insert_eq.
  reflexivity.
Qed.

Lemma read_slot r x (h : heap) :
  read r h = Ok x h <->
  match r with Temp y => y = x | RefTo p => slot h p = Some x end.
Proof.
  destruct r as [y | p]; simpl.
  - unfold ret. split; [intros [= ->]; reflexivity | intros ->; reflexivity].
  - unfold load. destruct (slot h p) as [z |].
    + split; [intros [= ->]; reflexivity | intros [= ->]; reflexivity].
    + split; discriminate.
Qed.

Lemma denotes_usable (h : heap) v r x :
  denotes h v r x -> usable h v r /\ read r h = Ok x h.
Proof.
  destruct r as [y | p]; simpl.
  - intros ->. auto.
  - intros [Hs Hne]. split; [split; [eauto | congruence] |].
    unfold load. rewrite Hs. reflexivity.
Qed.

(** **** PushBack *)

Lemma PushBack_Temp_eq v x (h : heap) :
  PushBack v (Temp x) h
  = match ResizeForOneElement v h with
    | Ok v1 h1 => (store (ptr_add (end_ v1) (-1)) x;; ret v1) h1
    | Throw e h1 => Throw e h1
    | Fault f => Fault f
    end.
Proof. reflexivity. Qed.

Lemma PushBack_RefTo_eq v p (h : heap) :
  PushBack v (RefTo p) h
  = match ResizeForOneElement v h with
    | Ok v1 h1 =>
        match slot h1 p with
        | Some x => (store (ptr_add (end_ v1) (-1)) x;; ret v1) h1
        | None => Fault UndefinedBehaviour
        end
    | Throw e h1 => Throw e h1
    | Fault f => Fault f
    end.
Proof.
  unfold PushBack, assign_from, read, load, bind.
  destruct (ResizeForOneElement v h) as [v1 h1 | |]; try reflexivity.
  destruct (slot h1 p); reflexivity.
Qed.

(** Whatever the item is bound to, the call reads it at a slot that is
    gone, or does what it does on the value it reads. *)
Lemma PushBack_cases v r (h : heap) :
  PushBack v r h = Fault UndefinedBehaviour \/
  exists x, PushBack v r h = PushBack v (Temp x) h.
Proof.
  destruct r as [x | p]; [right; eauto |].
  rewrite PushBack_RefTo_eq.
  destruct (ResizeForOneElement v h) as [v1 h1 | e h1 | f] eqn:Hroe.
  - destruct (slot h1 p) as [x |]; [| left; reflexivity].
    right. exists x. rewrite PushBack_Temp_eq, Hroe. reflexivity.
  - right. exists dflt. rewrite PushBack_Temp_eq, Hroe. reflexivity.
  - right. exists dflt. rewrite PushBack_Temp_eq, Hroe. reflexivity.
Qed.

(** The slot an argument is bound to is still there once the buffer is
    ready for one more element. *)
Lemma ResizeForOneElement_slot (h : heap) v p x v1 h1 :
  wf h v -> usable h v (RefTo p) -> slot h p = Some x ->
  ResizeForOneElement v h = Ok v1 h1 -> slot h1 p = Some x.
Proof.
  intros Hwf [_ Hown] Hslot Hrun.
  pose proof (ResizeForOneElement_post h v Hwf) as Hroe. rewrite Hrun in Hroe.
  destruct Hroe as (b1 & s & spare & _ & _ & _ & _ & _ & _ & Hsame & _ & Hfr).
  destruct (decide (base p = a_ v)) as [Heq | Hne].
  - destruct (Hsame (Hown Heq)) as [_ ->]. exact Hslot.
  - eapply slot_frame; eassumption.
Qed.

(** A usable item is appended as the value it holds at the call. *)
Lemma PushBack_usable (h : heap) v r x :
  wf h v -> usable h v r -> read r h = Ok x h ->
  PushBack v r h = PushBack v (Temp x) h.
Proof.
  intros Hwf Hu Hrd. apply read_slot in Hrd. destruct r as [y | p].
  - subst y. reflexivity.
  - rewrite PushBack_RefTo_eq, PushBack_Temp_eq.
    destruct (ResizeForOneElement v h) as [v1 h1 | |] eqn:Hrun; try reflexivity.
    rewrite (ResizeForOneElement_slot h v p x v1 h1 Hwf Hu Hrd Hrun).
    reflexivity.
Qed.

(** An item bound to a slot of the container's own block is read after
    that block was released when the buffer has to grow. *)
Lemma PushBack_own_slot_full (h : heap) v p :
  wf h v -> is_Some (slot h p) -> base p = a_ v ->
  size_ v = capacity_ v -> grants (grown_capacity v) = true ->
  PushBack v (RefTo p) h = Fault UndefinedBehaviour.
Proof.
  intros Hwf Hsome Hbase Hfull Hg. pose proof Hwf as (Hs & Hmax & _).
  rewrite PTRDIFF_MAX_val in Hmax.
  rewrite PushBack_RefTo_eq. unfold ResizeForOneElement, GetSize, GetCapacity.
  unfold grown_capacity in Hg. rewrite Hfull, Z.eqb_refl in *.
  rewrite wrap_small by (rewrite SIZE_MAX_val; lia).
  rewrite Resize_grow by (try assumption; lia).
  unfold slot in *. rewrite Hbase in *.
  destruct (a_ v) as [b |]; [| destruct Hsome as [? [=]]].
  simpl. rewrite lookup_delete_eq. reflexivity.
Qed.

(** **** Insert *)

Lemma Insert_Temp_eq v pos x (h : heap) :
  Insert v pos (Temp x) h
  = match (assert_insertable v pos;; GetPosToInsert v pos) h with
    | Ok r0 h1 => (store (snd r0) x;; ret r0) h1
    | Throw e h1 => Throw e h1
    | Fault f => Fault f
    end.
Proof.
  unfold Insert, bind. destruct (assert_insertable v pos h); reflexivity.
Qed.

Lemma Insert_RefTo_eq v pos p (h : heap) :
  Insert v pos (RefTo p) h
  = match (assert_insertable v pos;; GetPosToInsert v pos) h with
    | Ok r0 h1 =>
        match slot h1 p with
        | Some x => (store (snd r0) x;; ret r0) h1
        | None => Fault UndefinedBehaviour
        end
    | Throw e h1 => Throw e h1
    | Fault f => Fault f
    end.
Proof.
  unfold Insert, assign_from, read, load, bind.
  destruct (assert_insertable v pos h); try reflexivity.
  destruct (GetPosToInsert v pos s) as [r0 h1 | |]; try reflexivity.
  destruct (slot h1 p); reflexivity.
Qed.

Lemma Insert_cases v pos r (h : heap) :
  Insert v pos r h = Fault UndefinedBehaviour \/
  exists x, Insert v pos r h = Insert v pos (Temp x) h.
Proof.
  destruct r as [x | p]; [right; eauto |].
  rewrite Insert_RefTo_eq.
  destruct ((assert_insertable v pos;; GetPosToInsert v pos) h)
    as [r0 h1 | e h1 | f] eqn:Hrun.
  - destruct (slot h1 p) as [x |]; [| left; reflexivity].
    right. exists x. rewrite Insert_Temp_eq, Hrun. reflexivity.
  - right. exists dflt. rewrite Insert_Temp_eq, Hrun. reflexivity.
  - right. exists dflt. rewrite Insert_Temp_eq, Hrun. reflexivity.
Qed.

(** Making room for the new element leaves the other blocks alone, and is
    done in place when there is spare capacity. *)
Lemma GetPosToInsert_frame (h : heap) v pos r0 h1 :
  wf h v -> GetPosToInsert v pos h = Ok r0 h1 ->
  frame v h h1 /\
  (size_ v < capacity_ v ->
   forall p, is_Some (slot h p) -> is_Some (slot h1 p)).
Proof.
  intros Hwf Hrun. pose proof Hwf as (Hs & _).
  pose proof (ResizeForOneElement_post h v Hwf) as Hroe.
  unfold GetPosToInsert in Hrun.
  destruct (ptr_diff pos (cbegin v)) as [d |]; [| discriminate].
  apply bind_inv_Ok in Hrun as (v1 & h0 & Hres & Hrun).
  rewrite Hres in Hroe.
  destruct Hroe as (b1 & s & spare & Ha1 & _ & _ & _ & _ & _ & Hsame & Hfresh & Hfr).
  apply bind_inv_Ok in Hrun as (u & h2 & Hcb & [= <- <-]).
  assert (Hin : (forall b, a_ v1 <> Some b -> h2 !! b = h0 !! b) /\
                (forall b, length <$> (h2 !! b) = length <$> (h0 !! b))).
  { revert Hcb. destruct (1 <? GetSize v1).
    - apply (in_place_copy_backward true _ (ptr_add (end_ v1) (-1)) (end_ v1)).
      reflexivity.
    - apply in_place_ret. }
  destruct Hin as [Hother Hlen]. split.
  - intros b buf Hb Hne. rewrite Hother; [apply Hfr; assumption |].
    rewrite Ha1. intros [= ->].
    destruct (Z.eq_dec (size_ v) (capacity_ v)) as [Heq | Hneq].
    + rewrite (Hfresh Heq), fresh_None in Hb. discriminate.
    + destruct (Hsame ltac:(lia)) as [Hav _]. congruence.
  - intros Hlt p Hp. destruct (Hsame Hlt) as [_ ->].
    eapply slot_same_length; eassumption.
Qed.

(** A usable value is read after the shift; when it is not bound to a slot
    of the container's own block, what is read is what it held at the
    call. *)
Lemma Insert_usable (h : heap) v pos r :
  wf h v -> usable h v r ->
  exists y, Insert v pos r h = Insert v pos (Temp y) h /\
            forall x, denotes h v r x -> y = x.
Proof.
  intros Hwf Hu. destruct r as [y | p].
  - exists y. split; [reflexivity |]. simpl. auto.
  - destruct Hu as [[y0 Hy0] Hown].
    rewrite Insert_RefTo_eq. unfold bind at 1.
    destruct (assert_insertable v pos h) as [u h0 | e h0 | f] eqn:Has.
    2,3: exists y0; rewrite Insert_Temp_eq; unfold bind; rewrite Has;
         split; [reflexivity |]; intros x [Hx _]; congruence.
    assert (h0 = h) as ->.
    { revert Has. unfold assert_insertable.
      destruct (ptr_le _ _) as [c1 |]; [| discriminate].
      destruct (ptr_le _ _) as [c2 |]; [| discriminate].
      unfold assert. destruct (c1 && c2); [intros [= _ <-]; reflexivity |].
      discriminate. }
    destruct (GetPosToInsert v pos h) as [r0 h1 | e h1 | f] eqn:Hgp.
    2,3: exists y0; rewrite Insert_Temp_eq; unfold bind; rewrite Has, Hgp;
         split; [reflexivity |]; intros x [Hx _]; congruence.
    destruct (GetPosToInsert_frame h v pos r0 h1 Hwf Hgp) as [Hfr Hin].
    assert (HT : forall y, Insert v pos (Temp y) h = (store (snd r0) y;; ret r0) h1).
    { intros y. rewrite Insert_Temp_eq. unfold bind at 1. rewrite Has, Hgp.
      reflexivity. }
    destruct (decide (base p = a_ v)) as [Heq | Hne].
    + destruct (Hin (Hown Heq) p ltac:(eauto)) as [y Hy]. rewrite Hy.
      exists y. rewrite HT.
      split; [reflexivity |]. intros x [_ Hx]. contradiction.
    + rewrite (slot_frame v h h1 p y0 Hy0 Hne Hfr).
      exists y0. rewrite HT.
      split; [reflexivity |]. intros x [Hx _]. congruence.
Qed.

Lemma spec_PushBack_Temp x : method_spec (fun v => PushBack v (Temp x)).
Proof.
  intros v h Hwf. pose proof (PushBack_post h v x Hwf) as H.
  pose proof Hwf as (Hs & _).
  destruct (PushBack v (Temp x) h) as [v' h' | e h' | f]; [| tauto | exact I].
  destruct H as (Hwf' & _ & _ & _ & Hsame & Hfr & Hnew).
  split; [exact Hwf' |]. split; [exact Hfr |].
  destruct (Z.eq_dec (size_ v) (capacity_ v)) as [Heq | Hne].
  - right. exists (fresh (dom h)). split; [apply Hnew, Heq | apply fresh_None].
  - left. apply Hsame. lia.
Qed.

Lemma spec_PushBack item : method_spec (fun v => PushBack v item).
Proof.
  intros v h Hwf. destruct (PushBack_cases v item h) as [-> | [x ->]];
    [exact I | apply spec_PushBack_Temp, Hwf].
Qed.

Lemma method_spec_ext (f g : SimpleVector -> heap -> outcome heap SimpleVector) :
  (forall v h, f v h = g v h) -> method_spec g -> method_spec f.
Proof. intros Heq Hg v h Hwf. rewrite Heq. apply Hg, Hwf. Qed.

Lemma bind_ret_id {S A} (m : S -> outcome S A) s : bind m ret s = m s.
Proof. unfold bind, ret. destruct (m s); reflexivity. Qed.

(** **** The rvalue overloads *)

Lemma store_slot p x (h h' : heap) :
  store p x h = Ok tt h' -> is_Some (slot h p) /\ slot h' p = Some x.
Proof.
  unfold store, slot. destruct (base p) as [b |]; [| discriminate].
  destruct (h !! b) as [buf |]; [| discriminate].
  destruct (Z.leb_spec 0 (off p)); [| discriminate].
  destruct (Z.ltb_spec (off p) (Z.of_nat (length buf))); [| discriminate].
  simpl. intros [= <-]. rewrite lookup_insert_eq.
  split; [apply lookup_lt_is_Some; lia | apply list_lookup_insert_eq; lia].
Qed.

Lemma slot_store_other p q x y (h h' : heap) :
  store q y h = Ok tt h' -> base p <> base q -> slot h p = Some x ->
  slot h' p = Some x.
Proof.
  intros Hst Hne Hs. destruct (in_place_store q y h tt h' Hst) as [Hother _].
  unfold slot in *. destruct (base p) as [b |]; [| discriminate].
  rewrite Hother by congruence. exact Hs.
Qed.

Lemma slot_store_valid p q y (h h' : heap) :
  store q y h = Ok tt h' -> is_Some (slot h p) -> is_Some (slot h' p).
Proof.
  intros Hst. apply slot_same_length.
  exact (proj2 (in_place_store q y h tt h' Hst)).
Qed.

(** [std::exchange] on the slot, seen from outside: the item is read once
    the slot holds its moved-from old value, the slot takes the item, and
    the item is left moved-from. *)
Lemma exchange_from_eq dst r old h2 (h : heap) :
  slot h dst = Some old -> store dst (moved old) h = Ok tt h2 ->
  exchange_from dst r h
  = match read r h2 with
    | Ok x _ => (store dst x;; write r (moved x)) h
    | Throw e _ => Throw e h2
    | Fault f => Fault f
    end.
Proof.
  intros Hd Hst. unfold exchange_from. unfold bind at 1. unfold load.
  rewrite Hd. erewrite bind_Ok by exact Hst.
  destruct (read r h2) as [x h3 | e h3 | f] eqn:Hrd.
  - assert (h3 = h2) as ->.
    { destruct r; simpl in Hrd; [injection Hrd as _ <-; reflexivity |].
      unfold load in Hrd. destruct (slot h2 p); [| discriminate].
      injection Hrd as _ <-. reflexivity. }
    erewrite bind_Ok by exact Hrd.
    rewrite <- (store_store dst (moved old) x (fun _ => write r (moved x)) h).
    erewrite (bind_Ok _ _ h) by exact Hst.
    reflexivity.
  - exfalso. exact (throws_read r (fun _ => False) h2 e h3 Hrd).
  - unfold bind. rewrite Hrd. reflexivity.
Qed.

Lemma exchange_from_cases dst r (h : heap) :
  exchange_from dst r h = Fault UndefinedBehaviour \/
  exists x, exchange_from dst r h = (store dst x;; write r (moved x)) h.
Proof.
  destruct (slot h dst) as [old |] eqn:Hd.
  - destruct (store_Ok_slot dst (moved old) h ltac:(eauto)) as [h2 Hst].
    rewrite (exchange_from_eq dst r old h2 h Hd Hst).
    destruct (read r h2) as [x h3 | e h3 | f] eqn:Hrd.
    + right. eauto.
    + exfalso. exact (throws_read r (fun _ => False) h2 e h3 Hrd).
    + left. destruct r; simpl in Hrd; [discriminate |].
      unfold load in Hrd. destruct (slot h2 p); [discriminate |].
      injection Hrd as <-. reflexivity.
  - left. unfold exchange_from, bind, load. rewrite Hd. reflexivity.
Qed.

(** When both the slot and the item are there, the exchange returns. *)
Lemma exchange_from_Ok dst r (h : heap) :
  is_Some (slot h dst) -> (forall p, r = RefTo p -> is_Some (slot h p)) ->
  exists r' h', exchange_from dst r h = Ok r' h'.
Proof.
  intros [old Hd] Hr.
  destruct (store_Ok_slot dst (moved old) h ltac:(eauto)) as [h2 Hst].
  rewrite (exchange_from_eq dst r old h2 h Hd Hst).
  assert (Hrd : exists x, read r h2 = Ok x h2).
  { destruct r as [y | p]; [eexists; reflexivity |].
    destruct (slot_store_valid p dst _ h h2 Hst (Hr p eq_refl)) as [x Hx].
    exists x. simpl. unfold load. rewrite Hx. reflexivity. }
  destruct Hrd as [x ->].
  destruct (store_Ok_slot dst x h ltac:(eauto)) as [h3 Hst3].
  erewrite bind_Ok by exact Hst3.
  destruct r as [y | p]; [simpl; unfold ret; eauto |].
  destruct (store_Ok_slot p (moved x) h3
              (slot_store_valid p dst _ h h3 Hst3 (Hr p eq_refl))) as [h4 Hst4].
  cbn [write]. erewrite bind_Ok by exact Hst4. unfold ret. eauto.
Qed.

(** An item outside the slot's block is moved into the slot as it was at
    the call. *)
Lemma exchange_from_outside dst r x (h : heap) :
  is_Some (slot h dst) -> read r h = Ok x h ->
  (forall p, r = RefTo p -> base p <> base dst) ->
  exchange_from dst r h = (store dst x;; write r (moved x)) h.
Proof.
  intros [old Hd] Hrd Hout.
  destruct (store_Ok_slot dst (moved old) h ltac:(eauto)) as [h2 Hst].
  rewrite (exchange_from_eq dst r old h2 h Hd Hst).
  apply read_slot in Hrd.
  assert (Hrd2 : read r h2 = Ok x h2).
  { apply read_slot. destruct r as [y | p]; [exact Hrd |].
    eapply slot_store_other; [exact Hst | exact (Hout p eq_refl) | exact Hrd]. }
  rewrite Hrd2. reflexivity.
Qed.

Lemma PushBack_rv_cases v r (h : heap) :
  PushBack_rv v r h = Fault UndefinedBehaviour \/
  exists x,
    PushBack_rv v r h
    = (v' <- PushBack v (Temp x); r' <- write r (moved x); ret (v', r')) h.
Proof.
  destruct (ResizeForOneElement v h) as [v1 h1 | e h1 | f] eqn:Hroe.
  - destruct (exchange_from_cases (ptr_add (end_ v1) (-1)) r h1) as [Hf | [x Hx]].
    + left. unfold PushBack_rv, bind. rewrite Hroe, Hf. reflexivity.
    + right. exists x. unfold PushBack_rv, PushBack, bind.
      rewrite Hroe, Hx, assign_from_Temp. unfold bind.
      destruct (store _ x h1) as [[] h2 | |]; try reflexivity;
        destruct (write r (moved x) h2); reflexivity.
  - right. exists dflt. unfold PushBack_rv, PushBack, bind. rewrite Hroe.
    reflexivity.
  - right. exists dflt. unfold PushBack_rv, PushBack, bind. rewrite Hroe.
    reflexivity.
Qed.

Lemma Insert_rv_cases v pos r (h : heap) :
  Insert_rv v pos r h = Fault UndefinedBehaviour \/
  exists x,
    Insert_rv v pos r h
    = (q <- Insert v pos (Temp x); r' <- write r (moved x); ret (q, r')) h.
Proof.
  destruct (assert_insertable v pos h) as [u h0 | e h0 | f] eqn:Has.
  2,3: right; exists dflt; unfold Insert_rv, Insert, bind; rewrite Has;
       reflexivity.
  destruct (GetPosToInsert v pos h0) as [r0 h1 | e h1 | f] eqn:Hgp.
  2,3: right; exists dflt; unfold Insert_rv, Insert, bind; rewrite Has, Hgp;
       reflexivity.
  destruct (exchange_from_cases (snd r0) r h1) as [Hf | [x Hx]].
  - left. unfold Insert_rv, bind. rewrite Has, Hgp, Hf. reflexivity.
  - right. exists x. unfold Insert_rv, Insert, bind.
    rewrite Has, Hgp, Hx, assign_from_Temp. unfold bind.
    destruct (store _ x h1) as [[] h2 | |]; try reflexivity;
      destruct (write r (moved x) h2); reflexivity.
Qed.

(** A write through a reference changes no block's length. *)
Lemma wf_same_length (h h' : heap) v :
  (forall b, length <$> (h' !! b) = length <$> (h !! b)) -> wf h v -> wf h' v.
Proof.
  intros Hlen (Hs & Hmax & Hb). unfold wf. split; [exact Hs |].
  split; [exact Hmax |]. destruct (a_ v) as [b |]; [| exact Hb].
  destruct Hb as (buf & Hbuf & Hcap). specialize (Hlen b). rewrite Hbuf in Hlen.
  destruct (h' !! b) as [buf' |]; [| discriminate].
  injection Hlen as Hlen. exists buf'. split; [reflexivity | lia].
Qed.

Lemma write_same_length r y (h : heap) r' h' :
  write r y h = Ok r' h' ->
  forall b, length <$> (h' !! b) = length <$> (h !! b).
Proof.
  destruct r as [x | p]; simpl.
  - intros [= _ <-]. reflexivity.
  - intros Hrun. apply bind_inv_Ok in Hrun as ([] & h1 & Hst & [= _ <-]).
    exact (proj2 (in_place_store p y h tt h1 Hst)).
Qed.

Lemma wf_state_write s r y r' h' :
  wf_state s -> write r y (mem s) = Ok r' h' -> wf_state (mkState (objs s) h').
Proof.
  intros [Hwf Hdis] Hw. split; simpl; [| exact Hdis].
  intros x v Hx. eapply wf_same_length; [| exact (Hwf x v Hx)].
  eapply write_same_length, Hw.
Qed.

Lemma then_writes_PushBack_rv r :
  then_writes (fun v => q <- PushBack_rv v r; ret (fst q))
              (fun x v => PushBack v (Temp x)) r.
Proof.
  intros v h. destruct (PushBack_rv_cases v r h) as [Hf | [x Hx]].
  - left. unfold bind. rewrite Hf. reflexivity.
  - right. exists x. unfold bind at 1. rewrite Hx. unfold bind.
    destruct (PushBack v (Temp x) h) as [v1 h1 | |]; try reflexivity.
    destruct (write r (moved x) h1); reflexivity.
Qed.

Lemma then_writes_Insert_rv pos r :
  then_writes (fun v => q <- Insert_rv v pos r; ret (fst (fst q)))
              (fun x v => q <- Insert v pos (Temp x); ret (fst q)) r.
Proof.
  intros v h. destruct (Insert_rv_cases v pos r h) as [Hf | [x Hx]].
  - left. unfold bind. rewrite Hf. reflexivity.
  - right. exists x. unfold bind at 1. rewrite Hx. unfold bind.
    destruct (Insert v pos (Temp x) h) as [q h1 | |]; try reflexivity.
    unfold ret. destruct (write r (moved x) h1); reflexivity.
Qed.

Lemma keeps_wf_then_writes this f g r :
  then_writes f g r -> (forall x, method_spec (g x)) ->
  keeps wf_state (method this f).
Proof.
  intros Hf Hg s Hs. unfold method, bind, get_obj.
  destruct (objs s !! this) as [v |] eqn:Hx; [| exact I].
  unfold lift. destruct (Hf v (mem s)) as [-> | [x ->]]; [exact I |].
  pose proof (Hg x v (mem s) (proj1 Hs _ _ Hx)) as Hsp. unfold bind.
  destruct (g x v (mem s)) as [v1 h1 | e h1 | f0]; [| | exact I].
  - destruct (write r (moved x) h1) as [r' h2 | e h2 | f0] eqn:Hw; simpl.
    + exact (wf_state_write (mkState (<[this := v1]> (objs s)) h1) r
               (moved x) r' h2 (wf_state_update _ _ _ _ _ Hs Hx Hsp) Hw).
    + exfalso. exact (throws_write r _ (fun _ => False) h1 e h2 Hw).
    + exact I.
  - subst h1. apply wf_state_mem, Hs.
Qed.

Lemma assert_insertable_cases v pos (h : heap) :
  (base pos = a_ v /\ 0 <= off pos <= size_ v) \/
  exists f, assert_insertable v pos h = Fault f.
Proof.
  unfold assert_insertable, ptr_le, begin_, end_, Get, ptr_add, GetSize. simpl.
  destruct (decide (a_ v = base pos)) as [Heq | Hne]; [| right; eauto].
  destruct (decide (base pos = a_ v)); [| congruence].
  destruct (Z.leb_spec 0 (off pos)); [| right; eauto].
  destruct (Z.leb_spec (off pos) (0 + size_ v)); [| right; eauto].
  left. split; [congruence | lia].
Qed.

Lemma assert_dereferenceable_cases v pos (h : heap) :
  (base pos = a_ v /\ 0 <= off pos < size_ v) \/
  exists f, assert_dereferenceable v pos h = Fault f.
Proof.
  unfold assert_dereferenceable, ptr_le, ptr_lt, begin_, end_, Get, ptr_add, GetSize.
  simpl.
  destruct (decide (a_ v = base pos)) as [Heq | Hne]; [| right; eauto].
  destruct (decide (base pos = a_ v)); [| congruence].
  destruct (Z.leb_spec 0 (off pos)); [| right; eauto].
  destruct (Z.ltb_spec (off pos) (0 + size_ v)); [| right; eauto].
  left. split; [congruence | lia].
Qed.

Lemma spec_Insert_Temp pos value :
  method_spec (fun v => r <- Insert v pos (Temp value); ret (fst r)).
Proof.
  intros v h Hwf. pose proof Hwf as (Hs & _).
  destruct (assert_insertable_cases v pos h) as [[Hbase Hoff] | [f Hf]].
  - pose proof (Insert_post h v pos value Hwf Hbase Hoff) as H. unfold bind.
    destruct (Insert v pos (Temp value) h) as [[v' p] h' | e h' | f];
      [| tauto | exact I].
    destruct H as (Hwf' & _ & _ & _ & _ & _ & Hsame & Hfr & Hnew). simpl.
    split; [exact Hwf' |]. split; [exact Hfr |].
    destruct (Z.eq_dec (size_ v) (capacity_ v)) as [Heq | Hne].
    + right. exists (fresh (dom h)). split; [apply Hnew, Heq | apply fresh_None].
    + left. apply Hsame. lia.
  - unfold Insert, bind. rewrite Hf. exact I.
Qed.

Lemma spec_Insert pos value :
  method_spec (fun v => r <- Insert v pos value; ret (fst r)).
Proof.
  intros v h Hwf. unfold bind.
  destruct (Insert_cases v pos value h) as [-> | [x ->]]; [exact I |].
  apply (spec_Insert_Temp pos x v h Hwf).
Qed.

Lemma spec_Erase pos : method_spec (fun v => r <- Erase v pos; ret (fst r)).
Proof.
  intros v h Hwf.
  destruct (assert_dereferenceable_cases v pos h) as [[Hbase Hoff] | [f Hf]].
  - destruct (Erase_post h v pos Hwf Hbase Hoff) as (h' & Her & Hwf' & _ & Hfr).
    unfold bind. rewrite Her. simpl.
    split; [exact Hwf' |]. split; [exact Hfr | left; reflexivity].
  - unfold Erase, bind. rewrite Hf. exact I.
Qed.

Lemma wf_shrink (h : heap) v n :
  wf h v -> 0 <= n <= size_ v -> wf h (mkVec (a_ v) n (capacity_ v)).
Proof.
  intros (Hs & Hmax & Hb) Hn. unfold wf. simpl.
  split; [lia |]. split; [exact Hmax | exact Hb].
Qed.

Lemma spec_PopBack : method_spec PopBack.
Proof.
  intros v h Hwf. pose proof Hwf as (Hs & _).
  destruct (Z.eq_dec (size_ v) 0) as [Hz | Hnz].
  - unfold PopBack, noexcept, bind, IsEmpty, GetSize. rewrite Hz. exact I.
  - rewrite PopBack_Ok by (try assumption; lia).
    split; [apply wf_shrink; [exact Hwf | lia] |].
    split; [| left; reflexivity]. intros b buf Hb _. exact Hb.
Qed.

Lemma spec_Clear : method_spec (fun v => ret (Clear v)).
Proof.
  intros v h Hwf. pose proof Hwf as (Hs & _). unfold ret, Clear.
  split; [apply wf_shrink; [exact Hwf | lia] |].
  split; [| left; reflexivity]. intros b buf Hb _. exact Hb.
Qed.

Lemma spec_index i : method_spec (fun v => _ <- index v i; ret v).
Proof.
  intros v h Hwf. unfold index, noexcept, bind, assert, ret, fail.
  destruct (i <? GetSize v); [apply updates_refl, Hwf | exact I].
Qed.

Lemma spec_At i : method_spec (fun v => _ <- At v i; ret v).
Proof.
  intros v h Hwf. unfold bind. rewrite At_eq.
  destruct (size_ v <=? i); [reflexivity | apply updates_refl, Hwf].
Qed.

(** *** Constructors, destructor, assignment and swap on the store *)

Lemma ctor_fill_eq (h : heap) n value :
  0 <= n ->
  ctor_fill n value h
  = if grants n
    then Ok (mkVec (Some (fresh (dom h))) n n)
            (<[fresh (dom h) := replicate (Z.to_nat n) value]> h)
    else Throw BadAlloc h.
Proof.
  intros Hn. unfold ctor_fill. destruct (grants n) eqn:Hg.
  - erewrite bind_Ok by (apply ArrayPtr_new_Ok; exact Hg).
    unfold Get, ptr_add. simpl.
    erewrite bind_Ok; [reflexivity |].
    rewrite fill_same by lia. replace (0 + n - 0) with n by lia.
    rewrite (copy_init_replicate _ (fresh (dom h)) []
               (replicate (Z.to_nat n) dflt) [] (Z.to_nat n) value 0);
      [| rewrite lookup_insert_eq, app_nil_r; reflexivity
       | apply length_replicate | reflexivity].
    rewrite insert_insert_eq, app_nil_r. reflexivity.
  - apply bind_Throw, ArrayPtr_new_Throw, Hg.
Qed.

Lemma ctor_reserve_eq (h : heap) obj :
  ctor_reserve obj h
  = if grants (GetCapacityProxy obj)
    then Ok (mkVec (Some (fresh (dom h))) 0 (GetCapacityProxy obj))
            (<[fresh (dom h) := replicate (Z.to_nat (GetCapacityProxy obj)) dflt]> h)
    else Throw BadAlloc h.
Proof.
  unfold ctor_reserve. destruct (grants (GetCapacityProxy obj)) eqn:Hg.
  - erewrite bind_Ok by (apply ArrayPtr_new_Ok; exact Hg). reflexivity.
  - apply bind_Throw, ArrayPtr_new_Throw, Hg.
Qed.

(** Adding an object whose block no other object holds. *)
Lemma wf_state_add s x d :
  wf_state s -> objs s !! x = None -> wf (mem s) d ->
  (forall y u b, objs s !! y = Some u -> a_ u = Some b -> a_ d <> Some b) ->
  wf_state (mkState (<[x := d]> (objs s)) (mem s)).
Proof.
  intros [Hwf Hdis] Hx Hd Hnew. split; simpl.
  - intros y u. rewrite lookup_insert. case_decide.
    + intros [= <-]. exact Hd.
    + apply Hwf.
  - intros a b va vb blk Hab. rewrite !lookup_insert.
    repeat case_decide; subst; try congruence.
    + intros [= <-] Hb Ha Hb'. exact (Hnew b vb blk Hb Hb' Ha).
    + intros Ha [= <-] Hblk. exact (Hnew a va blk Ha Hblk).
    + apply Hdis. exact Hab.
Qed.

(** A constructor that allocates one block for the new object. *)
Lemma construct_wf_state x (m : heap -> outcome heap SimpleVector) s :
  wf_state s ->
  match m (mem s) with
  | Ok v h' =>
      exists buf, v = mkVec (Some (fresh (dom (mem s)))) (size_ v) (capacity_ v) /\
                  h' = <[fresh (dom (mem s)) := buf]> (mem s) /\
                  0 <= size_ v <= capacity_ v /\ capacity_ v <= PTRDIFF_MAX /\
                  capacity_ v <= Z.of_nat (length buf)
  | Throw _ h' => h' = mem s
  | Fault _ => True
  end ->
  match (v <- lift m; new_obj x v) s with
  | Ok _ s' => wf_state s'
  | Throw _ s' => wf_state s'
  | Fault _ => True
  end.
Proof.
  intros Hs Hm. unfold bind, lift.
  destruct (m (mem s)) as [v h' | e h' | f]; [| | exact I].
  - destruct Hm as (buf & Hv & -> & Hsz & Hmax & Hlen).
    unfold new_obj. simpl. destruct (objs s !! x) eqn:Hx; [exact I |].
    rewrite Hv. apply wf_state_new; assumption.
  - subst h'. apply wf_state_mem, Hs.
Qed.

Lemma keeps_wf_New x : keeps wf_state (new_obj x ctor_default).
Proof.
  intros s Hs. unfold new_obj. destruct (objs s !! x) eqn:Hx; [exact I |].
  apply (wf_state_add s x ctor_default Hs Hx (wf_ctor_default _)).
  intros y u b _ _. discriminate.
Qed.

Lemma keeps_wf_NewFill x n value :
  0 <= n -> keeps wf_state (v <- lift (ctor_fill n value); new_obj x v).
Proof.
  intros Hn s Hs. apply construct_wf_state; [exact Hs |].
  rewrite ctor_fill_eq by exact Hn. destruct (grants n) eqn:Hg; [| reflexivity].
  eexists. split; [reflexivity |]. split; [reflexivity |]. simpl.
  pose proof (grants_le _ Hg). rewrite length_replicate. lia.
Qed.

Lemma keeps_wf_NewInit x init :
  keeps wf_state (v <- lift (ctor_init init); new_obj x v).
Proof.
  intros s Hs. apply construct_wf_state; [exact Hs |].
  rewrite ctor_init_eq. destruct (grants _) eqn:Hg; [| reflexivity].
  eexists. split; [reflexivity |]. split; [reflexivity |]. simpl.
  pose proof (grants_le _ Hg). lia.
Qed.

Lemma keeps_wf_NewReserve x n :
  0 <= n ->
  keeps wf_state (v <- lift (ctor_reserve (ReserveObj n)); new_obj x v).
Proof.
  intros Hn s Hs. apply construct_wf_state; [exact Hs |].
  rewrite ctor_reserve_eq. simpl. destruct (grants n) eqn:Hg; [| reflexivity].
  eexists. split; [reflexivity |]. split; [reflexivity |]. simpl.
  pose proof (grants_le _ Hg). rewrite length_replicate. lia.
Qed.

Lemma keeps_wf_NewCopy x other :
  keeps wf_state (o <- get_obj other; v <- lift (ctor_copy o); new_obj x v).
Proof.
  intros s Hs. unfold bind at 1. unfold get_obj.
  destruct (objs s !! other) as [o |] eqn:Ho; [| exact I].
  apply construct_wf_state; [exact Hs |].
  pose proof (proj1 Hs _ _ Ho) as Hwf.
  pose proof (ctor_copy_post (mem s) o Hwf) as H.
  pose proof (elems_length (mem s) o Hwf) as Hlen. pose proof Hwf as (Hsz & Hmax & _).
  destruct (ctor_copy o (mem s)) as [d h' | e h' | f]; [| tauto | exact I].
  destruct H as (-> & ->). eexists. split; [reflexivity |].
  split; [reflexivity |]. simpl. split_and!; try lia.
  rewrite length_app, length_replicate. lia.
Qed.

Lemma keeps_wf_NewMove x other :
  keeps wf_state
    (o <- get_obj other; r <- lift (ctor_move o);
     put_obj other (snd r);; new_obj x (fst r)).
Proof.
  intros s Hs. unfold bind at 1. unfold get_obj.
  destruct (objs s !! other) as [o |] eqn:Ho; [| exact I].
  pose proof (proj1 Hs _ _ Ho) as Hwf.
  pose proof (ctor_move_post (mem s) o Hwf) as H.
  pose proof (elems_length (mem s) o Hwf) as Hlen. pose proof Hwf as (Hsz & Hmax & Hb).
  unfold bind, lift.
  destruct (ctor_move o (mem s)) as [[d v'] h' | e h' | f]; [| contradiction | exact I].
  destruct H as (Hg & -> & -> & Hnew & Hold & Hother). simpl.
  set (b' := fresh (dom (mem s))) in *.
  assert (Hup : updates o (mem s) (mkVec (a_ o) 0 0) h').
  { split; [| split; [| left; reflexivity]].
    - unfold wf. simpl. rewrite PTRDIFF_MAX_val. split; [lia |]. split; [lia |].
      destruct (a_ o) as [b |] eqn:Ha; [| reflexivity].
      destruct (Hold b eq_refl) as [_ Hlk]. eexists. split; [exact Hlk | lia].
    - intros b buf Hbuf Hne. rewrite Hother; [exact Hbuf | | exact Hne].
      intros ->. unfold b' in Hbuf. rewrite fresh_None in Hbuf. discriminate. }
  pose proof (wf_state_update s other o _ h' Hs Ho Hup) as Hs1.
  unfold new_obj. simpl.
  destruct (<[other := mkVec (a_ o) 0 0]> (objs s) !! x) eqn:Hx; [exact I |].
  apply (wf_state_add _ x _ Hs1 Hx).
  - eapply wf_intro; simpl; [reflexivity | exact Hnew | lia | exact Hmax |].
    rewrite length_app, length_replicate. lia.
  - simpl. intros y u b Hy Hu [= <-].
    rewrite lookup_insert in Hy. case_decide.
    + injection Hy as <-. simpl in Hu. destruct (Hold _ Hu) as [Hne _]. congruence.
    + destruct (wf_live _ _ _ (proj1 Hs _ _ Hy) Hu) as [old Hlk].
      unfold b' in Hlk. rewrite fresh_None in Hlk. discriminate.
Qed.

Lemma keeps_wf_Delete x :
  keeps wf_state (v <- get_obj x; lift (dtor v);; free_obj x).
Proof.
  intros s Hs. unfold bind at 1. unfold get_obj.
  destruct (objs s !! x) as [v |] eqn:Hx; [| exact I].
  destruct Hs as [Hwf Hdis]. unfold bind, lift, dtor.
  rewrite ArrayPtr_delete_Ok by (intros b Hb; eapply wf_live; eauto).
  unfold free_obj. split; simpl.
  - intros y u. rewrite lookup_delete. case_decide; [discriminate |].
    intros Hy. pose proof (Hwf y u Hy) as (H1 & H2 & H3).
    unfold wf. split; [exact H1 |]. split; [exact H2 |].
    destruct (a_ u) as [b |] eqn:Ha; [| exact H3].
    destruct H3 as (old & Hold & Hcap). exists old. split; [| exact Hcap].
    unfold release. destruct (a_ v) as [bv |] eqn:Hv; [| exact Hold].
    rewrite lookup_delete_ne; [exact Hold |].
    intros <-. exact (Hdis x y v u bv ltac:(congruence) Hx Hy Hv Ha).
  - intros a b va vb blk Hab. rewrite !lookup_delete.
    repeat case_decide; try discriminate. apply Hdis. exact Hab.
Qed.

Lemma keeps_wf_swap_obj this other : keeps wf_state (swap_obj this other).
Proof.
  intros s [Hwf Hdis]. unfold swap_obj, bind, get_obj.
  destruct (objs s !! this) as [l |] eqn:Hl; [| exact I]. simpl.
  destruct (objs s !! other) as [o |] eqn:Ho; [| exact I].
  destruct l as [la ls lc], o as [oa os oc]. unfold put_obj. simpl.
  split; simpl.
  - intros y u. rewrite !lookup_insert. repeat case_decide; subst.
    + intros [= <-]. eapply Hwf, Hl.
    + intros [= <-]. eapply Hwf, Ho.
    + apply Hwf.
  - intros a b va vb blk Hab. rewrite !lookup_insert.
    repeat case_decide; subst; try congruence.
    + intros [= <-] [= <-]. eapply Hdis; [| exact Hl | exact Ho]. congruence.
    + intros [= <-] Hb. eapply Hdis; [| exact Hl | exact Hb]. congruence.
    + intros [= <-] [= <-]. eapply Hdis; [| exact Ho | exact Hl]. congruence.
    + intros [= <-] Hb. eapply Hdis; [| exact Ho | exact Hb]. congruence.
    + intros Ha [= <-]. eapply Hdis; [| exact Ha | exact Hl]. congruence.
    + intros Ha [= <-]. eapply Hdis; [| exact Ha | exact Ho]. congruence.
    + apply Hdis. exact Hab.
Qed.

(** *** Assignment *)

Lemma op_assign_post (s : state) (lhs rhs : nat)
    (vl vr : SimpleVector)
    (Hl : objs s !! lhs = Some vl) (Hr : objs s !! rhs = Some vr)
    (Hne : lhs <> rhs)
    (Hwfl : wf (mem s) vl) (Hwfr : wf (mem s) vr)
    (Hown : forall b, a_ vl = Some b -> a_ vr <> Some b) :
  match op_assign lhs rhs s with
  | Ok _ s' =>
      exists vl',
        objs s' = <[lhs := vl']> (objs s) /\
        size_ vl' = size_ vr /\
        elems (mem s') vl' = elems (mem s) vr /\
        elems (mem s') vr = elems (mem s) vr /\
        wf (mem s') vl' /\ wf (mem s') vr /\
        (size_ vr = 0 ->
           a_ vl' = a_ vl /\ capacity_ vl' = capacity_ vl /\ mem s' = mem s) /\
        (size_ vr <> 0 ->
           a_ vl' = Some (fresh (dom (mem s))) /\ capacity_ vl' = capacity_ vr /\
           grants (capacity_ vr) = true) /\
        updates vl (mem s) vl' (mem s')
  | Throw e s' =>
      e = BadAlloc /\ s' = s /\ size_ vr <> 0 /\
      grants (capacity_ vr) = false
  | Fault _ => False
  end.
Proof.
  pose proof (elems_length (mem s) vr Hwfr) as Hlen.
  pose proof Hwfr as (Hsr & Hmaxr & Hbr).
  unfold op_assign, bind, get_obj. rewrite Hl. simpl. rewrite Hr.
  rewrite bool_decide_eq_false_2 by exact Hne. simpl.
  unfold IsEmpty, GetSize. destruct (Z.eqb_spec (size_ vr) 0) as [Hz | Hnz].
  - unfold put_obj. exists (Clear vl). simpl.
    assert (He : elems (mem s) vr = [])
      by (unfold elems; rewrite Hz; apply take_0).
    assert (Hwfc : wf (mem s) (Clear vl))
      by (apply wf_shrink; [exact Hwfl | destruct Hwfl as (? & _); lia]).
    split_and!; try reflexivity; try assumption; try tauto.
    + symmetry. exact Hz.
    + rewrite He. unfold elems. simpl. apply take_0.
    + split; [exact Hwfc |]. split; [| left; reflexivity].
      intros b buf Hb _. exact Hb.
  - pose proof (ctor_copy_post (mem s) vr Hwfr) as Hc.
    unfold lift at 1.
    destruct (ctor_copy vr (mem s)) as [d h1 | e h1 | f]
      eqn:Hcopy; [| | exact Hc].
    + destruct Hc as (-> & ->). unfold swap, ArrayPtr_swap, put_obj, lift, dtor.
      simpl.
      set (b' := fresh (dom (mem s))).
      set (buf := elems (mem s) vr
                    ++ replicate (Z.to_nat (capacity_ vr - size_ vr)) dflt).
      rewrite ArrayPtr_delete_Ok.
      2:{ intros b Hb. destruct Hwfl as (_ & _ & Hbl). rewrite Hb in Hbl.
          destruct Hbl as (old & Hold & _).
          rewrite lookup_insert_ne; [eauto |].
          intros <-. unfold b' in Hold. rewrite fresh_None in Hold. discriminate. }
      eexists. simpl.
      assert (Hnew : release (a_ vl) (<[b' := buf]> (mem s)) !! b' = Some buf)
        by (apply lookup_release_insert, Hwfl).
      assert (Hkeep : forall b old, a_ vr = Some b -> mem s !! b = Some old ->
                release (a_ vl) (<[b' := buf]> (mem s)) !! b = Some old).
      { intros b old Hb Hold.
        assert (b <> b')
          by (intros ->; unfold b' in Hold; rewrite fresh_None in Hold; discriminate).
        destruct (a_ vl) as [bl |] eqn:Hal; simpl.
        - rewrite lookup_delete_ne, lookup_insert_ne by
            (try congruence; intros ->; eapply Hown; eauto).
          exact Hold.
        - rewrite lookup_insert_ne by congruence. exact Hold. }
      assert (Hcase : grants (capacity_ vr) = true).
      { destruct (grants (capacity_ vr)) eqn:Hg; [reflexivity |].
        unfold ctor_copy in Hcopy.
        erewrite bind_Throw in Hcopy by (apply ArrayPtr_new_Throw; exact Hg).
        discriminate. }
      split_and!; try reflexivity; try tauto.
      * eapply elems_intro; simpl; [reflexivity | exact Hnew |].
        symmetry. exact Hlen.
      * unfold elems, buffer. destruct (a_ vr) as [br |] eqn:Har; [| reflexivity].
        destruct Hbr as (old & Hold & _).
        rewrite (Hkeep br old eq_refl Hold), Hold. reflexivity.
      * eapply wf_intro; simpl; [reflexivity | exact Hnew | lia | exact Hmaxr |].
        unfold buf. rewrite length_app, length_replicate. lia.
      * unfold wf. split; [exact Hsr |]. split; [exact Hmaxr |].
        destruct (a_ vr) as [br |] eqn:Har; [| exact Hbr].
        destruct Hbr as (old & Hold & Hcap). exists old.
        split; [apply Hkeep; [reflexivity | exact Hold] | exact Hcap].
      * apply updates_release_fresh; [exact Hwfl | lia | exact Hmaxr |].
        unfold buf. rewrite length_app, length_replicate. lia.
    + destruct Hc as (-> & -> & Hg). destruct s. simpl. auto.
Qed.


Lemma keeps_wf_op_assign this rhs : keeps wf_state (op_assign this rhs).
Proof.
  intros s Hs.
  destruct (objs s !! this) as [vl |] eqn:Hl;
    [| unfold op_assign, bind, get_obj; rewrite Hl; exact I].
  destruct (objs s !! rhs) as [vr |] eqn:Hr;
    [| unfold op_assign, bind, get_obj; rewrite Hl; simpl; rewrite Hr; exact I].
  destruct (decide (this = rhs)) as [-> | Hne].
  - unfold op_assign, bind, get_obj. rewrite Hl. simpl. rewrite Hl.
    rewrite bool_decide_eq_true_2 by reflexivity. exact Hs.
  - pose proof (op_assign_post s this rhs vl vr Hl Hr Hne
                  (proj1 Hs _ _ Hl) (proj1 Hs _ _ Hr)
                  (fun b Hb => proj2 Hs this rhs vl vr b Hne Hl Hr Hb)) as H.
    destruct (op_assign this rhs s) as [u s' | e s' | f]; [| | exact I].
    + destruct H as (vl' & Hobjs & _ & _ & _ & _ & _ & _ & _ & Hup).
      pose proof (wf_state_update s this vl vl' (mem s') Hs Hl Hup) as Hs'.
      rewrite <- Hobjs in Hs'. destruct s'. exact Hs'.
    + destruct H as (_ & -> & _). exact Hs.
Qed.

(** Every call keeps the objects well formed and their blocks apart, also
    when it throws. *)
Lemma keeps_wf_exec c : keeps wf_state (exec c).
Proof.
  destruct c; cbn [exec].
  - apply keeps_wf_New.
  - apply keeps_wf_NewFill, wrap_range.
  - apply keeps_wf_NewFill, wrap_range.
  - apply keeps_wf_NewInit.
  - apply keeps_wf_NewCopy.
  - apply keeps_wf_NewMove.
  - apply keeps_wf_NewReserve, wrap_range.
  - apply keeps_wf_Delete.
  - apply keeps_wf_op_assign.
  - apply keeps_wf_method, spec_Reserve.
  - apply keeps_wf_method, spec_PushBack.
  - exact (keeps_wf_then_writes _ _ _ _ (then_writes_PushBack_rv item)
             spec_PushBack_Temp).
  - apply keeps_wf_method, spec_Insert.
  - exact (keeps_wf_then_writes _ _ _ _ (then_writes_Insert_rv pos value)
             (spec_Insert_Temp pos)).
  - apply keeps_wf_method, spec_PopBack.
  - apply keeps_wf_method, spec_Erase.
  - apply keeps_wf_swap_obj.
  - apply keeps_wf_method, spec_Clear.
  - apply keeps_wf_method, spec_Resize, wrap_range.
  - apply keeps_wf_method, spec_index.
  - apply keeps_wf_method, spec_At.
Qed.

Lemma reachable_wf_state s : reachable s -> wf_state s.
Proof.
  induction 1 as [| c s s' _ IH Hex | c s e s' _ IH Hex].
  - split; simpl; intros *; rewrite ?lookup_empty; discriminate.
  - pose proof (keeps_wf_exec c s IH) as H. rewrite Hex in H. exact H.
  - pose proof (keeps_wf_exec c s IH) as H. rewrite Hex in H. exact H.
Qed.

(** ** Further properties of the member functions *)

Lemma vec_eta v a n c :
  a_ v = a -> size_ v = n -> capacity_ v = c -> v = mkVec a n c.
Proof. destruct v. simpl. now intros -> -> ->. Qed.

Lemma frame_trans v v1 (h h1 h2 : heap) :
  a_ v1 = a_ v -> frame v h h1 -> frame v1 h1 h2 -> frame v h h2.
Proof.
  intros Ha H1 H2 b buf Hb Hne. apply H2; [apply H1; assumption | congruence].
Qed.

(** Appends that fit the capacity stay in the block and cannot fail. *)
Lemma push_all_room items : forall (h : heap) v,
  wf h v -> size_ v + Z.of_nat (length items) <= capacity_ v ->
  exists h',
    push_all (Temp <$> items) v h
    = Ok (mkVec (a_ v) (size_ v + Z.of_nat (length items)) (capacity_ v)) h' /\
    wf h' (mkVec (a_ v) (size_ v + Z.of_nat (length items)) (capacity_ v)) /\
    elems h' (mkVec (a_ v) (size_ v + Z.of_nat (length items)) (capacity_ v))
    = elems h v ++ items /\
    frame v h h'.
Proof.
  induction items as [| x items IH]; intros h v Hwf Hroom.
  - exists h. simpl length. rewrite Z.add_0_r, app_nil_r.
    rewrite <- (vec_eta v _ _ _ eq_refl eq_refl eq_refl).
    split_and!; [reflexivity | assumption | reflexivity |].
    intros b buf Hb _. exact Hb.
  - simpl length in *. rewrite fmap_cons; cbn [push_all]. unfold bind.
    pose proof (PushBack_post h v x Hwf) as Hp. pose proof Hwf as (Hs & _).
    destruct (PushBack v (Temp x) h) as [v1 h1 | e h1 | f]; [| | contradiction].
    2:{ destruct Hp as (_ & _ & Heq & _). lia. }
    destruct Hp as (Hwf1 & Hel1 & Hs1 & Hc1 & Ha1 & Hfr1 & _).
    unfold grown_capacity in Hc1.
    destruct (Z.eqb_spec (size_ v) (capacity_ v)); [lia |].
    specialize (Ha1 ltac:(lia)).
    destruct (IH h1 v1 Hwf1 ltac:(lia)) as (h' & Hrun & Hwf' & Hel' & Hfr').
    rewrite Ha1, Hs1, Hc1 in *.
    replace (size_ v + 1 + Z.of_nat (length items))
      with (size_ v + Z.of_nat (S (length items))) in * by lia.
    exists h'. split_and!; try assumption.
    + rewrite Hel', Hel1, <- app_assoc. reflexivity.
    + eapply frame_trans; [exact Ha1 | exact Hfr1 | exact Hfr'].
Qed.


(** [Resize], whatever the target. *)
Lemma Resize_post (h : heap) v n :
  wf h v -> 0 <= n ->
  match Resize v n h with
  | Ok v' h' =>
      wf h' v' /\
      elems h' v' = take (Z.to_nat n) (elems h v)
                      ++ replicate (Z.to_nat (n - size_ v)) dflt /\
      size_ v' = n /\
      capacity_ v' = (if n <=? capacity_ v then capacity_ v
                      else Z.max (capacity_ v * 2) n) /\
      (n <= capacity_ v -> a_ v' = a_ v) /\
      frame v h h'
  | Throw e h' =>
      e = BadAlloc /\ h' = h /\ capacity_ v < n /\
      grants (Z.max (capacity_ v * 2) n) = false
  | Fault _ => False
  end.
Proof.
  intros Hwf Hn. pose proof Hwf as (Hs & _).
  pose proof (elems_length h v Hwf) as Hlen.
  destruct (Z.leb_spec n (capacity_ v)) as [Hle | Hgt].
  - destruct (Resize_within h v n Hwf ltac:(lia)) as (h' & -> & Hwf' & Hfr & Hel).
    simpl. split_and!; auto.
  - pose proof (Resize_grow_post h v n Hwf Hgt) as H.
    destruct (Resize v n h) as [v' h' | e h' | f]; [| tauto | exact H].
    destruct H as (Hwf' & Hel & Hs' & Hc' & Hfr).
    split_and!; try assumption; try lia.
    rewrite Hel, take_ge by lia. reflexivity.
Qed.

(** The position [Erase] returns refers to the element that followed. *)
Lemma Erase_next (h : heap) v i :
  0 <= i -> i + 1 < size_ v ->
  (take (Z.to_nat i) (elems h v) ++ drop (S (Z.to_nat i)) (elems h v))
    !! Z.to_nat i
  = elems h v !! S (Z.to_nat i).
Proof.
  intros Hi Hlt.
  destruct (decide (Z.to_nat i <= length (elems h v))%nat) as [Hle | Hgt].
  - rewrite lookup_app_r by (rewrite length_take; lia).
    rewrite length_take, Nat.min_l by lia.
    rewrite Nat.sub_diag, lookup_drop. f_equal. lia.
  - rewrite take_ge, drop_ge, app_nil_r by lia.
    rewrite !lookup_ge_None_2 by lia. reflexivity.
Qed.

(** [Insert] at [end()] does what [PushBack] does. *)
Lemma Insert_end_PushBack (h : heap) v (x : cref) :
  wf h v ->
  Insert v (end_ v) x h
  = match PushBack v x h with
    | Ok v' h' => Ok (v', Ptr (a_ v') (size_ v)) h'
    | Throw e h' => Throw e h'
    | Fault f => Fault f
    end.
Proof.
  intros Hwf. pose proof (ResizeForOneElement_post h v Hwf) as Hroe.
  pose proof Hwf as (Hs & _).
  unfold Insert, PushBack.
  erewrite bind_Ok
    by (apply assert_insertable_Ok;
        [reflexivity | unfold end_, Get, ptr_add, GetSize; simpl; lia]).
  unfold GetPosToInsert, ptr_diff, cbegin, end_, begin_, Get, ptr_add, GetSize.
  simpl. destruct (decide (a_ v = a_ v)) as [_ | ?]; [| congruence].
  unfold bind at 2. unfold bind at 1. unfold bind at 3.
  destruct (ResizeForOneElement v h) as [v1 h1 | e h1 | f]; try reflexivity.
  destruct Hroe as (b1 & s & spare & Ha1 & _ & Hs1 & _).
  rewrite Ha1.
  assert (Hshift :
    (if 1 <? size_ v1
     then copy_backward true (Ptr (Some b1) (0 + (0 + size_ v - 0)))
            (Ptr (Some b1) (0 + size_ v1 + -1)) (Ptr (Some b1) (0 + size_ v1))
     else ret tt) h1 = Ok tt h1).
  { destruct (1 <? size_ v1); [| reflexivity].
    rewrite copy_backward_same by lia.
    replace (Z.to_nat (0 + size_ v1 + -1 - (0 + (0 + size_ v - 0)))) with 0%nat by lia.
    reflexivity. }
  erewrite (bind_Ok _ _ h1) by exact Hshift. unfold ret at 1. simpl.
  replace (0 + size_ v1 + -1) with (0 + (0 + size_ v - 0)) by lia.
  unfold bind, ret.
  destruct (assign_from _ x h1); try reflexivity.
  rewrite Ha1. do 3 f_equal. lia.
Qed.

(** ** Calls that throw change nothing *)

Lemma state_eta (s : state) : mkState (objs s) (mem s) = s.
Proof. destruct s. reflexivity. Qed.

Lemma method_Throw_same this f s e s' :
  method_spec f -> wf_state s -> method this f s = Throw e s' -> s' = s.
Proof.
  intros Hf Hs. unfold method, bind, get_obj.
  destruct (objs s !! this) as [v |] eqn:Hx; [| discriminate].
  unfold lift. specialize (Hf v (mem s) (proj1 Hs _ _ Hx)).
  destruct (f v (mem s)) as [v' h' | e0 h' | f0]; try discriminate.
  intros [= _ <-]. subst h'. apply state_eta.
Qed.

Lemma then_writes_Throw_same this f g r s e s' :
  then_writes f g r -> (forall x, method_spec (g x)) ->
  wf_state s -> method this f s = Throw e s' -> s' = s.
Proof.
  intros Hf Hg Hs. unfold method, bind, get_obj.
  destruct (objs s !! this) as [v |] eqn:Hx; [| discriminate].
  unfold lift. destruct (Hf v (mem s)) as [-> | [x ->]]; [discriminate |].
  pose proof (Hg x v (mem s) (proj1 Hs _ _ Hx)) as Hsp. unfold bind.
  destruct (g x v (mem s)) as [v1 h1 | e0 h1 | f0]; [| | discriminate].
  - destruct (write r (moved x) h1) as [r' h2 | e0 h2 | f0] eqn:Hw;
      try discriminate.
    exfalso. exact (throws_write r _ (fun _ => False) h1 e0 h2 Hw).
  - intros [= _ <-]. subst h1. apply state_eta.
Qed.

Lemma construct_Throw_same x (m : heap -> outcome heap SimpleVector) s e s' :
  (forall e0 h', m (mem s) = Throw e0 h' -> h' = mem s) ->
  (v <- lift m; new_obj x v) s = Throw e s' -> s' = s.
Proof.
  intros Hm. unfold bind, lift.
  destruct (m (mem s)) as [v h' | e0 h' | f] eqn:Hms; try discriminate.
  - intros H. exfalso. exact (throws_new_obj x v (fun _ => False) _ _ _ H).
  - intros [= _ <-]. rewrite (Hm e0 h' eq_refl). apply state_eta.
Qed.

Lemma never_throws {A} (m : state -> outcome state A) s e s' :
  throws m (fun _ => False) -> m s = Throw e s' -> s' = s.
Proof. intros Hm H. exfalso. exact (Hm s e s' H). Qed.

Lemma op_assign_Throw_same this rhs s e s' :
  wf_state s -> op_assign this rhs s = Throw e s' -> s' = s.
Proof.
  intros Hs H.
  destruct (objs s !! this) as [vl |] eqn:Hl;
    [| unfold op_assign, bind, get_obj in H; rewrite Hl in H; discriminate].
  destruct (objs s !! rhs) as [vr |] eqn:Hr;
    [| unfold op_assign, bind, get_obj in H; rewrite Hl in H; simpl in H;
       rewrite Hr in H; discriminate].
  destruct (decide (this = rhs)) as [-> | Hne].
  - unfold op_assign, bind, get_obj in H. rewrite Hl in H. simpl in H.
    rewrite Hl in H. rewrite bool_decide_eq_true_2 in H by reflexivity.
    discriminate.
  - pose proof (op_assign_post s this rhs vl vr Hl Hr Hne
                  (proj1 Hs _ _ Hl) (proj1 Hs _ _ Hr)
                  (fun b Hb => proj2 Hs this rhs vl vr b Hne Hl Hr Hb)) as Hp.
    rewrite H in Hp. tauto.
Qed.

(** A call that throws leaves the objects and the memory as they were. *)
Lemma exec_Throw_same c s e s' :
  wf_state s -> exec c s = Throw e s' -> s' = s.
Proof.
  intros Hs. destruct c; cbn [exec].
  - apply never_throws, throws_new_obj.
  - apply construct_Throw_same. intros e0 h'. unfold ctor_size.
    rewrite ctor_fill_eq by apply wrap_range.
    destruct (grants _); [discriminate | now intros [= _ <-]].
  - apply construct_Throw_same. intros e0 h'.
    rewrite ctor_fill_eq by apply wrap_range.
    destruct (grants _); [discriminate | now intros [= _ <-]].
  - apply construct_Throw_same. intros e0 h'. rewrite ctor_init_eq.
    destruct (grants _); [discriminate | now intros [= _ <-]].
  - unfold bind at 1. unfold get_obj.
    destruct (objs s !! other) as [o |] eqn:Ho; [| discriminate].
    apply construct_Throw_same. intros e0 h' H.
    pose proof (ctor_copy_post (mem s) o (proj1 Hs _ _ Ho)) as Hp.
    rewrite H in Hp. tauto.
  - apply never_throws.
    apply throws_bind; [apply throws_get_obj | intros o].
    apply throws_bind; [apply throws_lift, throws_ctor_move | intros r].
    apply throws_bind; [apply throws_put_obj | intros _; apply throws_new_obj].
  - apply construct_Throw_same. intros e0 h'. rewrite ctor_reserve_eq.
    destruct (grants _); [discriminate | now intros [= _ <-]].
  - apply never_throws.
    apply throws_bind; [apply throws_get_obj | intros v].
    apply throws_bind; [apply throws_lift, throws_dtor | intros _; apply throws_free_obj].
  - apply op_assign_Throw_same, Hs.
  - apply method_Throw_same; [apply spec_Reserve | exact Hs].
  - apply method_Throw_same; [apply spec_PushBack | exact Hs].
  - exact (then_writes_Throw_same _ _ _ _ _ _ _ (then_writes_PushBack_rv item)
             spec_PushBack_Temp Hs).
  - apply method_Throw_same; [apply spec_Insert | exact Hs].
  - exact (then_writes_Throw_same _ _ _ _ _ _ _ (then_writes_Insert_rv pos value)
             (spec_Insert_Temp pos) Hs).
  - apply method_Throw_same; [apply spec_PopBack | exact Hs].
  - apply method_Throw_same; [apply spec_Erase | exact Hs].
  - apply never_throws, throws_swap_obj.
  - apply method_Throw_same; [apply spec_Clear | exact Hs].
  - apply method_Throw_same; [apply spec_Resize, wrap_range | exact Hs].
  - apply method_Throw_same; [apply spec_index | exact Hs].
  - apply method_Throw_same; [apply spec_At | exact Hs].
Qed.

(** ** Ownership of memory *)

Lemma bind_Ok_inv {S A B} (m : S -> outcome S A) (k : A -> S -> outcome S B)
    s b s'' :
  bind m k s = Ok b s'' -> exists a s', m s = Ok a s' /\ k a s' = Ok b s''.
Proof. unfold bind. destruct (m s) as [a s' | |]; try discriminate. eauto. Qed.

Lemma lift_Ok_inv {A} (m : M A) s a s' :
  lift m s = Ok a s' -> exists h', m (mem s) = Ok a h' /\ s' = mkState (objs s) h'.
Proof.
  unfold lift. destruct (m (mem s)) as [a0 h0 | |]; try discriminate.
  intros [= <- <-]. eauto.
Qed.

Lemma get_obj_Ok_inv x s v s' :
  get_obj x s = Ok v s' -> objs s !! x = Some v /\ s' = s.
Proof.
  unfold get_obj. destruct (objs s !! x); [| discriminate].
  intros [= <- <-]. auto.
Qed.

Lemma same_dom_ret {A} (a : A) : same_dom (ret a).
Proof. intros h a' h' [= _ <-]. reflexivity. Qed.

Lemma same_dom_fail {A} f : same_dom (fail f : M A).
Proof. intros h a h'. discriminate. Qed.

Lemma same_dom_throw {A} e : same_dom (throw e : M A).
Proof. intros h a h'. discriminate. Qed.

Lemma same_dom_bind {A B} (m : M A) (k : A -> M B) :
  same_dom m -> (forall a, same_dom (k a)) -> same_dom (bind m k).
Proof.
  intros Hm Hk h b h'' Hrun. apply bind_Ok_inv in Hrun as (a & h' & H1 & H2).
  rewrite (Hk a _ _ _ H2). exact (Hm _ _ _ H1).
Qed.

Lemma same_dom_noexcept {A} (m : M A) : same_dom m -> same_dom (noexcept m).
Proof.
  intros Hm h a h'. unfold noexcept. specialize (Hm h).
  destruct (m h); try discriminate. intros [= <- <-]. eapply Hm. reflexivity.
Qed.

Lemma same_dom_assert c : same_dom (assert c : M unit).
Proof. destruct c; [apply same_dom_ret | apply same_dom_fail]. Qed.

Lemma same_dom_load p : same_dom (load p).
Proof.
  intros h a h'. unfold load.
  destruct (slot h p); [intros [= _ <-]; reflexivity | discriminate].
Qed.

Lemma same_dom_store p x : same_dom (store p x).
Proof.
  intros h a h'. unfold store.
  destruct (base p) as [b |]; [| discriminate].
  destruct (h !! b) as [buf |] eqn:Hb; [| discriminate].
  destruct (_ && _); [| discriminate].
  intros [= _ <-]. apply dom_insert_lookup_L. eauto.
Qed.

Lemma same_dom_read r : same_dom (read r).
Proof. destruct r; [apply same_dom_ret | apply same_dom_load]. Qed.

Lemma same_dom_write r x : same_dom (write r x).
Proof.
  destruct r; [apply same_dom_ret |]. cbn [write].
  apply same_dom_bind; [apply same_dom_store | intros _; apply same_dom_ret].
Qed.

Lemma same_dom_assign_from dst r : same_dom (assign_from dst r).
Proof.
  unfold assign_from.
  apply same_dom_bind; [apply same_dom_read | intros x; apply same_dom_store].
Qed.

Lemma same_dom_exchange_from dst r : same_dom (exchange_from dst r).
Proof.
  unfold exchange_from.
  apply same_dom_bind; [apply same_dom_load | intros old].
  apply same_dom_bind; [apply same_dom_store | intros _].
  apply same_dom_bind; [apply same_dom_read | intros x].
  apply same_dom_bind; [apply same_dom_store | intros _; apply same_dom_write].
Qed.

Lemma same_dom_range p q : same_dom (range p q).
Proof.
  unfold range. destruct (ptr_diff q p) as [d |]; [| apply same_dom_fail].
  destruct (0 <=? d); [apply same_dom_ret | apply same_dom_fail].
Qed.

Lemma same_dom_assign_elem mv dst src : same_dom (assign_elem mv dst src).
Proof.
  unfold assign_elem. apply same_dom_bind; [apply same_dom_load | intros x].
  apply same_dom_bind; [apply same_dom_store | intros _].
  destruct mv; [apply same_dom_store | apply same_dom_ret].
Qed.

Lemma same_dom_copy_n mv n : forall p q, same_dom (copy_n mv n p q).
Proof.
  induction n as [| n IH]; intros p q; simpl; [apply same_dom_ret |].
  apply same_dom_bind; [apply same_dom_assign_elem | intros _; apply IH].
Qed.

Lemma same_dom_copy mv p q d : same_dom (copy mv p q d).
Proof.
  unfold copy. apply same_dom_bind; [apply same_dom_range | intros n].
  apply same_dom_copy_n.
Qed.

Lemma same_dom_copy_backward_n mv n :
  forall p q, same_dom (copy_backward_n mv n p q).
Proof.
  induction n as [| n IH]; intros p q; simpl; [apply same_dom_ret |].
  apply same_dom_bind; [apply same_dom_assign_elem | intros _; apply IH].
Qed.

Lemma same_dom_copy_backward mv p q d : same_dom (copy_backward mv p q d).
Proof.
  unfold copy_backward. apply same_dom_bind; [apply same_dom_range | intros n].
  apply same_dom_copy_backward_n.
Qed.

Lemma same_dom_fill_n n : forall p x, same_dom (fill_n n p x).
Proof.
  induction n as [| n IH]; intros p x; simpl; [apply same_dom_ret |].
  apply same_dom_bind; [apply same_dom_store | intros _; apply IH].
Qed.

Lemma same_dom_fill p q x : same_dom (fill p q x).
Proof.
  unfold fill. apply same_dom_bind; [apply same_dom_range | intros n].
  apply same_dom_fill_n.
Qed.

Lemma same_dom_copy_init init : forall p, same_dom (copy_init init p).
Proof.
  induction init as [| x init IH]; intros p; simpl; [apply same_dom_ret |].
  apply same_dom_bind; [apply same_dom_store | intros _; apply IH].
Qed.

Lemma same_dom_reset_n n : forall p, same_dom (reset_n n p).
Proof.
  induction n as [| n IH]; intros p; simpl; [apply same_dom_ret |].
  apply same_dom_bind; [apply same_dom_load | intros _].
  apply same_dom_bind; [apply same_dom_store | intros _; apply IH].
Qed.

Lemma same_dom_reset p q : same_dom (reset p q).
Proof.
  unfold reset. apply same_dom_bind; [apply same_dom_range | intros n].
  apply same_dom_reset_n.
Qed.

Lemma same_dom_assert_insertable v pos : same_dom (assert_insertable v pos).
Proof.
  unfold assert_insertable.
  destruct (ptr_le (begin_ v) pos), (ptr_le pos (end_ v));
    first [apply same_dom_assert | apply same_dom_fail].
Qed.

Lemma same_dom_assert_dereferenceable v pos :
  same_dom (assert_dereferenceable v pos).
Proof.
  unfold assert_dereferenceable.
  destruct (ptr_le (begin_ v) pos), (ptr_lt pos (end_ v));
    first [apply same_dom_assert | apply same_dom_fail].
Qed.

Lemma ArrayPtr_new_dom n (h : heap) a h1 :
  ArrayPtr_new n h = Ok a h1 ->
  a = Some (fresh (dom h)) /\ dom h1 = {[fresh (dom h)]} ∪ dom h.
Proof.
  unfold ArrayPtr_new. destruct (grants n); [| discriminate].
  intros [= <- <-]. split; [reflexivity | apply dom_insert_L].
Qed.

Lemma ArrayPtr_delete_dom a (h : heap) u h' :
  ArrayPtr_delete a h = Ok u h' ->
  forall b, b ∈ dom h' <-> b ∈ dom h /\ a <> Some b.
Proof.
  unfold ArrayPtr_delete. destruct a as [b0 |].
  - destruct (h !! b0); [| discriminate]. intros [= _ <-] b.
    rewrite dom_delete_L, elem_of_difference, elem_of_singleton.
    split; intros [Hb Hne]; (split; [exact Hb | congruence]).
  - intros [= _ <-] b. split; [intros Hb; split; [exact Hb | discriminate] |].
    intros [Hb _]. exact Hb.
Qed.

Lemma tight_same v (h : heap) v' h' :
  a_ v' = a_ v -> dom h' = dom h -> tight v h v' h'.
Proof.
  intros Ha Hd b Hb. rewrite Hd in Hb. rewrite Ha.
  destruct (decide (a_ v = Some b)); [left | right]; auto.
Qed.

Lemma tight_grow v (h : heap) v' h1 h' u :
  a_ v' = Some (fresh (dom h)) -> dom h1 = {[fresh (dom h)]} ∪ dom h ->
  ArrayPtr_delete (a_ v) h1 = Ok u h' -> tight v h v' h'.
Proof.
  intros Ha Hd Hdel b Hb.
  apply (ArrayPtr_delete_dom _ _ _ _ Hdel) in Hb as [Hb Hne].
  rewrite Hd in Hb. apply elem_of_union in Hb as [Hb | Hb].
  - apply elem_of_singleton in Hb as ->. left. exact Ha.
  - right. auto.
Qed.

Lemma tight_dom_eq v (h h0 : heap) v1 h1 v' h' :
  dom h0 = dom h -> tight v h0 v1 h1 -> dom h' = dom h1 -> a_ v' = a_ v1 ->
  tight v h v' h'.
Proof.
  intros H0 Ht H1 Ha b Hb. rewrite H1 in Hb. rewrite Ha, <- H0. exact (Ht b Hb).
Qed.

Lemma tight_Resize n : method_tight (fun v => Resize v n).
Proof.
  intros v h v' h'. unfold Resize. destruct (n <=? GetCapacity v).
  - intros Hrun. apply bind_Ok_inv in Hrun as (u & h1 & H1 & [= <- <-]).
    apply tight_same; [reflexivity |]. revert H1.
    destruct (GetSize v <? n); [apply same_dom_reset | apply same_dom_ret].
  - intros Hrun. apply bind_Ok_inv in Hrun as (a & h1 & Hnew & Hrun).
    apply ArrayPtr_new_dom in Hnew as [-> Hd1].
    apply bind_Ok_inv in Hrun as (u1 & h2 & Hcopy & Hrun).
    apply same_dom_copy in Hcopy.
    apply bind_Ok_inv in Hrun as (u2 & h3 & Hreset & Hrun).
    apply same_dom_reset in Hreset. simpl in Hrun.
    apply bind_Ok_inv in Hrun as (u3 & h4 & Hdel & [= <- <-]).
    eapply tight_grow; [reflexivity | | exact Hdel]. congruence.
Qed.

Lemma tight_ResizeForOneElement : method_tight ResizeForOneElement.
Proof.
  intros v h v' h'. unfold ResizeForOneElement.
  destruct (GetSize v =? GetCapacity v); [apply tight_Resize |].
  intros [= <- <-]. apply tight_same; reflexivity.
Qed.

Lemma tight_Reserve n : method_tight (fun v => Reserve v n).
Proof.
  intros v h v' h'. unfold Reserve. destruct (GetCapacity v <? n).
  - intros Hrun. apply bind_Ok_inv in Hrun as (a & h1 & Hnew & Hrun).
    apply ArrayPtr_new_dom in Hnew as [-> Hd1].
    apply bind_Ok_inv in Hrun as (u1 & h2 & Hcopy & Hrun).
    apply same_dom_copy in Hcopy. simpl in Hrun.
    apply bind_Ok_inv in Hrun as (u3 & h4 & Hdel & [= <- <-]).
    eapply tight_grow; [reflexivity | | exact Hdel]. congruence.
  - intros [= <- <-]. apply tight_same; reflexivity.
Qed.

Lemma tight_PushBack item : method_tight (fun v => PushBack v item).
Proof.
  intros v h v' h'. unfold PushBack. intros Hrun.
  apply bind_Ok_inv in Hrun as (v1 & h1 & Hres & Hrun).
  apply bind_Ok_inv in Hrun as (u & h2 & Hst & [= <- <-]).
  eapply tight_dom_eq;
    [reflexivity | exact (tight_ResizeForOneElement _ _ _ _ Hres)
     | exact (same_dom_assign_from _ _ _ _ _ Hst) | reflexivity].
Qed.

Lemma tight_PushBack_rv item :
  method_tight (fun v => q <- PushBack_rv v item; ret (fst q)).
Proof.
  intros v h v' h' Hrun.
  apply bind_Ok_inv in Hrun as (q & h3 & Hrun & [= <- <-]).
  unfold PushBack_rv in Hrun.
  apply bind_Ok_inv in Hrun as (v1 & h1 & Hres & Hrun).
  apply bind_Ok_inv in Hrun as (r' & h2 & Hex & [= <- <-]).
  eapply tight_dom_eq;
    [reflexivity | exact (tight_ResizeForOneElement _ _ _ _ Hres)
     | exact (same_dom_exchange_from _ _ _ _ _ Hex) | reflexivity].
Qed.

Lemma tight_GetPosToInsert v pos (h : heap) r h' :
  GetPosToInsert v pos h = Ok r h' -> tight v h (fst r) h'.
Proof.
  unfold GetPosToInsert. destruct (ptr_diff pos (cbegin v)); [| discriminate].
  intros Hrun. apply bind_Ok_inv in Hrun as (v1 & h1 & Hres & Hrun).
  apply bind_Ok_inv in Hrun as (u & h2 & Hcb & [= <- <-]).
  eapply tight_dom_eq;
    [reflexivity | exact (tight_ResizeForOneElement _ _ _ _ Hres) |
     | reflexivity].
  revert Hcb.
  destruct (1 <? GetSize v1); [apply same_dom_copy_backward | apply same_dom_ret].
Qed.

Lemma tight_Insert pos value :
  method_tight (fun v => r <- Insert v pos value; ret (fst r)).
Proof.
  intros v h v' h' Hrun.
  apply bind_Ok_inv in Hrun as (r & h3 & Hins & [= <- <-]).
  unfold Insert in Hins.
  apply bind_Ok_inv in Hins as (u & h0 & Has & Hins).
  apply bind_Ok_inv in Hins as (r1 & h1 & Hpos & Hins).
  apply bind_Ok_inv in Hins as (u2 & h2 & Hst & [= <- <-]).
  eapply tight_dom_eq;
    [exact (same_dom_assert_insertable _ _ _ _ _ Has)
    | exact (tight_GetPosToInsert _ _ _ _ _ Hpos)
    | exact (same_dom_assign_from _ _ _ _ _ Hst) | reflexivity].
Qed.

Lemma tight_Insert_rv pos value :
  method_tight (fun v => q <- Insert_rv v pos value; ret (fst (fst q))).
Proof.
  intros v h v' h' Hrun.
  apply bind_Ok_inv in Hrun as (q & h3 & Hins & [= <- <-]).
  unfold Insert_rv in Hins.
  apply bind_Ok_inv in Hins as (u & h0 & Has & Hins).
  apply bind_Ok_inv in Hins as (r1 & h1 & Hpos & Hins).
  apply bind_Ok_inv in Hins as (r' & h2 & Hex & [= <- <-]).
  eapply tight_dom_eq;
    [exact (same_dom_assert_insertable _ _ _ _ _ Has)
    | exact (tight_GetPosToInsert _ _ _ _ _ Hpos)
    | exact (same_dom_exchange_from _ _ _ _ _ Hex) | reflexivity].
Qed.

Lemma tight_ext (f g : SimpleVector -> M SimpleVector) :
  (forall v h, f v h = g v h) -> method_tight g -> method_tight f.
Proof. intros Heq Hg v h v' h'. rewrite Heq. apply Hg. Qed.

Lemma tight_in_place (f : SimpleVector -> M SimpleVector) :
  (forall v, same_dom (f v)) ->
  (forall v h v' h', f v h = Ok v' h' -> a_ v' = a_ v) ->
  method_tight f.
Proof.
  intros Hd Ha v h v' h' Hrun.
  apply tight_same; [exact (Ha _ _ _ _ Hrun) | exact (Hd _ _ _ _ Hrun)].
Qed.

Lemma tight_PopBack : method_tight PopBack.
Proof.
  apply tight_in_place.
  - intros v. unfold PopBack. apply same_dom_noexcept.
    apply same_dom_bind; [apply same_dom_assert | intros _; apply same_dom_ret].
  - intros v h v' h'. unfold PopBack, noexcept, bind.
    destruct (assert _ h) as [u h1 | |]; try discriminate.
    intros [= <- _]. reflexivity.
Qed.

Lemma tight_Erase pos : method_tight (fun v => r <- Erase v pos; ret (fst r)).
Proof.
  intros v h v' h' Hrun.
  apply bind_Ok_inv in Hrun as (r & h3 & Her & [= <- <-]).
  unfold Erase in Her.
  apply bind_Ok_inv in Her as (u & h0 & Has & Her).
  destruct (ptr_diff pos (cbegin v)); [| discriminate].
  apply bind_Ok_inv in Her as (u1 & h1 & Hcopy & [= <- <-]).
  apply tight_same; [reflexivity |].
  rewrite (same_dom_copy _ _ _ _ _ _ _ Hcopy).
  exact (same_dom_assert_dereferenceable _ _ _ _ _ Has).
Qed.

Lemma tight_Clear : method_tight (fun v => ret (Clear v)).
Proof. intros v h v' h' [= <- <-]. apply tight_same; reflexivity. Qed.

Lemma tight_index i : method_tight (fun v => _ <- index v i; ret v).
Proof.
  apply tight_in_place.
  - intros v. apply same_dom_bind; [| intros _; apply same_dom_ret].
    unfold index. apply same_dom_noexcept.
    apply same_dom_bind; [apply same_dom_assert | intros _; apply same_dom_ret].
  - intros v h v' h' Hrun.
    apply bind_Ok_inv in Hrun as (p & h1 & _ & [= <- _]). reflexivity.
Qed.

Lemma tight_At i : method_tight (fun v => _ <- At v i; ret v).
Proof.
  apply tight_in_place.
  - intros v. apply same_dom_bind; [| intros _; apply same_dom_ret].
    unfold At. destruct (GetSize v <=? i);
      [apply same_dom_throw | apply same_dom_ret].
  - intros v h v' h' Hrun.
    apply bind_Ok_inv in Hrun as (p & h1 & _ & [= <- _]). reflexivity.
Qed.

(** A member function keeps every block owned. *)
Lemma no_leak_method this f s s' :
  method_tight f -> no_leak s -> method this f s = Ok tt s' -> no_leak s'.
Proof.
  intros Hf Hs Hrun. unfold method in Hrun.
  apply bind_Ok_inv in Hrun as (v & s0 & Hget & Hrun).
  apply get_obj_Ok_inv in Hget as [Hx ->].
  apply bind_Ok_inv in Hrun as (v1 & s1 & Hf1 & Hput).
  apply lift_Ok_inv in Hf1 as (h1 & Hfv & ->).
  unfold put_obj in Hput. injection Hput as <-.
  intros b Hb. simpl in Hb. apply elem_of_dom in Hb.
  destruct (Hf _ _ _ _ Hfv b Hb) as [Hown | [Hold Hne]].
  - exists this, v1. simpl. rewrite lookup_insert_eq. auto.
  - apply elem_of_dom in Hold. destruct (Hs b Hold) as (y & u & Hy & Hu).
    exists y, u. simpl. rewrite lookup_insert_ne; [auto |].
    intros <-. rewrite Hx in Hy. injection Hy as <-. contradiction.
Qed.

(** A constructor's block belongs to the new object. *)
Lemma no_leak_new x v h' s s' :
  no_leak s ->
  a_ v = Some (fresh (dom (mem s))) ->
  dom h' = {[fresh (dom (mem s))]} ∪ dom (mem s) ->
  new_obj x v (mkState (objs s) h') = Ok tt s' ->
  no_leak s'.
Proof.
  intros Hs Ha Hd. unfold new_obj. simpl.
  destruct (objs s !! x) eqn:Hx; [discriminate |]. intros [= <-].
  intros b Hb. simpl in Hb. apply elem_of_dom in Hb. rewrite Hd in Hb.
  apply elem_of_union in Hb as [Hb | Hb].
  - apply elem_of_singleton in Hb as ->. exists x, v. simpl.
    rewrite lookup_insert_eq. auto.
  - apply elem_of_dom in Hb. destruct (Hs b Hb) as (y & u & Hy & Hu).
    exists y, u. simpl. rewrite lookup_insert_ne; [auto |].
    intros <-. congruence.
Qed.

Lemma ctor_fill_dom n value (h : heap) v h' :
  ctor_fill n value h = Ok v h' ->
  a_ v = Some (fresh (dom h)) /\ dom h' = {[fresh (dom h)]} ∪ dom h.
Proof.
  unfold ctor_fill. intros Hrun.
  apply bind_Ok_inv in Hrun as (a & h1 & Hnew & Hrun).
  apply ArrayPtr_new_dom in Hnew as [-> Hd1].
  apply bind_Ok_inv in Hrun as (u & h2 & Hfill & [= <- <-]).
  apply same_dom_fill in Hfill. split; [reflexivity | congruence].
Qed.

Lemma ctor_init_dom init (h : heap) v h' :
  ctor_init init h = Ok v h' ->
  a_ v = Some (fresh (dom h)) /\ dom h' = {[fresh (dom h)]} ∪ dom h.
Proof.
  unfold ctor_init. intros Hrun.
  apply bind_Ok_inv in Hrun as (a & h1 & Hnew & Hrun).
  apply ArrayPtr_new_dom in Hnew as [-> Hd1].
  apply bind_Ok_inv in Hrun as (u & h2 & Hcp & [= <- <-]).
  apply same_dom_copy_init in Hcp. split; [reflexivity | congruence].
Qed.

Lemma ctor_copy_dom other (h : heap) v h' :
  ctor_copy other h = Ok v h' ->
  a_ v = Some (fresh (dom h)) /\ dom h' = {[fresh (dom h)]} ∪ dom h.
Proof.
  unfold ctor_copy. intros Hrun.
  apply bind_Ok_inv in Hrun as (a & h1 & Hnew & Hrun).
  apply ArrayPtr_new_dom in Hnew as [-> Hd1].
  apply bind_Ok_inv in Hrun as (u & h2 & Hcp & [= <- <-]).
  apply same_dom_copy in Hcp. split; [reflexivity | congruence].
Qed.

Lemma ctor_move_dom other (h : heap) r h' :
  ctor_move other h = Ok r h' ->
  a_ (fst r) = Some (fresh (dom h)) /\ a_ (snd r) = a_ other /\
  dom h' = {[fresh (dom h)]} ∪ dom h.
Proof.
  unfold ctor_move, noexcept. intros Hrun.
  match type of Hrun with
  | match ?m with _ => _ end = _ => destruct m as [r0 h0 | |] eqn:Hm
  end; try discriminate.
  injection Hrun as <- <-.
  apply bind_Ok_inv in Hm as (a & h1 & Hnew & Hrun).
  apply ArrayPtr_new_dom in Hnew as [-> Hd1].
  apply bind_Ok_inv in Hrun as (u & h2 & Hcp & [= <- <-]).
  apply same_dom_copy in Hcp. simpl. split_and!; [reflexivity.. | congruence].
Qed.

Lemma ctor_reserve_dom obj (h : heap) v h' :
  ctor_reserve obj h = Ok v h' ->
  a_ v = Some (fresh (dom h)) /\ dom h' = {[fresh (dom h)]} ∪ dom h.
Proof.
  unfold ctor_reserve. intros Hrun.
  apply bind_Ok_inv in Hrun as (a & h1 & Hnew & [= <- <-]).
  apply ArrayPtr_new_dom in Hnew as [-> Hd1]. auto.
Qed.

Lemma no_leak_construct x (m : M SimpleVector) s s' :
  (forall h v h', m h = Ok v h' ->
     a_ v = Some (fresh (dom h)) /\ dom h' = {[fresh (dom h)]} ∪ dom h) ->
  no_leak s ->
  (v <- lift m; new_obj x v) s = Ok tt s' -> no_leak s'.
Proof.
  intros Hm Hs Hrun. apply bind_Ok_inv in Hrun as (v & s1 & Hl & Hnew).
  apply lift_Ok_inv in Hl as (h' & Hmv & ->).
  destruct (Hm _ _ _ Hmv) as [Ha Hd].
  eapply no_leak_new; eassumption.
Qed.

Lemma no_leak_NewMove x other s s' :
  no_leak s -> exec (NewMove x other) s = Ok tt s' -> no_leak s'.
Proof.
  intros Hs Hrun. cbn [exec] in Hrun.
  apply bind_Ok_inv in Hrun as (o & s0 & Hget & Hrun).
  apply get_obj_Ok_inv in Hget as [Ho ->].
  apply bind_Ok_inv in Hrun as (r & s1 & Hl & Hrun).
  apply lift_Ok_inv in Hl as (h' & Hmv & ->).
  destruct (ctor_move_dom _ _ _ _ Hmv) as (Ha1 & Ha2 & Hd).
  apply bind_Ok_inv in Hrun as (u & s2 & Hput & Hnew).
  unfold put_obj in Hput. injection Hput as <- <-. simpl in Hnew.
  unfold new_obj in Hnew. simpl in Hnew.
  destruct (<[other := snd r]> (objs s) !! x) eqn:Hx; [discriminate |].
  injection Hnew as <-.
  assert (Hxo : x <> other).
  { intros ->. rewrite lookup_insert_eq in Hx. discriminate. }
  intros b Hb. simpl in Hb. apply elem_of_dom in Hb. rewrite Hd in Hb.
  apply elem_of_union in Hb as [Hb | Hb].
  - apply elem_of_singleton in Hb as ->. exists x, (fst r). simpl.
    rewrite lookup_insert_eq. auto.
  - apply elem_of_dom in Hb. destruct (Hs b Hb) as (y & u & Hy & Hu).
    destruct (decide (y = other)) as [-> | Hyo].
    + exists other, (snd r). simpl.
      rewrite lookup_insert_ne, lookup_insert_eq by congruence.
      split; [reflexivity |]. rewrite Ha2. congruence.
    + exists y, u. simpl. rewrite lookup_insert_ne.
      * rewrite lookup_insert_ne by congruence. auto.
      * intros <-. rewrite lookup_insert_ne in Hx by congruence. congruence.
Qed.

Lemma no_leak_Delete x s s' :
  no_leak s -> exec (Delete x) s = Ok tt s' -> no_leak s'.
Proof.
  intros Hs Hrun. cbn [exec] in Hrun.
  apply bind_Ok_inv in Hrun as (v & s0 & Hget & Hrun).
  apply get_obj_Ok_inv in Hget as [Hx ->].
  apply bind_Ok_inv in Hrun as (u & s1 & Hl & Hfree).
  apply lift_Ok_inv in Hl as (h' & Hdel & ->).
  unfold free_obj in Hfree. injection Hfree as <-.
  intros b Hb. simpl in Hb. apply elem_of_dom in Hb.
  apply (ArrayPtr_delete_dom _ _ _ _ Hdel) in Hb as [Hb Hne].
  apply elem_of_dom in Hb. destruct (Hs b Hb) as (y & w & Hy & Hw).
  exists y, w. simpl. rewrite lookup_delete_ne; [auto |].
  intros <-. rewrite Hx in Hy. injection Hy as <-. contradiction.
Qed.

Lemma no_leak_op_assign this rhs s s' :
  no_leak s -> op_assign this rhs s = Ok tt s' -> no_leak s'.
Proof.
  intros Hs Hrun. unfold op_assign in Hrun.
  apply bind_Ok_inv in Hrun as (l & s0 & Hget & Hrun).
  apply get_obj_Ok_inv in Hget as [Hl ->].
  apply bind_Ok_inv in Hrun as (r & s0 & Hget & Hrun).
  apply get_obj_Ok_inv in Hget as [Hr ->].
  destruct (negb (bool_decide (this = rhs)));
    [| injection Hrun as <-; exact Hs].
  destruct (IsEmpty r).
  - unfold put_obj in Hrun. injection Hrun as <-.
    intros b Hb. simpl in Hb. destruct (Hs b Hb) as (y & u & Hy & Hu).
    destruct (decide (y = this)) as [-> | Hne].
    + exists this, (Clear l). simpl. rewrite lookup_insert_eq.
      split; [reflexivity |]. congruence.
    + exists y, u. simpl. rewrite lookup_insert_ne by congruence. auto.
  - apply bind_Ok_inv in Hrun as (c & s1 & Hcopy & Hrun).
    apply lift_Ok_inv in Hcopy as (h1 & Hcopy & ->).
    destruct (ctor_copy_dom _ _ _ _ Hcopy) as [Ha Hd]. simpl in Hrun.
    apply bind_Ok_inv in Hrun as (u & s2 & Hput & Hdel).
    unfold put_obj in Hput. injection Hput as <- <-.
    apply lift_Ok_inv in Hdel as (h2 & Hdel & ->). simpl in *.
    unfold dtor in Hdel. simpl in Hdel.
    intros b Hb. simpl in Hb. apply elem_of_dom in Hb.
    apply (ArrayPtr_delete_dom _ _ _ _ Hdel) in Hb as [Hb Hne].
    rewrite Hd in Hb. apply elem_of_union in Hb as [Hb | Hb].
    + apply elem_of_singleton in Hb as ->. eexists this, _. simpl.
      rewrite lookup_insert_eq. split; [reflexivity |]. simpl. exact Ha.
    + apply elem_of_dom in Hb. destruct (Hs b Hb) as (y & w & Hy & Hw).
      exists y, w. simpl. rewrite lookup_insert_ne; [auto |].
      intros <-. rewrite Hl in Hy. injection Hy as <-. contradiction.
Qed.

Lemma no_leak_swap_obj this other s s' :
  no_leak s -> swap_obj this other s = Ok tt s' -> no_leak s'.
Proof.
  intros Hs Hrun. unfold swap_obj in Hrun.
  apply bind_Ok_inv in Hrun as (l & s0 & Hget & Hrun).
  apply get_obj_Ok_inv in Hget as [Hl ->].
  apply bind_Ok_inv in Hrun as (o & s0 & Hget & Hrun).
  apply get_obj_Ok_inv in Hget as [Ho ->].
  simpl in Hrun. unfold bind, put_obj in Hrun. simpl in Hrun.
  injection Hrun as <-.
  intros b Hb. simpl in Hb. destruct (Hs b Hb) as (y & u & Hy & Hu).
  destruct (decide (y = other)) as [-> | Hyo].
  - rewrite Ho in Hy. injection Hy as <-.
    destruct (decide (this = other)) as [-> | Hto].
    + eexists other, _. simpl. rewrite lookup_insert_eq.
      split; [reflexivity |]. simpl. rewrite Hl in Ho. congruence.
    + eexists this, _. simpl. rewrite lookup_insert_ne, lookup_insert_eq
        by congruence.
      split; [reflexivity |]. exact Hu.
  - destruct (decide (y = this)) as [-> | Hyt].
    + rewrite Hl in Hy. injection Hy as <-.
      eexists other, _. simpl. rewrite lookup_insert_eq.
      split; [reflexivity |]. exact Hu.
    + exists y, u. simpl. rewrite !lookup_insert_ne by congruence. auto.
Qed.

Lemma no_leak_exec c s s' :
  no_leak s -> exec c s = Ok tt s' -> no_leak s'.
Proof.
  intros Hs. destruct c; cbn [exec].
  - unfold new_obj. destruct (objs s !! x) eqn:Hx; [discriminate |].
    intros [= <-] b Hb. simpl in Hb. destruct (Hs b Hb) as (y & u & Hy & Hu).
    exists y, u. simpl. rewrite lookup_insert_ne; [auto |]. congruence.
  - apply no_leak_construct; [apply ctor_fill_dom | exact Hs].
  - apply no_leak_construct; [apply ctor_fill_dom | exact Hs].
  - apply no_leak_construct; [apply ctor_init_dom | exact Hs].
  - intros Hrun. apply bind_Ok_inv in Hrun as (o & s0 & Hget & Hrun).
    apply get_obj_Ok_inv in Hget as [Ho ->].
    eapply no_leak_construct; [apply ctor_copy_dom | exact Hs | exact Hrun].
  - apply no_leak_NewMove, Hs.
  - apply no_leak_construct; [apply ctor_reserve_dom | exact Hs].
  - apply no_leak_Delete, Hs.
  - apply no_leak_op_assign, Hs.
  - apply no_leak_method; [apply tight_Reserve | exact Hs].
  - apply no_leak_method; [apply tight_PushBack | exact Hs].
  - apply no_leak_method; [apply tight_PushBack_rv | exact Hs].
  - apply no_leak_method; [apply tight_Insert | exact Hs].
  - apply no_leak_method; [apply tight_Insert_rv | exact Hs].
  - apply no_leak_method; [apply tight_PopBack | exact Hs].
  - apply no_leak_method; [apply tight_Erase | exact Hs].
  - apply no_leak_swap_obj, Hs.
  - apply no_leak_method; [apply tight_Clear | exact Hs].
  - apply no_leak_method; [apply tight_Resize | exact Hs].
  - apply no_leak_method; [apply tight_index | exact Hs].
  - apply no_leak_method; [apply tight_At | exact Hs].
Qed.

Lemma reachable_no_leak s : reachable s -> no_leak s.
Proof.
  induction 1 as [| c s s' Hr IH Hex | c s e s' Hr IH Hex].
  - intros b [buf Hb]. simpl in Hb. rewrite lookup_empty in Hb. discriminate.
  - exact (no_leak_exec c s s' IH Hex).
  - rewrite (exec_Throw_same c s e s' (reachable_wf_state s Hr) Hex). exact IH.
Qed.

(** ** Calls within their preconditions *)

Lemma defined_method this f s v :
  objs s !! this = Some v -> defined (f v (mem s)) -> defined (method this f s).
Proof.
  intros Hx Hf. unfold method, bind, get_obj. rewrite Hx. unfold lift.
  destruct (f v (mem s)); simpl in *; auto.
Qed.

Lemma defined_construct x (m : M SimpleVector) s :
  objs s !! x = None -> defined (m (mem s)) ->
  defined ((v <- lift m; new_obj x v) s).
Proof.
  intros Hx Hm. unfold bind, lift.
  destruct (m (mem s)); simpl in *; auto.
  unfold new_obj. simpl. rewrite Hx. exact I.
Qed.

Lemma PushBack_defined (h : heap) v r :
  wf h v -> usable h v r -> defined (PushBack v r h).
Proof.
  intros Hwf Hu.
  assert (Hrd : exists x, read r h = Ok x h).
  { destruct r as [y | p]; [eexists; reflexivity |].
    destruct Hu as [[x Hx] _]. exists x. apply read_slot. exact Hx. }
  destruct Hrd as [x Hrd]. rewrite (PushBack_usable h v r x Hwf Hu Hrd).
  pose proof (PushBack_post h v x Hwf) as H.
  destruct (PushBack v (Temp x) h); simpl; auto.
Qed.

Lemma Insert_defined (h : heap) v pos r :
  wf h v -> base pos = a_ v -> 0 <= off pos <= size_ v -> usable h v r ->
  defined (Insert v pos r h).
Proof.
  intros Hwf Hb Ho Hu. destruct (Insert_usable h v pos r Hwf Hu) as (y & -> & _).
  pose proof (Insert_post h v pos y Hwf Hb Ho) as H.
  destruct (Insert v pos (Temp y) h) as [[v' p] h' | |]; simpl; auto.
Qed.

Lemma PushBack_rv_defined (h : heap) v r :
  wf h v -> usable h v r -> defined (PushBack_rv v r h).
Proof.
  intros Hwf Hu. pose proof (ResizeForOneElement_post h v Hwf) as Hroe.
  pose proof (elems_length h v Hwf) as Hlen.
  unfold PushBack_rv, bind.
  destruct (ResizeForOneElement v h) as [v1 h1 | e h1 | f] eqn:Hrun;
    [| exact I | exact Hroe].
  destruct Hroe as (b1 & s & spare & Ha1 & Hb1 & Hs1 & _).
  destruct (exchange_from_Ok (ptr_add (end_ v1) (-1)) r h1) as (r' & h2 & ->).
  - unfold slot, end_, Get, ptr_add, GetSize. simpl. rewrite Ha1, Hb1.
    destruct (Z.leb_spec 0 (0 + size_ v1 + -1)); [| lia].
    replace (Z.to_nat (0 + size_ v1 + -1)) with (length (elems h v)) by lia.
    rewrite list_lookup_middle by reflexivity. eauto.
  - intros p ->. pose proof Hu as [[x Hx] _].
    rewrite (ResizeForOneElement_slot h v p x v1 h1 Hwf Hu Hx Hrun). eauto.
  - exact I.
Qed.

Lemma Insert_rv_defined (h : heap) v pos r :
  wf h v -> base pos = a_ v -> 0 <= off pos <= size_ v -> usable h v r ->
  defined (Insert_rv v pos r h).
Proof.
  intros Hwf Hb Ho Hu.
  pose proof (Insert_post h v pos dflt Hwf Hb Ho) as Hpost.
  rewrite Insert_Temp_eq in Hpost. unfold bind in Hpost.
  unfold Insert_rv, bind.
  rewrite (assert_insertable_Ok v pos h Hb Ho) in *.
  destruct (GetPosToInsert v pos h) as [r0 h1 | e h1 | f] eqn:Hgp;
    [| exact I | exact Hpost].
  destruct (exchange_from_Ok (snd r0) r h1) as (r' & h2 & ->).
  - destruct (store (snd r0) dflt h1) as [[] h2 | e h2 | f] eqn:Hst.
    + exact (proj1 (store_slot _ _ _ _ Hst)).
    + exfalso. exact (throws_store _ _ (fun _ => False) h1 e h2 Hst).
    + destruct Hpost.
  - intros p ->. destruct Hu as [[x Hx] Hown].
    destruct (GetPosToInsert_frame h v pos r0 h1 Hwf Hgp) as [Hfr Hin].
    destruct (decide (base p = a_ v)) as [Heq | Hne].
    + apply (Hin (Hown Heq)). eauto.
    + rewrite (slot_frame v h h1 p x Hx Hne Hfr). eauto.
  - exact I.
Qed.

Lemma exec_defined c s : wf_state s -> requires s c -> defined (exec c s).
Proof.
  intros Hwf Hreq. destruct c; cbn [exec requires] in *.
  - unfold new_obj. rewrite Hreq. exact I.
  - apply defined_construct; [exact Hreq |]. unfold ctor_size.
    rewrite ctor_fill_eq by apply wrap_range. destruct (grants _); exact I.
  - apply defined_construct; [exact Hreq |].
    rewrite ctor_fill_eq by apply wrap_range. destruct (grants _); exact I.
  - apply defined_construct; [exact Hreq |].
    rewrite ctor_init_eq. destruct (grants _); exact I.
  - destruct Hreq as [Hx [o Ho]]. unfold bind at 1, get_obj. rewrite Ho.
    apply defined_construct; [exact Hx |].
    pose proof (ctor_copy_post (mem s) o (proj1 Hwf _ _ Ho)) as H.
    destruct (ctor_copy o (mem s)); simpl; auto.
  - destruct Hreq as [Hx (o & Ho & Hg)]. unfold bind, get_obj. rewrite Ho.
    unfold lift.
    pose proof (ctor_move_post (mem s) o (proj1 Hwf _ _ Ho)) as H.
    destruct (ctor_move o (mem s)) as [[d v'] h' | |]; simpl; auto.
    + unfold new_obj. simpl.
      rewrite lookup_insert_ne by (intros ->; congruence).
      rewrite Hx. exact I.
    + destruct H as [_ Hf]. congruence.
  - apply defined_construct; [exact Hreq |].
    rewrite ctor_reserve_eq. destruct (grants _); exact I.
  - destruct Hreq as [v Hx]. unfold bind, get_obj. rewrite Hx.
    unfold lift, dtor, ArrayPtr_delete.
    destruct (proj1 Hwf _ _ Hx) as (_ & _ & Hb).
    destruct (a_ v) as [b |]; [| exact I].
    destruct Hb as (buf & -> & _). exact I.
  - destruct Hreq as [[l Hl] [r Hr]].
    destruct (decide (this = rhs)) as [-> | Hne].
    + unfold op_assign, bind, get_obj. rewrite Hl. simpl. rewrite Hl.
      rewrite bool_decide_eq_true_2 by reflexivity. exact I.
    + pose proof (op_assign_post s this rhs l r Hl Hr Hne
                    (proj1 Hwf _ _ Hl) (proj1 Hwf _ _ Hr)
                    (fun b Hb => proj2 Hwf this rhs l r b Hne Hl Hr Hb)) as H.
      destruct (op_assign this rhs s); simpl; auto.
  - destruct Hreq as [v Hx]. apply (defined_method _ _ _ v Hx).
    pose proof (proj1 Hwf _ _ Hx) as Hv.
    destruct (Z.le_gt_cases (wrap new_capacity) (capacity_ v)).
    + rewrite Reserve_enough by assumption. exact I.
    + destruct (grants (wrap new_capacity)) eqn:Hg.
      * rewrite Reserve_grow by assumption. exact I.
      * rewrite Reserve_Throw by assumption. exact I.
  - destruct Hreq as (v & Hx & Hu). apply (defined_method _ _ _ v Hx).
    exact (PushBack_defined (mem s) v item (proj1 Hwf _ _ Hx) Hu).
  - destruct Hreq as (v & Hx & Hu). apply (defined_method _ _ _ v Hx).
    pose proof (PushBack_rv_defined (mem s) v item (proj1 Hwf _ _ Hx) Hu) as H.
    unfold bind. destruct (PushBack_rv v item (mem s)); simpl; auto.
  - destruct Hreq as (v & Hx & Hb & Ho & Hu). apply (defined_method _ _ _ v Hx).
    pose proof (Insert_defined (mem s) v pos value (proj1 Hwf _ _ Hx) Hb Ho Hu)
      as H.
    unfold bind. destruct (Insert v pos value (mem s)); simpl; auto.
  - destruct Hreq as (v & Hx & Hb & Ho & Hu). apply (defined_method _ _ _ v Hx).
    pose proof (Insert_rv_defined (mem s) v pos value (proj1 Hwf _ _ Hx) Hb Ho Hu)
      as H.
    unfold bind. destruct (Insert_rv v pos value (mem s)); simpl; auto.
  - destruct Hreq as (v & Hx & Hpos). apply (defined_method _ _ _ v Hx).
    rewrite PopBack_Ok by (try apply (proj1 Hwf _ _ Hx); exact Hpos). exact I.
  - destruct Hreq as (v & Hx & Hb & Ho). apply (defined_method _ _ _ v Hx).
    destruct (Erase_post (mem s) v pos (proj1 Hwf _ _ Hx) Hb Ho)
      as (h' & Her & _).
    unfold bind. rewrite Her. exact I.
  - destruct Hreq as [[l Hl] [o Ho]].
    unfold swap_obj, bind, get_obj. rewrite Hl. simpl. rewrite Ho. exact I.
  - destruct Hreq as [v Hx]. apply (defined_method _ _ _ v Hx). exact I.
  - destruct Hreq as [v Hx]. apply (defined_method _ _ _ v Hx).
    pose proof (Resize_post (mem s) v (wrap new_size) (proj1 Hwf _ _ Hx)
                  (proj1 (wrap_range _))) as H.
    destruct (Resize v (wrap new_size) (mem s)); simpl; auto.
  - destruct Hreq as (v & Hx & Hi). apply (defined_method _ _ _ v Hx).
    unfold bind, index, noexcept, bind, assert, GetSize.
    destruct (Z.ltb_spec (wrap i) (size_ v)); [exact I | lia].
  - destruct Hreq as [v Hx]. apply (defined_method _ _ _ v Hx).
    unfold bind. rewrite At_eq. destruct (size_ v <=? wrap i); exact I.
Qed.

(** ** Appending items given by reference *)

Lemma usable_read (h : heap) v r :
  usable h v r -> exists x, read r h = Ok x h.
Proof.
  destruct r as [y | p]; [eexists; reflexivity |].
  intros [[x Hx] _]. exists x. apply read_slot. exact Hx.
Qed.

(** [PushBack] and [Insert] have undefined behaviour only on an item that
    is not usable. *)
Lemma PushBack_Fault_unusable (h : heap) v r f :
  wf h v -> PushBack v r h = Fault f -> ~ usable h v r.
Proof.
  intros Hwf Hf Hu. destruct (usable_read h v r Hu) as [x Hrd].
  rewrite (PushBack_usable h v r x Hwf Hu Hrd) in Hf.
  pose proof (PushBack_post h v x Hwf) as Hp. rewrite Hf in Hp. exact Hp.
Qed.


Lemma denotes_updates (h : heap) v r x v' h' :
  denotes h v r x -> updates v h v' h' -> denotes h' v' r x.
Proof.
  intros Hd (_ & Hfr & Hhandle). destruct r as [z | p]; [exact Hd |].
  destruct Hd as [Hslot Hne]. split; [eapply slot_frame; eassumption |].
  destruct Hhandle as [-> | (b & -> & Hnone)]; [exact Hne |].
  intros Hb. unfold slot in Hslot. rewrite Hb, Hnone in Hslot. discriminate.
Qed.

Lemma denotes_PushBack (h : heap) v r x y v1 h1 :
  wf h v -> denotes h v r x -> PushBack v (Temp y) h = Ok v1 h1 ->
  denotes h1 v1 r x.
Proof.
  intros Hwf Hd Hrun. pose proof (PushBack_post h v y Hwf) as Hp.
  rewrite Hrun in Hp. destruct Hp as (_ & _ & _ & _ & Hsame & Hfr & Hnew).
  pose proof Hwf as (Hs & _).
  destruct r as [z | p]; [exact Hd |]. destruct Hd as [Hslot Hne].
  split; [eapply slot_frame; eassumption |].
  destruct (Z.eq_dec (size_ v) (capacity_ v)) as [Heq | Hneq].
  - rewrite (Hnew Heq). intros Hb. unfold slot in Hslot. rewrite Hb in Hslot.
    rewrite fresh_None in Hslot. discriminate.
  - rewrite (Hsame ltac:(lia)). exact Hne.
Qed.

(** Items that are not slots of the container's own block are appended as
    the values they hold. *)
Lemma push_all_denotes rs : forall xs (h : heap) v,
  wf h v -> Forall2 (denotes h v) rs xs ->
  push_all rs v h = push_all (Temp <$> xs) v h.
Proof.
  induction rs as [| r rs IH]; intros xs h v Hwf Hall.
  - apply Forall2_nil_inv_l in Hall as ->. reflexivity.
  - apply Forall2_cons_inv_l in Hall as (x & xs' & Hd & Hall & ->).
    rewrite fmap_cons. cbn [push_all]. unfold bind.
    destruct (denotes_usable h v r x Hd) as [Hu Hrd].
    rewrite (PushBack_usable h v r x Hwf Hu Hrd).
    pose proof (PushBack_post h v x Hwf) as Hp.
    destruct (PushBack v (Temp x) h) as [v1 h1 | |] eqn:Hrun; try reflexivity.
    apply IH; [apply Hp |].
    eapply Forall2_impl; [exact Hall |].
    intros r0 x0 Hd0. exact (denotes_PushBack h v r0 x0 x v1 h1 Hwf Hd0 Hrun).
Qed.

(** ** The rvalue overloads on items outside the container *)

Lemma ResizeForOneElement_ready (h : heap) v v1 h1 :
  wf h v -> ResizeForOneElement v h = Ok v1 h1 ->
  is_Some (slot h1 (ptr_add (end_ v1) (-1))) /\
  (a_ v1 = a_ v \/ exists b, a_ v1 = Some b /\ h !! b = None) /\
  frame v h h1.
Proof.
  intros Hwf Hrun. pose proof (ResizeForOneElement_post h v Hwf) as Hroe.
  pose proof (elems_length h v Hwf) as Hlen. pose proof Hwf as (Hs & _).
  rewrite Hrun in Hroe.
  destruct Hroe as (b1 & s & spare & Ha1 & Hb1 & Hs1 & _ & _ & _ & Hsame & Hfresh & Hfr).
  split_and!.
  - unfold slot, end_, Get, ptr_add, GetSize. simpl. rewrite Ha1, Hb1.
    destruct (Z.leb_spec 0 (0 + size_ v1 + -1)); [| lia].
    replace (Z.to_nat (0 + size_ v1 + -1)) with (length (elems h v)) by lia.
    rewrite list_lookup_middle by reflexivity. eauto.
  - destruct (Z.eq_dec (size_ v) (capacity_ v)) as [Heq | Hne].
    + right. exists b1. split; [exact Ha1 |]. rewrite (Hfresh Heq).
      apply fresh_None.
    + left. apply Hsame. lia.
  - exact Hfr.
Qed.

Lemma GetPosToInsert_ready (h : heap) v pos r0 h1 :
  wf h v -> base pos = a_ v -> 0 <= off pos <= size_ v ->
  GetPosToInsert v pos h = Ok r0 h1 ->
  is_Some (slot h1 (snd r0)) /\ base (snd r0) = a_ (fst r0) /\
  (a_ (fst r0) = a_ v \/ exists b, a_ (fst r0) = Some b /\ h !! b = None) /\
  frame v h h1.
Proof.
  intros Hwf Hb Ho Hgp. pose proof Hwf as (Hs & _).
  pose proof (Insert_post h v pos dflt Hwf Hb Ho) as Hpost.
  rewrite Insert_Temp_eq in Hpost. unfold bind in Hpost.
  rewrite (assert_insertable_Ok v pos h Hb Ho), Hgp in Hpost.
  destruct (store (snd r0) dflt h1) as [[] h2 | e h2 | f] eqn:Hst.
  - unfold ret in Hpost. destruct r0 as [v' p].
    destruct Hpost as (_ & _ & _ & _ & -> & _ & Hsame & _ & Hnew).
    split_and!.
    + exact (proj1 (store_slot _ _ _ _ Hst)).
    + reflexivity.
    + simpl. destruct (Z.eq_dec (size_ v) (capacity_ v)) as [Heq | Hne].
      * right. exists (fresh (dom h)). split; [apply Hnew, Heq | apply fresh_None].
      * left. apply Hsame. lia.
    + exact (proj1 (GetPosToInsert_frame h v pos _ h1 Hwf Hgp)).
  - exfalso. exact (throws_store _ _ (fun _ => False) h1 e h2 Hst).
  - destruct Hpost.
Qed.

(** The slot of an item outside the container's block, once the buffer is
    ready. *)
Lemma denotes_ready (h h1 : heap) v (a1 : option nat) r x :
  denotes h v r x ->
  (a1 = a_ v \/ exists b, a1 = Some b /\ h !! b = None) -> frame v h h1 ->
  read r h1 = Ok x h1 /\ forall p, r = RefTo p -> base p <> a1.
Proof.
  intros Hd Ha Hfr. destruct r as [y | p].
  - split; [apply read_slot; exact Hd | discriminate].
  - destruct Hd as [Hslot Hne]. split.
    + apply read_slot. eapply slot_frame; eassumption.
    + intros p0 [= <-]. destruct Ha as [-> | (b & -> & Hnone)]; [exact Hne |].
      intros Hb. unfold slot in Hslot. rewrite Hb, Hnone in Hslot. discriminate.
Qed.

Lemma PushBack_rv_denotes (h : heap) v r x :
  wf h v -> denotes h v r x ->
  PushBack_rv v r h
  = (v' <- PushBack v r; r' <- write r (moved x); ret (v', r')) h.
Proof.
  intros Hwf Hd. destruct (denotes_usable h v r x Hd) as [Hu Hrd].
  unfold bind at 1. rewrite (PushBack_usable h v r x Hwf Hu Hrd), PushBack_Temp_eq.
  unfold PushBack_rv. unfold bind at 1.
  destruct (ResizeForOneElement v h) as [v1 h1 | |] eqn:Hrun; try reflexivity.
  destruct (ResizeForOneElement_ready h v v1 h1 Hwf Hrun) as (Hdst & Ha & Hfr).
  destruct (denotes_ready h h1 v (a_ v1) r x Hd Ha Hfr) as [Hrd1 Hout].
  unfold bind at 1.
  rewrite (exchange_from_outside (ptr_add (end_ v1) (-1)) r x h1 Hdst Hrd1 Hout).
  unfold bind. destruct (store _ x h1) as [[] h2 | e2 h2 | f2];
    try reflexivity; destruct (write r (moved x) h2); reflexivity.
Qed.

Lemma Insert_rv_denotes (h : heap) v pos r x :
  wf h v -> base pos = a_ v -> 0 <= off pos <= size_ v -> denotes h v r x ->
  Insert_rv v pos r h
  = (q <- Insert v pos r; r' <- write r (moved x); ret (q, r')) h.
Proof.
  intros Hwf Hb Ho Hd. destruct (denotes_usable h v r x Hd) as [Hu Hrd].
  destruct (Insert_usable h v pos r Hwf Hu) as (y & Heq & Hy).
  rewrite (Hy x Hd) in Heq.
  pose proof (assert_insertable_Ok v pos h Hb Ho) as Has.
  assert (HR : (q <- Insert v pos r; r' <- write r (moved x); ret (q, r')) h
               = match Insert v pos (Temp x) h with
                 | Ok q h' => (r' <- write r (moved x); ret (q, r')) h'
                 | Throw e h' => Throw e h'
                 | Fault f => Fault f
                 end)
    by (unfold bind at 1; rewrite Heq; reflexivity).
  rewrite HR, Insert_Temp_eq. clear HR.
  destruct (GetPosToInsert v pos h) as [r0 h1 | e h1 | f] eqn:Hgp.
  - destruct (GetPosToInsert_ready h v pos r0 h1 Hwf Hb Ho Hgp)
      as (Hdst & Hbase & Ha & Hfr).
    destruct (denotes_ready h h1 v (a_ (fst r0)) r x Hd Ha Hfr) as [Hrd1 Hout].
    rewrite <- Hbase in Hout.
    pose proof (exchange_from_outside (snd r0) r x h1 Hdst Hrd1 Hout) as Hex.
    unfold Insert_rv, bind in *. rewrite Has, Hgp, Hex.
    destruct (store _ x h1) as [[] h2 | e2 h2 | f2];
      try reflexivity; destruct (write r (moved x) h2); reflexivity.
  - unfold Insert_rv, bind. rewrite Has, Hgp. reflexivity.
  - unfold Insert_rv, bind. rewrite Has, Hgp. reflexivity.
Qed.

(** Writing to an item outside the container's block leaves the container
    as it is. *)
Lemma write_outside (h1 : heap) v r x y :
  wf h1 v -> denotes h1 v r x ->
  exists r' h2,
    write r y h1 = Ok r' h2 /\ elems h2 v = elems h1 v /\ wf h2 v /\
    read r' h2 = Ok y h2.
Proof.
  intros Hwf Hd. destruct r as [z | p].
  - exists (Temp y), h1. auto.
  - destruct Hd as [Hslot Hne].
    destruct (store_Ok_slot p y h1 ltac:(eauto)) as [h2 Hst].
    exists (RefTo p), h2. cbn [write]. erewrite bind_Ok by exact Hst.
    destruct (in_place_store p y h1 tt h2 Hst) as [Hother Hlen].
    split_and!.
    + reflexivity.
    + unfold elems, buffer. destruct (a_ v) as [b |]; [| reflexivity].
      rewrite Hother by congruence. reflexivity.
    + eapply wf_same_length; eassumption.
    + apply read_slot. exact (proj2 (store_slot _ _ _ _ Hst)).
Qed.

(** [PushBack(Type&&)] on an item outside the container's block: the
    value is appended and the item is left moved-from. *)
Lemma PushBack_rv_post (h : heap) v r x :
  wf h v -> denotes h v r x ->
  match PushBack_rv v r h with
  | Ok (v', r') h' =>
      wf h' v' /\
      elems h' v' = elems h v ++ [x] /\
      size_ v' = size_ v + 1 /\
      capacity_ v' = grown_capacity v /\
      read r' h' = Ok (moved x) h'
  | Throw e h' =>
      e = BadAlloc /\ h' = h /\ size_ v = capacity_ v /\
      grants (grown_capacity v) = false
  | Fault _ => False
  end.
Proof.
  intros Hwf Hd. destruct (denotes_usable h v r x Hd) as [Hu Hrd].
  rewrite (PushBack_rv_denotes h v r x Hwf Hd). unfold bind at 1.
  rewrite (PushBack_usable h v r x Hwf Hu Hrd).
  pose proof (PushBack_post h v x Hwf) as Hp.
  destruct (PushBack v (Temp x) h) as [v1 h1 | e h1 | f] eqn:Hrun;
    [| exact Hp | exact Hp].
  pose proof (denotes_PushBack h v r x x v1 h1 Hwf Hd Hrun) as Hd1.
  destruct Hp as (Hwf1 & Hel & Hsz & Hcap & _).
  destruct (write_outside h1 v1 r x (moved x) Hwf1 Hd1)
    as (r' & h2 & Hw & Hel2 & Hwf2 & Hrd2).
  unfold bind. rewrite Hw. unfold ret. split_and!; try assumption.
  rewrite Hel2. exact Hel.
Qed.

(** [Insert(pos, Type&&)] likewise. *)
Lemma Insert_rv_post (h : heap) v pos r x :
  wf h v -> base pos = a_ v -> 0 <= off pos <= size_ v -> denotes h v r x ->
  match Insert_rv v pos r h with
  | Ok (v', p, r') h' =>
      wf h' v' /\
      elems h' v' = take (Z.to_nat (off pos)) (elems h v)
                      ++ x :: drop (Z.to_nat (off pos)) (elems h v) /\
      size_ v' = size_ v + 1 /\
      capacity_ v' = grown_capacity v /\
      p = Ptr (a_ v') (off pos) /\
      read r' h' = Ok (moved x) h'
  | Throw e h' =>
      e = BadAlloc /\ h' = h /\ size_ v = capacity_ v /\
      grants (grown_capacity v) = false
  | Fault _ => False
  end.
Proof.
  intros Hwf Hb Ho Hd. destruct (denotes_usable h v r x Hd) as [Hu Hrd].
  rewrite (Insert_rv_denotes h v pos r x Hwf Hb Ho Hd). unfold bind at 1.
  destruct (Insert_usable h v pos r Hwf Hu) as (y & Heq & Hy).
  rewrite (Hy x Hd) in Heq. rewrite Heq.
  pose proof (Insert_post h v pos x Hwf Hb Ho) as Hp. pose proof Hwf as (Hs & _).
  destruct (Insert v pos (Temp x) h) as [[v1 p] h1 | e h1 | f] eqn:Hrun;
    [| exact Hp | exact Hp].
  destruct Hp as (Hwf1 & Hel & Hsz & Hcap & Hpos & _ & Hsame & Hfr & Hnew).
  assert (Hup : updates v h v1 h1).
  { split; [exact Hwf1 |]. split; [exact Hfr |].
    destruct (Z.eq_dec (size_ v) (capacity_ v)) as [Hfull | Hroom].
    - right. exists (fresh (dom h)). split; [apply Hnew, Hfull | apply fresh_None].
    - left. apply Hsame. lia. }
  pose proof (denotes_updates h v r x v1 h1 Hd Hup) as Hd1.
  destruct (write_outside h1 v1 r x (moved x) Hwf1 Hd1)
    as (r' & h2 & Hw & Hel2 & Hwf2 & Hrd2).
  unfold bind. rewrite Hw. unfold ret. split_and!; try assumption.
  rewrite Hel2. exact Hel.
Qed.

Lemma run_reachable cs : forall s s',
  reachable s -> run cs s = Ok tt s' -> reachable s'.
Proof.
  induction cs as [| c cs IH]; intros s s' Hr Hrun.
  - injection Hrun as <-. exact Hr.
  - simpl in Hrun. unfold bind in Hrun.
    destruct (exec c s) as [[] s1 | |] eqn:Hex; try discriminate.
    eapply IH; [| exact Hrun]. eapply reach_ok; [exact Hr | exact Hex].
Qed.

(** ** Comparison operators *)

Section ComparisonFacts.

Variable eqb : T -> T -> bool.
Variable ltb : T -> T -> bool.

Lemma load_elems (h : heap) v (k : nat) x :
  wf h v -> elems h v !! k = Some x ->
  load (Ptr (a_ v) (Z.of_nat k)) h = Ok x h.
Proof.
  intros Hwf Hk. pose proof (lookup_lt_Some _ _ _ Hk) as Hlt.
  pose proof (elems_length h v Hwf) as Hlen.
  destruct (slot_elems h v (Z.of_nat k) Hwf ltac:(lia)) as [Hslot _].
  rewrite Nat2Z.id, Hk in Hslot. unfold load. rewrite Hslot. reflexivity.
Qed.

Lemma equal_n_reads (h : heap) a1 a2 : forall (xs ys : list T) (i j : nat),
  length xs = length ys ->
  (forall k x, xs !! k = Some x ->
     load (Ptr a1 (Z.of_nat (i + k))) h = Ok x h) ->
  (forall k y, ys !! k = Some y ->
     load (Ptr a2 (Z.of_nat (j + k))) h = Ok y h) ->
  equal_n eqb (length xs) (Ptr a1 (Z.of_nat i)) (Ptr a2 (Z.of_nat j)) h
  = Ok (all_eqb eqb xs ys) h.
Proof.
  induction xs as [| x xs IH]; intros [| y ys] i j Hlen H1 H2;
    try discriminate; [reflexivity |].
  simpl. unfold bind.
  pose proof (H1 0%nat x eq_refl) as Hx. rewrite Nat.add_0_r in Hx.
  pose proof (H2 0%nat y eq_refl) as Hy. rewrite Nat.add_0_r in Hy.
  rewrite Hx, Hy. destruct (eqb x y); [| reflexivity]. simpl.
  rewrite !ptr_add_succ. apply IH.
  - simpl in Hlen. lia.
  - intros k z Hk. replace (S i + k)%nat with (i + S k)%nat by lia.
    apply H1. exact Hk.
  - intros k z Hk. replace (S j + k)%nat with (j + S k)%nat by lia.
    apply H2. exact Hk.
Qed.

Lemma lexicographical_compare_n_reads (h : heap) a1 a2 :
  forall (xs ys : list T) (i j : nat),
  (forall k x, xs !! k = Some x ->
     load (Ptr a1 (Z.of_nat (i + k))) h = Ok x h) ->
  (forall k y, ys !! k = Some y ->
     load (Ptr a2 (Z.of_nat (j + k))) h = Ok y h) ->
  lexicographical_compare_n ltb (length xs) (length ys)
    (Ptr a1 (Z.of_nat i)) (Ptr a2 (Z.of_nat j)) h
  = Ok (lex_ltb ltb xs ys) h.
Proof.
  induction xs as [| x xs IH]; intros [| y ys] i j H1 H2; try reflexivity.
  simpl. unfold bind.
  pose proof (H1 0%nat x eq_refl) as Hx. rewrite Nat.add_0_r in Hx.
  pose proof (H2 0%nat y eq_refl) as Hy. rewrite Nat.add_0_r in Hy.
  rewrite Hx, Hy. destruct (ltb x y); [reflexivity |].
  destruct (ltb y x); [reflexivity |].
  rewrite !ptr_add_succ. apply IH.
  - intros k z Hk. replace (S i + k)%nat with (i + S k)%nat by lia.
    apply H1. exact Hk.
  - intros k z Hk. replace (S j + k)%nat with (j + S k)%nat by lia.
    apply H2. exact Hk.
Qed.

Lemma range_elems (h : heap) v :
  wf h v -> range (begin_ v) (end_ v) h = Ok (length (elems h v)) h.
Proof.
  intros Hwf. pose proof (elems_length h v Hwf) as Hlen.
  pose proof Hwf as (Hs & _).
  unfold begin_, end_, Get, ptr_add, GetSize. simpl.
  rewrite range_same by lia. do 2 f_equal. lia.
Qed.

(** [operator==] reads the two element sequences and changes nothing. *)
Lemma op_eq_eval (s : state) lhs rhs l r :
  wf (mem s) l -> wf (mem s) r ->
  objs s !! lhs = Some l -> objs s !! rhs = Some r ->
  op_eq eqb lhs rhs s
  = Ok (bool_decide (lhs = rhs) ||
        ((size_ l =? size_ r) &&
         all_eqb eqb (elems (mem s) l) (elems (mem s) r))) s.
Proof.
  intros Hwl Hwr Hl Hr. unfold op_eq, bind, get_obj. rewrite Hl. simpl.
  rewrite Hr. case_bool_decide; [reflexivity |]. simpl.
  unfold GetSize. destruct (Z.eqb_spec (size_ l) (size_ r)) as [Heq | Hne];
    [| reflexivity].
  simpl. unfold lift, equal, bind. rewrite (range_elems _ _ Hwl).
  unfold begin_, Get.
  pose proof (equal_n_reads (mem s) (a_ l) (a_ r) (elems (mem s) l)
                (elems (mem s) r) 0 0) as Hrd.
  change (Z.of_nat 0) with 0 in Hrd. rewrite Hrd.
  - rewrite state_eta. reflexivity.
  - pose proof (elems_length _ _ Hwl). pose proof (elems_length _ _ Hwr). lia.
  - intros k x Hk. apply load_elems; assumption.
  - intros k x Hk. apply load_elems; assumption.
Qed.

(** [operator<] is the lexicographic comparison of the two element
    sequences and changes nothing. *)
Lemma op_lt_eval (s : state) lhs rhs l r :
  wf (mem s) l -> wf (mem s) r ->
  objs s !! lhs = Some l -> objs s !! rhs = Some r ->
  op_lt ltb lhs rhs s
  = Ok (lex_ltb ltb (elems (mem s) l) (elems (mem s) r)) s.
Proof.
  intros Hwl Hwr Hl Hr. unfold op_lt, bind, get_obj. rewrite Hl. simpl.
  rewrite Hr. unfold lift, lexicographical_compare, bind.
  rewrite (range_elems _ _ Hwl), (range_elems _ _ Hwr).
  unfold begin_, Get.
  pose proof (lexicographical_compare_n_reads (mem s) (a_ l) (a_ r)
                (elems (mem s) l) (elems (mem s) r) 0 0) as Hrd.
  change (Z.of_nat 0) with 0 in Hrd. rewrite Hrd.
  - rewrite state_eta. reflexivity.
  - intros k x Hk. apply load_elems; assumption.
  - intros k x Hk. apply load_elems; assumption.
Qed.

Lemma all_eqb_eq (xs ys : list T) :
  (forall x y, eqb x y = true <-> x = y) ->
  length xs = length ys ->
  (all_eqb eqb xs ys = true <-> xs = ys).
Proof.
  intros Heqb. revert ys.
  induction xs as [| x xs IH]; intros [| y ys] Hlen; try discriminate;
    [split; reflexivity |].
  simpl. rewrite andb_true_iff, Heqb, IH by (simpl in Hlen; lia).
  split; [intros [-> ->]; reflexivity | intros [= -> ->]; auto].
Qed.

Lemma all_eqb_refl (xs : list T) :
  (forall x, eqb x x = true) -> all_eqb eqb xs xs = true.
Proof.
  intros Hrefl. induction xs as [| x xs IH]; [reflexivity |].
  simpl. rewrite Hrefl, IH. reflexivity.
Qed.

Lemma all_eqb_sym (xs ys : list T) :
  (forall x y, eqb x y = eqb y x) -> all_eqb eqb xs ys = all_eqb eqb ys xs.
Proof.
  intros Hsym. revert ys.
  induction xs as [| x xs IH]; intros [| y ys]; try reflexivity.
  simpl. rewrite Hsym, IH. reflexivity.
Qed.

Lemma all_eqb_diag (xs : list T) :
  all_eqb eqb xs xs = forallb (fun e => eqb e e) xs.
Proof.
  induction xs as [| x xs IH]; [reflexivity |]. simpl. rewrite IH. reflexivity.
Qed.

Lemma lex_ltb_irrefl (xs : list T) :
  (forall x, ltb x x = false) -> lex_ltb ltb xs xs = false.
Proof.
  intros Hirr. induction xs as [| x xs IH]; [reflexivity |].
  simpl. rewrite Hirr. exact IH.
Qed.

Lemma lex_ltb_prefix (p t1 t2 : list T) :
  (forall x, ltb x x = false) ->
  lex_ltb ltb (p ++ t1) (p ++ t2) = lex_ltb ltb t1 t2.
Proof.
  intros Hirr. induction p as [| x p IH]; [reflexivity |].
  simpl. rewrite Hirr. exact IH.
Qed.

(** With an order in which [x < y] excludes [y < x], and an equality that
    holds exactly where neither is less, "not greater" is "less or equal". *)
Lemma lex_ltb_le (xs ys : list T) :
  (forall x y, ltb x y = true -> ltb y x = false) ->
  (forall x y, eqb x y = negb (ltb x y) && negb (ltb y x)) ->
  negb (lex_ltb ltb ys xs)
  = lex_ltb ltb xs ys ||
    ((Z.of_nat (length xs) =? Z.of_nat (length ys)) && all_eqb eqb xs ys).
Proof.
  intros Hasym Heqb. revert ys.
  induction xs as [| x xs IH]; intros [| y ys]; try reflexivity.
  simpl lex_ltb. simpl all_eqb. rewrite Heqb.
  replace (Z.of_nat (length (x :: xs)) =? Z.of_nat (length (y :: ys)))
    with (Z.of_nat (length xs) =? Z.of_nat (length ys))
    by (simpl length; destruct (Z.eqb_spec (Z.of_nat (length xs))
                                  (Z.of_nat (length ys)));
        destruct (Z.eqb_spec (Z.of_nat (S (length xs)))
                    (Z.of_nat (S (length ys)))); lia || reflexivity).
  destruct (ltb x y) eqn:Hxy.
  - rewrite (Hasym _ _ Hxy). reflexivity.
  - destruct (ltb y x) eqn:Hyx.
    + simpl. rewrite andb_false_r. reflexivity.
    + simpl. apply IH.
Qed.

End ComparisonFacts.

End Container.

Arguments state T : clear implicits.
Arguments call T : clear implicits.
Arguments cref T : clear implicits.

(** * The claims *)



(** C4 (checked access).  [At(index)] throws [std::out_of_range] exactly
    when [index >= size]; in particular [At(size)] throws, and an index below
    the size (such as [size - 1] of a non-empty container) gives a reference
    to the element of that index.  No other call throws it: whatever another
    call throws is the allocator's [std::bad_alloc]. *)
Theorem At_checked {T} (dflt : T) (moved : T -> T) (can_alloc : Z -> bool)
    (h : gmap nat (list T)) (v : SimpleVector) (Hwf : wf h v) :
  (forall i, At v i h = Throw OutOfRange h <-> size_ v <= i) /\
  At v (size_ v) h = Throw OutOfRange h /\
  (forall i, 0 <= i < size_ v ->
     exists x, At v i h = Ok (Ptr (a_ v) i) h /\
               slot h (Ptr (a_ v) i) = Some x /\
               elems h v !! Z.to_nat i = Some x) /\
  (0 < size_ v ->
     exists x, At v (size_ v - 1) h = Ok (Ptr (a_ v) (size_ v - 1)) h /\
               slot h (Ptr (a_ v) (size_ v - 1)) = Some x /\
               elems h v !! Z.to_nat (size_ v - 1) = Some x) /\
  (forall c s e s',
     exec dflt moved can_alloc c s = Throw e s' ->
     match c with CallAt _ _ => e = OutOfRange | _ => e = BadAlloc end).
Proof.
  assert (Hin : forall i, 0 <= i < size_ v ->
     exists x, At v i h = Ok (Ptr (a_ v) i) h /\
               slot h (Ptr (a_ v) i) = Some x /\
               elems h v !! Z.to_nat i = Some x).
  { intros i Hi. destruct (slot_elems h v i Hwf Hi) as (Hslot & x & Hx).
    exists x. rewrite At_eq. destruct (Z.leb_spec (size_ v) i); [lia |].
    rewrite Hslot. auto. }
  split_and!.
  - intros i. rewrite At_eq. destruct (Z.leb_spec (size_ v) i).
    + tauto.
    + split; [discriminate | lia].
  - rewrite At_eq, Z.leb_refl. reflexivity.
  - exact Hin.
  - intros Hpos. apply Hin. lia.
  - intros c s e s' H. exact (throws_exec dflt moved can_alloc c s e s' H).
Qed.

Lemma At_checked_witness :
  wf ({[ 0%nat := [1; 2; 3] ]} : gmap nat (list Z)) (mkVec (Some 0%nat) 3 3) /\
  At (mkVec (Some 0%nat) 3 3) 3 ({[ 0%nat := [1; 2; 3] ]} : gmap nat (list Z))
  = Throw OutOfRange {[ 0%nat := [1; 2; 3] ]}.
Proof.
  assert (Hwf : wf ({[ 0%nat := [1; 2; 3] ]} : gmap nat (list Z))
                  (mkVec (Some 0%nat) 3 3)).
  { unfold wf. simpl. split; [lia |]. split; [rewrite PTRDIFF_MAX_val; lia |].
    exists [1; 2; 3]. split; [reflexivity | simpl; lia]. }
  split; [exact Hwf |].
  exact (proj1 (proj2 (At_checked 0 id (fun _ => true) _ _ Hwf))).
Defined.






(** C7 (reservation).  [Reserve(n)] with [n] above the capacity sets the
    capacity to exactly [n] and keeps the size and the elements: the
    container then holds a new block of exactly [n] slots, the old block is
    released and every other block is untouched (it throws [std::bad_alloc],
    changing nothing, exactly when the allocator refuses the block).  On an
    empty container, reserving 10 gives size 0 and capacity 10; five appends
    give size 5 in the same block, capacity 10; six more give size 11 and
    capacity 20. *)
Theorem Reserve_exact :
  (forall T (dflt : T) (moved : T -> T) (can_alloc : Z -> bool)
          (h : gmap nat (list T)) (v : SimpleVector) (n : Z),
     wf h v -> capacity_ v < n ->
     match Reserve dflt moved can_alloc v n h with
     | Ok v' h' =>
         capacity_ v' = n /\ size_ v' = size_ v /\ elems h' v' = elems h v /\
         wf h' v' /\
         (exists b buf,
            a_ v' = Some b /\ h !! b = None /\
            h' !! b = Some buf /\ Z.of_nat (length buf) = n) /\
         (forall b, a_ v = Some b -> h' !! b = None) /\
         frame v h h' /\
         grants can_alloc n = true
     | Throw e h' => e = BadAlloc /\ h' = h /\ grants can_alloc n = false
     | Fault _ => False
     end) /\
  run 0 id (fun _ => true) [New 0%nat; CallReserve 0%nat 10]
    (mkState ∅ ∅ : state Z)
  = Ok tt (mkState {[ 0%nat := mkVec (Some 0%nat) 0 10 ]}
                   {[ 0%nat := replicate 10 0 ]}) /\
  run 0 id (fun _ => true)
    (map (fun x => CallPushBack 0%nat (Temp x)) [1; 2; 3; 4; 5])
    (mkState {[ 0%nat := mkVec (Some 0%nat) 0 10 ]} {[ 0%nat := replicate 10 0 ]})
  = Ok tt (mkState {[ 0%nat := mkVec (Some 0%nat) 5 10 ]}
                   {[ 0%nat := [1; 2; 3; 4; 5; 0; 0; 0; 0; 0] ]}) /\
  run 0 id (fun _ => true)
    (map (fun x => CallPushBack 0%nat (Temp x)) [6; 7; 8; 9; 10; 11])
    (mkState {[ 0%nat := mkVec (Some 0%nat) 5 10 ]}
             {[ 0%nat := [1; 2; 3; 4; 5; 0; 0; 0; 0; 0] ]})
  = Ok tt (mkState {[ 0%nat := mkVec (Some 1%nat) 11 20 ]}
                   {[ 1%nat := [1; 2; 3; 4; 5; 6; 7; 8; 9; 10; 11]
                                 ++ replicate 9 0 ]}).
Proof.
  split_and!.
  - intros T dflt moved can_alloc h v n Hwf Hn.
    pose proof (elems_length h v Hwf) as Hlen.
    pose proof Hwf as (Hs & _).
    pose proof (spec_Reserve dflt moved can_alloc n v h Hwf) as Hspec.
    cbv beta in Hspec.
    destruct (grants can_alloc n) eqn:Hg.
    + rewrite Reserve_grow in Hspec by assumption.
      rewrite Reserve_grow by assumption. destruct Hspec as (Hwf' & Hfr & _).
      simpl. split_and!; try reflexivity; try assumption.
      * eapply elems_intro; simpl; [reflexivity | | symmetry; exact Hlen].
        apply lookup_release_insert, Hwf.
      * eexists _, _. split; [reflexivity |]. split; [apply fresh_None |].
        split; [apply lookup_release_insert, Hwf |].
        rewrite length_app, length_replicate. lia.
      * intros b Hb. rewrite Hb. simpl. apply lookup_delete_eq.
    + rewrite Reserve_Throw by assumption. auto.
  - vm_compute. reflexivity.
  - vm_compute. reflexivity.
  - vm_compute. reflexivity.
Qed.

Lemma Reserve_exact_witness :
  wf ({[ 0%nat := [1; 2; 3] ]} : gmap nat (list Z)) (mkVec (Some 0%nat) 3 3) /\
  match Reserve 0 id (fun _ => true) (mkVec (Some 0%nat) 3 3) 7
          ({[ 0%nat := [1; 2; 3] ]} : gmap nat (list Z)) with
  | Ok v' h' =>
      capacity_ v' = 7 /\ size_ v' = 3 /\ elems h' v' = [1; 2; 3] /\
      buffer h' v' = [1; 2; 3; 0; 0; 0; 0]
  | _ => False
  end.
Proof.
  assert (Hwf : wf ({[ 0%nat := [1; 2; 3] ]} : gmap nat (list Z))
                  (mkVec (Some 0%nat) 3 3)).
  { unfold wf. simpl. split; [lia |]. split; [rewrite PTRDIFF_MAX_val; lia |].
    exists [1; 2; 3]. split; [reflexivity | simpl; lia]. }
  split; [exact Hwf |].
  pose proof (proj1 Reserve_exact Z 0 id (fun _ => true) _ _ 7 Hwf
                ltac:(simpl; lia)) as H.
  destruct (Reserve 0 id (fun _ : Z => true) (mkVec (Some 0%nat) 3 3) 7 _)
    as [v' h' | e h' | f] eqn:Hres.
  - destruct H as (Hc & Hsz & Hel & _). split_and!; try assumption.
    vm_compute in Hres. injection Hres as <- <-. vm_compute. reflexivity.
  - destruct H as (_ & _ & Hg). vm_compute in Hg. discriminate.
  - exact H.
Defined.

(** C10 (frame of PopBack and Erase).  On a non-empty container [PopBack]
    returns, touches no memory, decrements the size and keeps the handle,
    the capacity and the first [size - 1] elements.  At a dereferenceable
    position [Erase] returns and keeps the handle, the capacity and the
    elements before the erased index. *)
Theorem PopBack_Erase_keep_capacity {T} (moved : T -> T)
    (h : gmap nat (list T)) (v : SimpleVector) (Hwf : wf h v) :
  (0 < size_ v ->
   exists v',
     PopBack v h = Ok v' h /\
     capacity_ v' = capacity_ v /\ a_ v' = a_ v /\ size_ v' = size_ v - 1 /\
     elems h v' = take (Z.to_nat (size_ v - 1)) (elems h v)) /\
  (forall pos, base pos = a_ v -> 0 <= off pos < size_ v ->
   exists v' p h',
     Erase moved v pos h = Ok (v', p) h' /\
     capacity_ v' = capacity_ v /\ a_ v' = a_ v /\ size_ v' = size_ v - 1 /\
     take (Z.to_nat (off pos)) (elems h' v')
     = take (Z.to_nat (off pos)) (elems h v)).
Proof.
  pose proof (elems_length h v Hwf) as Hlen. split.
  - intros Hpos. eexists. split; [apply PopBack_Ok; assumption |].
    simpl. split_and!; try reflexivity.
    apply elems_shrink. lia.
  - intros pos Hbase Hoff.
    destruct (Erase_post moved h v pos Hwf Hbase Hoff) as (h' & Her & _ & Hel & _).
    eexists _, _, h'. split; [exact Her |]. simpl. split_and!; try reflexivity.
    rewrite Hel. rewrite take_app_length'; [reflexivity |].
    rewrite length_take. lia.
Qed.

Lemma PopBack_Erase_keep_capacity_witness :
  wf ({[ 0%nat := [1; 2; 3; 0] ]} : gmap nat (list Z)) (mkVec (Some 0%nat) 3 4) /\
  exists v' p h',
    Erase id (mkVec (Some 0%nat) 3 4) (Ptr (Some 0%nat) 1)
      ({[ 0%nat := [1; 2; 3; 0] ]} : gmap nat (list Z)) = Ok (v', p) h' /\
    capacity_ v' = 4.
Proof.
  assert (Hwf : wf ({[ 0%nat := [1; 2; 3; 0] ]} : gmap nat (list Z))
                  (mkVec (Some 0%nat) 3 4)).
  { unfold wf. simpl. split; [lia |]. split; [rewrite PTRDIFF_MAX_val; lia |].
    exists [1; 2; 3; 0]. split; [reflexivity | simpl; lia]. }
  split; [exact Hwf |].
  destruct (proj2 (PopBack_Erase_keep_capacity id _ _ Hwf) (Ptr (Some 0%nat) 1)
              eq_refl ltac:(simpl; lia)) as (v' & p & h' & Her & Hc & _).
  exists v', p, h'. split; [exact Her | exact Hc].
Defined.

(** C2 (move construction), as the code has it.  The move constructor
    allocates a block of the source's capacity and moves the live elements
    into it one by one.  When the block is granted, the new container has
    the size, the capacity and the element sequence that the source had, in
    a block of its own, and the source is left with size 0 and capacity 0,
    still holding its block; otherwise [std::terminate] is called. *)
Theorem ctor_move_transfers {T} (dflt : T) (moved : T -> T)
    (can_alloc : Z -> bool) (h : gmap nat (list T)) (v : SimpleVector)
    (Hwf : wf h v) :
  match ctor_move dflt moved can_alloc v h with
  | Ok (d, v') h' =>
      size_ d = size_ v /\ capacity_ d = capacity_ v /\
      elems h' d = elems h v /\
      size_ v' = 0 /\ capacity_ v' = 0 /\ elems h' v' = [] /\
      a_ v' = a_ v /\ a_ d = Some (fresh (dom h)) /\ a_ d <> a_ v /\
      (forall b, a_ v = Some b ->
         h' !! b = Some ((moved <$> elems h v)
                           ++ drop (Z.to_nat (size_ v)) (buffer h v))) /\
      wf h' d /\ wf h' v'
  | Throw _ _ => False
  | Fault f => f = Terminated /\ grants can_alloc (capacity_ v) = false
  end.
Proof.
  pose proof (ctor_move_post dflt moved can_alloc h v Hwf) as H.
  pose proof (elems_length h v Hwf) as Hlen.
  pose proof Hwf as (Hs & Hmax & Hb).
  destruct (ctor_move dflt moved can_alloc v h) as [[d v'] h' | |];
    [| exact H | exact H].
  destruct H as (Hg & -> & -> & Hnew & Hold & Hother). simpl.
  split_and!; try reflexivity.
  - eapply elems_intro; simpl; [reflexivity | exact Hnew | lia].
  - intros Heq. symmetry in Heq. destruct (Hold _ Heq) as [Hne _]. congruence.
  - intros b Hb'. apply Hold, Hb'.
  - eapply wf_intro; simpl; [reflexivity | exact Hnew | lia | exact Hmax |].
    rewrite length_app, length_replicate. lia.
  - unfold wf. simpl. rewrite PTRDIFF_MAX_val. split_and!; try lia.
    destruct (a_ v) as [b |] eqn:Ha; [| reflexivity].
    destruct (Hold b eq_refl) as [_ Hlk]. eexists. split; [exact Hlk | lia].
Qed.

Lemma ctor_move_transfers_witness :
  wf ({[ 0%nat := [1; 2; 3] ]} : gmap nat (list Z)) (mkVec (Some 0%nat) 3 3) /\
  match ctor_move 0 id (fun _ => true) (mkVec (Some 0%nat) 3 3)
          ({[ 0%nat := [1; 2; 3] ]} : gmap nat (list Z)) with
  | Ok (d, v') h' =>
      size_ d = 3 /\ capacity_ d = 3 /\ elems h' d = [1; 2; 3] /\
      size_ v' = 0 /\ capacity_ v' = 0
  | _ => False
  end.
Proof.
  assert (Hwf : wf ({[ 0%nat := [1; 2; 3] ]} : gmap nat (list Z))
                  (mkVec (Some 0%nat) 3 3)).
  { unfold wf. simpl. split; [lia |]. split; [rewrite PTRDIFF_MAX_val; lia |].
    exists [1; 2; 3]. split; [reflexivity | simpl; lia]. }
  split; [exact Hwf |].
  pose proof (ctor_move_transfers 0 id (fun _ => true) _ _ Hwf) as H.
  destruct (ctor_move 0 id (fun _ : Z => true) (mkVec (Some 0%nat) 3 3) _)
    as [[d v'] h' | e h' | f].
  - destruct H as (H1 & H2 & H3 & H4 & H5 & _). rewrite H3. auto.
  - exact H.
  - destruct H as (_ & Hg). vm_compute in Hg. discriminate.
Defined.

(** C2 as stated fails: the container built by moving from {1,2,3} does not
    take the source's block (it gets a new one, and the source's slots are
    moved from one by one), and when the allocator refuses the new block no
    container is built at all. *)
Lemma ctor_move_takes_no_buffer :
  ctor_move 0 (fun _ => -1) (fun _ => true) (mkVec (Some 0%nat) 3 3)
    ({[ 0%nat := [1; 2; 3] ]} : gmap nat (list Z))
  = Ok (mkVec (Some 1%nat) 3 3, mkVec (Some 0%nat) 0 0)
       {[ 0%nat := [-1; -1; -1]; 1%nat := [1; 2; 3] ]} /\
  ~ (exists d v' h',
       ctor_move 0 (fun _ => -1) (fun _ => true) (mkVec (Some 0%nat) 3 3)
         ({[ 0%nat := [1; 2; 3] ]} : gmap nat (list Z)) = Ok (d, v') h' /\
       a_ d = Some 0%nat) /\
  ctor_move 0 (fun _ => -1) (fun _ => false) (mkVec (Some 0%nat) 3 3)
    ({[ 0%nat := [1; 2; 3] ]} : gmap nat (list Z))
  = Fault Terminated.
Proof.
  assert (H : ctor_move 0 (fun _ => -1) (fun _ => true) (mkVec (Some 0%nat) 3 3)
                ({[ 0%nat := [1; 2; 3] ]} : gmap nat (list Z))
              = Ok (mkVec (Some 1%nat) 3 3, mkVec (Some 0%nat) 0 0)
                   {[ 0%nat := [-1; -1; -1]; 1%nat := [1; 2; 3] ]})
    by (vm_compute; reflexivity).
  split_and!.
  - exact H.
  - intros (d & v' & h' & Hm & Ha). rewrite H in Hm. injection Hm as <- _ _.
    discriminate.
  - vm_compute. reflexivity.
Qed.

(** C9 (self-assignment).  Assigning an object to itself returns and leaves
    the whole state as it was: the object's handle, size and capacity, and
    every block of memory. *)
Theorem self_assignment_noop {T} (dflt : T) (moved : T -> T)
    (can_alloc : Z -> bool) (s : state T) (x : nat) (v : SimpleVector)
    (Hx : objs s !! x = Some v) :
  op_assign dflt moved can_alloc x x s = Ok tt s /\
  exec dflt moved can_alloc (Assign x x) s = Ok tt s.
Proof.
  assert (H : op_assign dflt moved can_alloc x x s = Ok tt s).
  { unfold op_assign, bind, get_obj. rewrite Hx. simpl. rewrite Hx.
    rewrite bool_decide_eq_true_2 by reflexivity. reflexivity. }
  split; [exact H | exact H].
Qed.

Lemma self_assignment_noop_witness :
  op_assign 0 id (fun _ => false) 0%nat 0%nat
    (mkState {[ 0%nat := mkVec (Some 0%nat) 3 3 ]} {[ 0%nat := [1; 2; 3] ]}
     : state Z)
  = Ok tt (mkState {[ 0%nat := mkVec (Some 0%nat) 3 3 ]} {[ 0%nat := [1; 2; 3] ]}).
Proof.
  exact (proj1 (self_assignment_noop 0 id (fun _ => false)
                  (mkState {[ 0%nat := mkVec (Some 0%nat) 3 3 ]}
                           {[ 0%nat := [1; 2; 3] ]})
                  0%nat (mkVec (Some 0%nat) 3 3) eq_refl)).
Defined.

(** C8 (size never exceeds capacity).  In every state that a program reaches
    from no object by constructor calls, PushBack, Insert, Erase, PopBack,
    Resize, Reserve, Clear, swap, assignment, element access and
    destruction, including the states left by calls that throw, every
    container has [0 <= size <= capacity]; it is moreover well formed (its
    capacity fits the block it holds) and shares its block with no other
    container. *)
Theorem size_le_capacity {T} (dflt : T) (moved : T -> T)
    (can_alloc : Z -> bool) (s : state T)
    (Hreach : reachable dflt moved can_alloc s) :
  (forall x v, objs s !! x = Some v ->
     0 <= size_ v <= capacity_ v /\ wf (mem s) v) /\
  (forall x y vx vy b,
     x <> y -> objs s !! x = Some vx -> objs s !! y = Some vy ->
     a_ vx = Some b -> a_ vy <> Some b).
Proof.
  pose proof (reachable_all_sound dflt moved can_alloc s Hreach) as Hsound.
  pose proof (reachable_wf_state dflt moved can_alloc s Hreach) as [Hwf Hdis].
  split; [| exact Hdis].
  intros x v Hx. split; [exact (Hsound x v Hx) | exact (Hwf x v Hx)].
Qed.

Lemma size_le_capacity_witness :
  reachable 0 id (fun n => n <=? 4)
    (mkState {[ 0%nat := mkVec (Some 0%nat) 3 3 ]} {[ 0%nat := [1; 2; 3] ]}
     : state Z) /\
  0 <= 3 <= 3.
Proof.
  assert (Hr : reachable 0 id (fun n => n <=? 4)
                 (mkState {[ 0%nat := mkVec (Some 0%nat) 3 3 ]}
                          {[ 0%nat := [1; 2; 3] ]} : state Z)).
  { eapply (reach_throw 0 id _ (CallPushBack 0%nat (Temp 4))).
    - eapply (reach_ok 0 id _ (NewInit 0%nat [1; 2; 3])); [apply reach_init |].
      vm_compute. reflexivity.
    - vm_compute. reflexivity. }
  split; [exact Hr |].
  exact (proj1 (proj1 (size_le_capacity 0 id _ _ Hr) 0%nat
                  (mkVec (Some 0%nat) 3 3) eq_refl)).
Defined.

(** C3 (copy assignment).  For two distinct well-formed objects that own
    distinct blocks, [lhs = rhs] gives [lhs] the size and the element
    sequence of [rhs] and leaves [rhs] as it was.  When [rhs] is empty,
    [lhs] is cleared in place: it keeps its block and its capacity and no
    memory is touched.  Otherwise a copy of [rhs] is built in a new block and
    swapped in; if building it fails, [std::bad_alloc] is thrown and the
    whole state, [lhs] included, is what it was before the call. *)
Theorem copy_assignment_atomic {T} (dflt : T) (moved : T -> T)
    (can_alloc : Z -> bool) (s : state T) (lhs rhs : nat)
    (vl vr : SimpleVector)
    (Hl : objs s !! lhs = Some vl) (Hr : objs s !! rhs = Some vr)
    (Hne : lhs <> rhs)
    (Hwfl : wf (mem s) vl) (Hwfr : wf (mem s) vr)
    (Hown : forall b, a_ vl = Some b -> a_ vr <> Some b) :
  match op_assign dflt moved can_alloc lhs rhs s with
  | Ok _ s' =>
      exists vl',
        objs s' = <[lhs := vl']> (objs s) /\
        size_ vl' = size_ vr /\
        elems (mem s') vl' = elems (mem s) vr /\
        elems (mem s') vr = elems (mem s) vr /\
        wf (mem s') vl' /\ wf (mem s') vr /\
        (size_ vr = 0 ->
           a_ vl' = a_ vl /\ capacity_ vl' = capacity_ vl /\ mem s' = mem s) /\
        (size_ vr <> 0 ->
           a_ vl' = Some (fresh (dom (mem s))) /\ capacity_ vl' = capacity_ vr /\
           grants can_alloc (capacity_ vr) = true)
  | Throw e s' =>
      e = BadAlloc /\ s' = s /\ size_ vr <> 0 /\
      grants can_alloc (capacity_ vr) = false
  | Fault _ => False
  end.
Proof.
  pose proof (op_assign_post dflt moved can_alloc s lhs rhs vl vr
                Hl Hr Hne Hwfl Hwfr Hown) as H.
  destruct (op_assign dflt moved can_alloc lhs rhs s) as [u s' | e s' | f];
    [| exact H | exact H].
  destruct H as (vl' & H1 & H2 & H3 & H4 & H5 & H6 & H7 & H8 & _).
  exists vl'. split_and!; assumption.
Qed.

Lemma copy_assignment_atomic_witness :
  match op_assign 0 id (fun _ => true) 0%nat 1%nat
          (mkState {[ 0%nat := mkVec (Some 0%nat) 1 2;
                      1%nat := mkVec (Some 1%nat) 3 3 ]}
                   {[ 0%nat := [7; 0]; 1%nat := [1; 2; 3] ]} : state Z) with
  | Ok _ s' =>
      exists vl', objs s' !! 0%nat = Some vl' /\ elems (mem s') vl' = [1; 2; 3]
  | _ => False
  end.
Proof.
  pose proof (copy_assignment_atomic 0 id (fun _ => true)
    (mkState {[ 0%nat := mkVec (Some 0%nat) 1 2; 1%nat := mkVec (Some 1%nat) 3 3 ]}
             {[ 0%nat := [7; 0]; 1%nat := [1; 2; 3] ]} : state Z)
    0%nat 1%nat (mkVec (Some 0%nat) 1 2) (mkVec (Some 1%nat) 3 3)
    eq_refl eq_refl ltac:(discriminate)) as H.
  simpl in H.
  assert (Hwfl : wf ({[ 0%nat := [7; 0]; 1%nat := [1; 2; 3] ]} : gmap nat (list Z))
                   (mkVec (Some 0%nat) 1 2)).
  { unfold wf. simpl. split; [lia |]. split; [rewrite PTRDIFF_MAX_val; lia |].
    exists [7; 0]. split; [reflexivity | simpl; lia]. }
  assert (Hwfr : wf ({[ 0%nat := [7; 0]; 1%nat := [1; 2; 3] ]} : gmap nat (list Z))
                   (mkVec (Some 1%nat) 3 3)).
  { unfold wf. simpl. split; [lia |]. split; [rewrite PTRDIFF_MAX_val; lia |].
    exists [1; 2; 3]. split; [reflexivity | simpl; lia]. }
  specialize (H Hwfl Hwfr ltac:(intros b [= <-]; discriminate)).
  destruct (op_assign 0 id (fun _ : Z => true) 0%nat 1%nat _) as [u s' | e s' | f].
  - destruct H as (vl' & Hobjs & _ & Hel & _). exists vl'.
    rewrite Hobjs, lookup_insert_eq, Hel. split; reflexivity.
  - destruct H as (_ & _ & _ & Hg). vm_compute in Hg. discriminate.
  - exact H.
Defined.

(** * Further properties *)

Ltac wf_by_eval buf :=
  unfold wf; simpl; split; [lia |]; split; [rewrite PTRDIFF_MAX_val; lia |];
  exists buf; split; [reflexivity | simpl; lia].

(** X1 (sized constructors).  [SimpleVector(size, value)], and
    [SimpleVector(size)] with the default value, build [size] copies of the
    value in a block of their own, with capacity equal to the size, and leave
    every other block as it was; they throw [std::bad_alloc], changing
    nothing, exactly when the allocator refuses the block. *)
Theorem sized_constructor {T} (dflt : T) (can_alloc : Z -> bool)
    (h : gmap nat (list T)) (n : Z) (value : T) (Hn : 0 <= n) :
  match ctor_fill dflt can_alloc n value h with
  | Ok v h' =>
      size_ v = n /\ capacity_ v = n /\
      elems h' v = replicate (Z.to_nat n) value /\
      wf h' v /\
      (exists b, a_ v = Some b /\ h !! b = None) /\
      (forall b buf, h !! b = Some buf -> h' !! b = Some buf) /\
      grants can_alloc n = true
  | Throw e h' => e = BadAlloc /\ h' = h /\ grants can_alloc n = false
  | Fault _ => False
  end /\
  ctor_size dflt can_alloc n h = ctor_fill dflt can_alloc n dflt h.
Proof.
  split; [| reflexivity].
  rewrite ctor_fill_eq by exact Hn. destruct (grants can_alloc n) eqn:Hg; [| auto].
  pose proof (grants_le _ _ Hg) as Hle.
  assert (Hlk : <[fresh (dom h) := replicate (Z.to_nat n) value]> h !! fresh (dom h)
                = Some (replicate (Z.to_nat n) value ++ []))
    by (rewrite lookup_insert_eq, app_nil_r; reflexivity).
  simpl. split_and!; try reflexivity.
  - eapply elems_intro; simpl; [reflexivity | exact Hlk |].
    rewrite length_replicate. lia.
  - eapply wf_intro; simpl; [reflexivity | exact Hlk | lia | lia |].
    rewrite app_nil_r, length_replicate. lia.
  - exists (fresh (dom h)). split; [reflexivity | apply fresh_None].
  - intros b buf Hb. rewrite lookup_insert_ne; [exact Hb |].
    intros <-. rewrite fresh_None in Hb. discriminate.
Qed.

Lemma sized_constructor_witness :
  match ctor_fill 0 (fun _ => true) 3 7 (∅ : gmap nat (list Z)) with
  | Ok v h' => elems h' v = [7; 7; 7] /\ capacity_ v = 3
  | _ => False
  end.
Proof.
  pose proof (proj1 (sized_constructor 0 (fun _ => true) (∅ : gmap nat (list Z))
                       3 7 ltac:(lia))) as H.
  destruct (ctor_fill 0 (fun _ : Z => true) 3 7 (∅ : gmap nat (list Z)))
    as [v h' | e h' | f].
  - destruct H as (_ & Hc & He & _). split; [exact He | exact Hc].
  - destruct H as (_ & _ & Hg). vm_compute in Hg. discriminate.
  - exact H.
Defined.

(** X2 (list constructor).  [SimpleVector(std::initializer_list)] builds a
    container whose elements are those of the list, in order, with size and
    capacity equal to the length of the list, in a block of its own; it
    throws [std::bad_alloc], changing nothing, exactly when the allocator
    refuses the block. *)
Theorem list_constructor {T} (dflt : T) (can_alloc : Z -> bool)
    (h : gmap nat (list T)) (init : list T) :
  match ctor_init dflt can_alloc init h with
  | Ok v h' =>
      size_ v = Z.of_nat (length init) /\
      capacity_ v = Z.of_nat (length init) /\
      elems h' v = init /\ wf h' v /\
      (exists b, a_ v = Some b /\ h !! b = None) /\
      (forall b buf, h !! b = Some buf -> h' !! b = Some buf) /\
      grants can_alloc (Z.of_nat (length init)) = true
  | Throw e h' =>
      e = BadAlloc /\ h' = h /\
      grants can_alloc (Z.of_nat (length init)) = false
  | Fault _ => False
  end.
Proof.
  rewrite ctor_init_eq.
  destruct (grants can_alloc (Z.of_nat (length init))) eqn:Hg; [| auto].
  pose proof (grants_le _ _ Hg) as Hle.
  assert (Hlk : <[fresh (dom h) := init]> h !! fresh (dom h) = Some (init ++ []))
    by (rewrite lookup_insert_eq, app_nil_r; reflexivity).
  simpl. split_and!; try reflexivity.
  - eapply elems_intro; simpl; [reflexivity | exact Hlk | reflexivity].
  - eapply wf_intro; simpl; [reflexivity | exact Hlk | lia | lia |].
    rewrite app_nil_r. lia.
  - exists (fresh (dom h)). split; [reflexivity | apply fresh_None].
  - intros b buf Hb. rewrite lookup_insert_ne; [exact Hb |].
    intros <-. rewrite fresh_None in Hb. discriminate.
Qed.

(** X3 (copy constructor).  The copy has the size, the capacity (the
    source's capacity, not just its size) and the element sequence of the
    source, in a block of its own; the source and every other block are left
    as they were.  It throws [std::bad_alloc], changing nothing, exactly when
    the allocator refuses a block of the source's capacity. *)
Theorem copy_constructor {T} (dflt : T) (moved : T -> T)
    (can_alloc : Z -> bool) (h : gmap nat (list T)) (v : SimpleVector)
    (Hwf : wf h v) :
  match ctor_copy dflt moved can_alloc v h with
  | Ok d h' =>
      size_ d = size_ v /\ capacity_ d = capacity_ v /\
      elems h' d = elems h v /\ elems h' v = elems h v /\
      wf h' d /\ wf h' v /\ a_ d <> a_ v /\
      (forall b buf, h !! b = Some buf -> h' !! b = Some buf) /\
      grants can_alloc (capacity_ v) = true
  | Throw e h' =>
      e = BadAlloc /\ h' = h /\ grants can_alloc (capacity_ v) = false
  | Fault _ => False
  end.
Proof.
  pose proof (ctor_copy_post dflt moved can_alloc h v Hwf) as H.
  pose proof (elems_length h v Hwf) as Hlen.
  pose proof Hwf as (Hs & Hmax & Hb).
  destruct (ctor_copy dflt moved can_alloc v h) as [d h' | e h' | f] eqn:Hrun;
    [| exact H | exact H].
  assert (Hg : grants can_alloc (capacity_ v) = true).
  { destruct (grants can_alloc (capacity_ v)) eqn:Hg; [reflexivity |].
    unfold ctor_copy, GetCapacity in Hrun.
    erewrite bind_Throw in Hrun by (apply ArrayPtr_new_Throw; exact Hg).
    discriminate. }
  destruct H as (-> & ->). simpl.
  set (b' := fresh (dom h)).
  set (buf := elems h v ++ replicate (Z.to_nat (capacity_ v - size_ v)) dflt).
  assert (Hkeep : forall b old, h !! b = Some old -> <[b' := buf]> h !! b = Some old).
  { intros b old Hold. rewrite lookup_insert_ne; [exact Hold |].
    intros <-. unfold b' in Hold. rewrite fresh_None in Hold. discriminate. }
  split_and!; try reflexivity.
  - eapply elems_intro; simpl; [reflexivity | apply lookup_insert_eq | lia].
  - unfold elems, buffer. destruct (a_ v) as [b |] eqn:Ha; [| reflexivity].
    destruct Hb as (old & Hold & _). rewrite (Hkeep b old Hold), Hold. reflexivity.
  - eapply wf_intro; simpl; [reflexivity | apply lookup_insert_eq | lia | lia |].
    unfold buf. rewrite length_app, length_replicate. lia.
  - unfold wf. split; [exact Hs |]. split; [exact Hmax |].
    destruct (a_ v) as [b |] eqn:Ha; [| exact Hb].
    destruct Hb as (old & Hold & Hcap). exists old. split; [apply Hkeep, Hold | exact Hcap].
  - intros Heq. destruct (a_ v) as [b |] eqn:Ha; [| discriminate].
    injection Heq as <-. destruct Hb as (old & Hold & _).
    unfold b' in Hold. rewrite fresh_None in Hold. discriminate.
  - exact Hkeep.
  - exact Hg.
Qed.

Lemma copy_constructor_witness :
  wf ({[ 0%nat := [1; 2; 3; 0] ]} : gmap nat (list Z)) (mkVec (Some 0%nat) 3 4) /\
  match ctor_copy 0 id (fun _ => true) (mkVec (Some 0%nat) 3 4)
          ({[ 0%nat := [1; 2; 3; 0] ]} : gmap nat (list Z)) with
  | Ok d h' => elems h' d = [1; 2; 3] /\ capacity_ d = 4
  | _ => False
  end.
Proof.
  assert (Hwf : wf ({[ 0%nat := [1; 2; 3; 0] ]} : gmap nat (list Z))
                  (mkVec (Some 0%nat) 3 4)) by wf_by_eval [1; 2; 3; 0].
  split; [exact Hwf |].
  pose proof (copy_constructor 0 id (fun _ => true) _ _ Hwf) as H.
  destruct (ctor_copy 0 id (fun _ : Z => true) (mkVec (Some 0%nat) 3 4) _)
    as [d h' | e h' | f].
  - destruct H as (_ & Hc & He & _). rewrite He. split; [reflexivity | exact Hc].
  - destruct H as (_ & _ & Hg). vm_compute in Hg. discriminate.
  - exact H.
Defined.

(** X4 (reserving constructor).  [SimpleVector(Reserve(n))] builds an empty
    container of capacity [n]; it throws [std::bad_alloc], changing nothing,
    exactly when the allocator refuses the block. *)
Theorem reserving_constructor {T} (dflt : T) (can_alloc : Z -> bool)
    (h : gmap nat (list T)) (n : Z) (Hn : 0 <= n) :
  match ctor_reserve dflt can_alloc (ReserveObj n) h with
  | Ok v h' =>
      size_ v = 0 /\ capacity_ v = n /\ elems h' v = [] /\ wf h' v /\
      (forall b buf, h !! b = Some buf -> h' !! b = Some buf) /\
      grants can_alloc n = true
  | Throw e h' => e = BadAlloc /\ h' = h /\ grants can_alloc n = false
  | Fault _ => False
  end.
Proof.
  rewrite ctor_reserve_eq. simpl. destruct (grants can_alloc n) eqn:Hg; [| auto].
  pose proof (grants_le _ _ Hg) as Hle. simpl. split_and!; try reflexivity.
  - eapply wf_intro; simpl; [reflexivity | apply lookup_insert_eq | lia | lia |].
    rewrite length_replicate. lia.
  - intros b buf Hb. rewrite lookup_insert_ne; [exact Hb |].
    intros <-. rewrite fresh_None in Hb. discriminate.
Qed.

Lemma reserving_constructor_witness :
  match ctor_reserve 0 (fun _ => true) (ReserveObj 5) (∅ : gmap nat (list Z)) with
  | Ok v h' => size_ v = 0 /\ capacity_ v = 5
  | _ => False
  end.
Proof.
  pose proof (reserving_constructor 0 (fun _ => true) (∅ : gmap nat (list Z))
                5 ltac:(lia)) as H.
  destruct (ctor_reserve 0 (fun _ : Z => true) (ReserveObj 5) _) as [v h' | e h' | f].
  - destruct H as (Hs & Hc & _). split; [exact Hs | exact Hc].
  - destruct H as (_ & _ & Hg). vm_compute in Hg. discriminate.
  - exact H.
Defined.

(** X5 (append).  [PushBack] reads the item through its reference once the
    buffer is ready for one more element.  A usable item holding [x] is put
    after the last element and the size grows by one; the new last element
    is readable at index [size].  While there is room the container keeps
    its block and its capacity, and the item may well be one of the
    container's own elements.  The call throws [std::bad_alloc], changing
    nothing, only when the buffer is full and the allocator refuses.  An item
    bound to a slot of the container's own block is gone with the old block
    when a full container grows: reading it is undefined behaviour. *)
Theorem PushBack_appends {T} (dflt : T) (moved : T -> T)
    (can_alloc : Z -> bool) (h : gmap nat (list T)) (v : SimpleVector)
    (item : cref T) (x : T) (Hwf : wf h v) (Hitem : read item h = Ok x h) :
  (usable h v item ->
   match PushBack dflt moved can_alloc v item h with
   | Ok v' h' =>
       elems h' v' = elems h v ++ [x] /\
       size_ v' = size_ v + 1 /\
       wf h' v' /\
       At v' (size_ v) h' = Ok (Ptr (a_ v') (size_ v)) h' /\
       slot h' (Ptr (a_ v') (size_ v)) = Some x /\
       (size_ v < capacity_ v -> a_ v' = a_ v /\ capacity_ v' = capacity_ v) /\
       frame v h h'
   | Throw e h' =>
       e = BadAlloc /\ h' = h /\ size_ v = capacity_ v /\
       grants can_alloc (grown_capacity v) = false
   | Fault _ => False
   end) /\
  (forall p, item = RefTo p -> base p = a_ v -> size_ v = capacity_ v ->
     grants can_alloc (grown_capacity v) = true ->
     PushBack dflt moved can_alloc v item h = Fault UndefinedBehaviour).
Proof.
  split.
  - intros Hu.
    rewrite (PushBack_usable dflt moved can_alloc h v item x Hwf Hu Hitem).
    pose proof (PushBack_post dflt moved can_alloc h v x Hwf) as H.
    pose proof (elems_length h v Hwf) as Hlen. pose proof Hwf as (Hs & _).
    destruct (PushBack dflt moved can_alloc v (Temp x) h) as [v' h' | e h' | f];
      [| exact H | exact H].
    destruct H as (Hwf' & Hel & Hs' & Hc & Hsame & Hfr & _).
    destruct (slot_elems h' v' (size_ v) Hwf' ltac:(lia)) as [Hslot _].
    split_and!; try assumption.
    + rewrite At_eq. destruct (Z.leb_spec (size_ v') (size_ v)); [lia | reflexivity].
    + rewrite Hslot, Hel. apply list_lookup_middle. lia.
    + intros Hlt. split; [apply Hsame, Hlt |].
      rewrite Hc. unfold grown_capacity.
      destruct (Z.eqb_spec (size_ v) (capacity_ v)); [lia | reflexivity].
  - intros p -> Hbase Hfull Hg. apply read_slot in Hitem.
    apply PushBack_own_slot_full; eauto.
Qed.

Lemma PushBack_appends_witness :
  wf ({[ 0%nat := [1; 2; 3; 0] ]} : gmap nat (list Z)) (mkVec (Some 0%nat) 3 4) /\
  match PushBack 0 id (fun _ => false) (mkVec (Some 0%nat) 3 4)
          (RefTo (Ptr (Some 0%nat) 0))
          ({[ 0%nat := [1; 2; 3; 0] ]} : gmap nat (list Z)) with
  | Ok v' h' => elems h' v' = [1; 2; 3; 1]
  | _ => False
  end.
Proof.
  set (h := ({[ 0%nat := [1; 2; 3; 0] ]} : gmap nat (list Z))).
  assert (Hwf : wf h (mkVec (Some 0%nat) 3 4)) by wf_by_eval [1; 2; 3; 0].
  assert (Hrd : read (RefTo (Ptr (Some 0%nat) 0)) h = Ok 1 h)
    by (vm_compute; reflexivity).
  assert (Hu : usable h (mkVec (Some 0%nat) 3 4) (RefTo (Ptr (Some 0%nat) 0))).
  { split; [exists 1; vm_compute; reflexivity | intros _; simpl; lia]. }
  split; [exact Hwf |].
  pose proof (proj1 (PushBack_appends 0 id (fun _ => false) h _
                       (RefTo (Ptr (Some 0%nat) 0)) 1 Hwf Hrd) Hu) as H.
  destruct (PushBack 0 id (fun _ : Z => false) (mkVec (Some 0%nat) 3 4)
              (RefTo (Ptr (Some 0%nat) 0)) h)
    as [v' h' | e h' | f].
  - destruct H as (He & _). rewrite He. reflexivity.
  - destruct H as (_ & _ & Hc & _). simpl in Hc. discriminate.
  - exact H.
Defined.

(** X6 (append, then remove last).  After [PushBack] has returned,
    [PopBack] returns and the container has the element sequence and the
    size it had before the append, whatever the item was bound to.
    [PushBack] does return unless a full container is refused its new block
    ([std::bad_alloc], nothing changed) or the item is not usable. *)
Theorem PushBack_PopBack_restores {T} (dflt : T) (moved : T -> T)
    (can_alloc : Z -> bool) (h : gmap nat (list T)) (v : SimpleVector)
    (item : cref T) (Hwf : wf h v) :
  match PushBack dflt moved can_alloc v item h with
  | Ok v' h' =>
      exists v'',
        PopBack v' h' = Ok v'' h' /\
        elems h' v'' = elems h v /\ size_ v'' = size_ v /\
        capacity_ v'' = capacity_ v'
  | Throw e h' =>
      e = BadAlloc /\ h' = h /\ size_ v = capacity_ v /\
      grants can_alloc (grown_capacity v) = false
  | Fault _ => ~ usable h v item
  end.
Proof.
  destruct (PushBack_cases dflt moved can_alloc v item h) as [Hub | [x Hx]].
  { rewrite Hub.
    exact (PushBack_Fault_unusable dflt moved can_alloc h v item _ Hwf Hub). }
  rewrite Hx.
  pose proof (PushBack_post dflt moved can_alloc h v x Hwf) as H.
  pose proof (elems_length h v Hwf) as Hlen. pose proof Hwf as (Hs & _).
  destruct (PushBack dflt moved can_alloc v (Temp x) h) as [v' h' | e h' | f];
    [| exact H | destruct H].
  destruct H as (Hwf' & Hel & Hs' & _).
  eexists. split; [apply PopBack_Ok; [exact Hwf' | lia] |].
  simpl. split_and!; try reflexivity; try lia.
  rewrite elems_shrink by lia. rewrite Hel.
  apply take_app_length'. lia.
Qed.

Lemma PushBack_PopBack_restores_witness :
  wf ({[ 0%nat := [1; 2; 3] ]} : gmap nat (list Z)) (mkVec (Some 0%nat) 3 3) /\
  match PushBack 0 id (fun _ => true) (mkVec (Some 0%nat) 3 3) (Temp 9)
          ({[ 0%nat := [1; 2; 3] ]} : gmap nat (list Z)) with
  | Ok v' h' => exists v'', PopBack v' h' = Ok v'' h' /\ elems h' v'' = [1; 2; 3]
  | _ => False
  end.
Proof.
  assert (Hwf : wf ({[ 0%nat := [1; 2; 3] ]} : gmap nat (list Z))
                  (mkVec (Some 0%nat) 3 3)) by wf_by_eval [1; 2; 3].
  split; [exact Hwf |].
  pose proof (PushBack_PopBack_restores 0 id (fun _ => true) _ _ (Temp 9) Hwf)
    as H.
  destruct (PushBack 0 id (fun _ : Z => true) (mkVec (Some 0%nat) 3 3) (Temp 9) _)
    as [v' h' | e h' | f].
  - destruct H as (v'' & Hp & He & _). exists v''. rewrite He. auto.
  - destruct H as (_ & _ & _ & Hg). vm_compute in Hg. discriminate.
  - exact (H I).
Defined.

(** X7 (erase).  At a dereferenceable position [Erase] returns, removes
    exactly the element at that index (the elements before it and after it
    keep their order), decreases the size by one, and returns the same
    position, which now refers to the element that followed the erased one,
    or is [end()] when the last element was erased.  It never allocates. *)
Theorem Erase_removes {T} (moved : T -> T) (h : gmap nat (list T))
    (v : SimpleVector) (pos : ptr)
    (Hwf : wf h v) (Hbase : base pos = a_ v) (Hoff : 0 <= off pos < size_ v) :
  exists v' p h',
    Erase moved v pos h = Ok (v', p) h' /\
    elems h' v' = take (Z.to_nat (off pos)) (elems h v)
                    ++ drop (S (Z.to_nat (off pos))) (elems h v) /\
    size_ v' = size_ v - 1 /\ capacity_ v' = capacity_ v /\ a_ v' = a_ v /\
    wf h' v' /\ frame v h h' /\
    p = Ptr (a_ v') (off pos) /\
    (off pos + 1 < size_ v ->
       slot h' p = elems h v !! S (Z.to_nat (off pos)) /\
       is_Some (slot h' p)) /\
    (off pos + 1 = size_ v -> p = end_ v').
Proof.
  destruct (Erase_post moved h v pos Hwf Hbase Hoff) as (h' & Her & Hwf' & Hel & Hfr).
  eexists _, _, h'. split; [exact Her |]. simpl.
  split_and!; try reflexivity; try assumption.
  - intros Hlt.
    destruct (slot_elems h' _ (off pos) Hwf' ltac:(simpl; lia)) as [Hslot Hsome].
    simpl in Hslot. rewrite Hslot, Hel.
    rewrite Hel in Hsome.
    rewrite Erase_next in * by lia. auto.
  - intros Heq. unfold end_, Get, ptr_add, GetSize. simpl. f_equal. lia.
Qed.

Lemma Erase_removes_witness :
  wf ({[ 0%nat := [1; 2; 3; 0] ]} : gmap nat (list Z)) (mkVec (Some 0%nat) 3 4) /\
  exists v' p h',
    Erase id (mkVec (Some 0%nat) 3 4) (Ptr (Some 0%nat) 1)
      ({[ 0%nat := [1; 2; 3; 0] ]} : gmap nat (list Z)) = Ok (v', p) h' /\
    elems h' v' = [1; 3] /\ slot h' p = Some 3.
Proof.
  assert (Hwf : wf ({[ 0%nat := [1; 2; 3; 0] ]} : gmap nat (list Z))
                  (mkVec (Some 0%nat) 3 4)) by wf_by_eval [1; 2; 3; 0].
  split; [exact Hwf |].
  destruct (Erase_removes id _ _ (Ptr (Some 0%nat) 1) Hwf eq_refl
              ltac:(simpl; lia))
    as (v' & p & h' & Her & Hel & _ & _ & _ & _ & _ & _ & Hnext & _).
  exists v', p, h'. split; [exact Her |]. split; [rewrite Hel; reflexivity |].
  destruct (Hnext ltac:(simpl; lia)) as [-> _]. reflexivity.
Defined.

(** X8 (resize).  [Resize(n)] returns a container of size [n] whose
    elements are the first [n] old elements followed by default values for
    the positions beyond the old size.  A target within the capacity keeps
    the block and the capacity and cannot fail; a target above it grows the
    buffer, and throws [std::bad_alloc], changing nothing, exactly when the
    allocator refuses. *)
Theorem Resize_contents {T} (dflt : T) (moved : T -> T)
    (can_alloc : Z -> bool) (h : gmap nat (list T)) (v : SimpleVector) (n : Z)
    (Hwf : wf h v) (Hn : 0 <= n) :
  match Resize dflt moved can_alloc v n h with
  | Ok v' h' =>
      elems h' v' = take (Z.to_nat n) (elems h v)
                      ++ replicate (Z.to_nat (n - size_ v)) dflt /\
      size_ v' = n /\ wf h' v' /\
      (n <= capacity_ v -> a_ v' = a_ v /\ capacity_ v' = capacity_ v) /\
      frame v h h' /\
      (capacity_ v < n -> grants can_alloc (Z.max (capacity_ v * 2) n) = true)
  | Throw e h' =>
      e = BadAlloc /\ h' = h /\ capacity_ v < n /\
      grants can_alloc (Z.max (capacity_ v * 2) n) = false
  | Fault _ => False
  end.
Proof.
  pose proof (Resize_post dflt moved can_alloc h v n Hwf Hn) as H.
  destruct (Resize dflt moved can_alloc v n h) as [v' h' | e h' | f] eqn:Hrun;
    [| exact H | exact H].
  destruct H as (Hwf' & Hel & Hs & Hc & Ha & Hfr).
  split_and!; try assumption.
  - intros Hle. split; [apply Ha, Hle |].
    rewrite Hc. destruct (Z.leb_spec n (capacity_ v)); [reflexivity | lia].
  - intros Hlt.
    destruct (grants can_alloc (Z.max (capacity_ v * 2) n)) eqn:Hg;
      [reflexivity |].
    rewrite (Resize_grow_Throw dflt moved can_alloc h v n Hwf Hlt Hg) in Hrun.
    discriminate.
Qed.

Lemma Resize_contents_witness :
  wf ({[ 0%nat := [1; 2; 3; 8] ]} : gmap nat (list Z)) (mkVec (Some 0%nat) 3 4) /\
  match Resize 0 id (fun _ => false) (mkVec (Some 0%nat) 3 4) 4
          ({[ 0%nat := [1; 2; 3; 8] ]} : gmap nat (list Z)) with
  | Ok v' h' => elems h' v' = [1; 2; 3; 0]
  | _ => False
  end.
Proof.
  assert (Hwf : wf ({[ 0%nat := [1; 2; 3; 8] ]} : gmap nat (list Z))
                  (mkVec (Some 0%nat) 3 4)) by wf_by_eval [1; 2; 3; 8].
  split; [exact Hwf |].
  pose proof (Resize_contents 0 id (fun _ => false) _ _ 4 Hwf ltac:(lia)) as H.
  destruct (Resize 0 id (fun _ : Z => false) (mkVec (Some 0%nat) 3 4) 4 _)
    as [v' h' | e h' | f].
  - destruct H as (He & _). rewrite He. reflexivity.
  - destruct H as (_ & _ & Hc & _). simpl in Hc. lia.
  - exact H.
Defined.

(** X9 (shrink, then grow).  Shrinking to [k] and growing back to [n]
    within the capacity keeps the block and gives the first [k] old elements
    followed by default values: the elements cut off do not come back. *)
Theorem Resize_shrink_then_grow {T} (dflt : T) (moved : T -> T)
    (can_alloc : Z -> bool) (h : gmap nat (list T)) (v : SimpleVector) (k n : Z)
    (Hwf : wf h v) (Hk : 0 <= k <= size_ v) (Hn : k <= n <= capacity_ v) :
  exists v1 h1 v2 h2,
    Resize dflt moved can_alloc v k h = Ok v1 h1 /\
    Resize dflt moved can_alloc v1 n h1 = Ok v2 h2 /\
    elems h2 v2 = take (Z.to_nat k) (elems h v)
                    ++ replicate (Z.to_nat (n - k)) dflt /\
    size_ v2 = n /\ a_ v2 = a_ v /\ capacity_ v2 = capacity_ v.
Proof.
  pose proof Hwf as (Hs & _).
  destruct (Resize_within dflt moved can_alloc h v k Hwf ltac:(lia))
    as (h1 & Hr1 & Hwf1 & _ & Hel1).
  destruct (Resize_within dflt moved can_alloc h1 _ n Hwf1 ltac:(simpl; lia))
    as (h2 & Hr2 & _ & _ & Hel2).
  eexists _, h1, _, h2. split; [exact Hr1 |]. split; [exact Hr2 |].
  simpl in *. split_and!; try reflexivity.
  rewrite Hel2, Hel1.
  replace (Z.to_nat (k - size_ v)) with 0%nat by lia. simpl. rewrite app_nil_r.
  pose proof (elems_length h v Hwf) as Hlen.
  rewrite take_ge by (rewrite length_take; lia). reflexivity.
Qed.

Lemma Resize_shrink_then_grow_witness :
  wf ({[ 0%nat := [1; 2; 3; 0] ]} : gmap nat (list Z)) (mkVec (Some 0%nat) 3 4) /\
  exists v1 h1 v2 h2,
    Resize 0 id (fun _ => false) (mkVec (Some 0%nat) 3 4) 1
      ({[ 0%nat := [1; 2; 3; 0] ]} : gmap nat (list Z)) = Ok v1 h1 /\
    Resize 0 id (fun _ => false) v1 3 h1 = Ok v2 h2 /\
    elems h2 v2 = [1; 0; 0].
Proof.
  assert (Hwf : wf ({[ 0%nat := [1; 2; 3; 0] ]} : gmap nat (list Z))
                  (mkVec (Some 0%nat) 3 4)) by wf_by_eval [1; 2; 3; 0].
  split; [exact Hwf |].
  destruct (Resize_shrink_then_grow 0 id (fun _ => false) _ _ 1 3 Hwf
              ltac:(simpl; lia) ltac:(simpl; lia))
    as (v1 & h1 & v2 & h2 & H1 & H2 & He & _).
  exists v1, h1, v2, h2. split; [exact H1 |]. split; [exact H2 |].
  rewrite He. reflexivity.
Defined.

(** X10 (appending within the capacity; refilling after Clear).  Appending
    items that fit the capacity keeps the block and the capacity and cannot
    fail, whatever the allocator does; in particular, after [Clear] a
    container takes as many items as its capacity without any allocation.
    The items are temporaries or references to objects outside the
    container's block, and are appended as the values they hold. *)
Theorem append_within_capacity {T} (dflt : T) (moved : T -> T)
    (can_alloc : Z -> bool) (h : gmap nat (list T)) (v : SimpleVector)
    (Hwf : wf h v) :
  (forall items values, Forall2 (denotes h v) items values ->
     size_ v + Z.of_nat (length values) <= capacity_ v ->
     exists v' h',
       push_all dflt moved can_alloc items v h = Ok v' h' /\
       a_ v' = a_ v /\ capacity_ v' = capacity_ v /\
       elems h' v' = elems h v ++ values /\ frame v h h') /\
  (forall items values, Forall2 (denotes h v) items values ->
     Z.of_nat (length values) <= capacity_ v ->
     exists v' h',
       push_all dflt moved can_alloc items (Clear v) h = Ok v' h' /\
       a_ v' = a_ v /\ capacity_ v' = capacity_ v /\
       elems h' v' = values).
Proof.
  split.
  - intros items values Hall Hroom.
    rewrite (push_all_denotes dflt moved can_alloc items values h v Hwf Hall).
    destruct (push_all_room dflt moved can_alloc values h v Hwf Hroom)
      as (h' & Hrun & _ & Hel & Hfr).
    eexists _, h'. split; [exact Hrun |]. simpl. auto.
  - intros items values Hall Hroom. pose proof Hwf as (Hs & _).
    assert (Hwfc : wf h (Clear v)) by (apply wf_shrink; [exact Hwf | lia]).
    rewrite (push_all_denotes dflt moved can_alloc items values h (Clear v)
               Hwfc Hall).
    destruct (push_all_room dflt moved can_alloc values h (Clear v) Hwfc
                ltac:(simpl; lia)) as (h' & Hrun & _ & Hel & _).
    eexists _, h'. split; [exact Hrun |]. simpl.
    split_and!; try reflexivity. simpl in Hel. rewrite Hel.
    unfold elems. simpl. reflexivity.
Qed.

Lemma append_within_capacity_witness :
  wf ({[ 0%nat := [1; 2; 3; 0] ]} : gmap nat (list Z)) (mkVec (Some 0%nat) 3 4) /\
  exists v' h',
    push_all 0 id (fun _ => false) (Temp <$> [5; 6; 7; 8])
      (Clear (mkVec (Some 0%nat) 3 4))
      ({[ 0%nat := [1; 2; 3; 0] ]} : gmap nat (list Z)) = Ok v' h' /\
    a_ v' = Some 0%nat /\ elems h' v' = [5; 6; 7; 8].
Proof.
  assert (Hwf : wf ({[ 0%nat := [1; 2; 3; 0] ]} : gmap nat (list Z))
                  (mkVec (Some 0%nat) 3 4)) by wf_by_eval [1; 2; 3; 0].
  split; [exact Hwf |].
  assert (Hall : Forall2 (denotes ({[ 0%nat := [1; 2; 3; 0] ]} : gmap nat (list Z))
                            (mkVec (Some 0%nat) 3 4))
                   (Temp <$> [5; 6; 7; 8]) [5; 6; 7; 8])
    by (repeat constructor).
  destruct (proj2 (append_within_capacity 0 id (fun _ => false) _ _ Hwf)
              _ [5; 6; 7; 8] Hall ltac:(simpl; lia))
    as (v' & h' & Hrun & Ha & _ & He).
  exists v', h'. split; [exact Hrun |]. split; [exact Ha | exact He].
Defined.



(** X12 (rvalue overloads).  [PushBack(Type&&)] and [Insert(pos, Type&&)]
    move the item into the new slot with [std::exchange]: given a temporary
    or a reference to an object outside the container's block that holds
    [x], they put [x] where the [const&] overloads put it, with the same
    size, capacity and returned position, throw in the same case, and leave
    the item moved-from; they equal the [const&] overload followed by the
    assignment of the moved-from value to the item. *)
Theorem rvalue_overloads {T} (dflt : T) (moved : T -> T)
    (can_alloc : Z -> bool) (h : gmap nat (list T)) (v : SimpleVector)
    (item : cref T) (x : T)
    (Hwf : wf h v) (Hitem : denotes h v item x) :
  (PushBack_rv dflt moved can_alloc v item h
   = (v' <- PushBack dflt moved can_alloc v item;
      item' <- write item (moved x); ret (v', item')) h /\
   match PushBack_rv dflt moved can_alloc v item h with
   | Ok (v', item') h' =>
       wf h' v' /\
       elems h' v' = elems h v ++ [x] /\
       size_ v' = size_ v + 1 /\
       capacity_ v' = grown_capacity v /\
       read item' h' = Ok (moved x) h'
   | Throw e h' =>
       e = BadAlloc /\ h' = h /\ size_ v = capacity_ v /\
       grants can_alloc (grown_capacity v) = false
   | Fault _ => False
   end) /\
  (forall pos, base pos = a_ v -> 0 <= off pos <= size_ v ->
   Insert_rv dflt moved can_alloc v pos item h
   = (r <- Insert dflt moved can_alloc v pos item;
      item' <- write item (moved x); ret (r, item')) h /\
   match Insert_rv dflt moved can_alloc v pos item h with
   | Ok (v', p, item') h' =>
       wf h' v' /\
       elems h' v' = take (Z.to_nat (off pos)) (elems h v)
                       ++ x :: drop (Z.to_nat (off pos)) (elems h v) /\
       size_ v' = size_ v + 1 /\
       capacity_ v' = grown_capacity v /\
       p = Ptr (a_ v') (off pos) /\
       read item' h' = Ok (moved x) h'
   | Throw e h' =>
       e = BadAlloc /\ h' = h /\ size_ v = capacity_ v /\
       grants can_alloc (grown_capacity v) = false
   | Fault _ => False
   end).
Proof.
  split.
  - split.
    + exact (PushBack_rv_denotes dflt moved can_alloc h v item x Hwf Hitem).
    + exact (PushBack_rv_post dflt moved can_alloc h v item x Hwf Hitem).
  - intros pos Hb Ho. split.
    + exact (Insert_rv_denotes dflt moved can_alloc h v pos item x Hwf Hb Ho Hitem).
    + exact (Insert_rv_post dflt moved can_alloc h v pos item x Hwf Hb Ho Hitem).
Qed.

Lemma rvalue_overloads_witness :
  wf ({[ 0%nat := [1; 2; 3]; 1%nat := [9] ]} : gmap nat (list Z))
     (mkVec (Some 0%nat) 3 3) /\
  denotes ({[ 0%nat := [1; 2; 3]; 1%nat := [9] ]} : gmap nat (list Z))
    (mkVec (Some 0%nat) 3 3) (RefTo (Ptr (Some 1%nat) 0)) 9 /\
  match PushBack_rv 0 (fun _ => 0) (fun _ => true) (mkVec (Some 0%nat) 3 3)
          (RefTo (Ptr (Some 1%nat) 0))
          ({[ 0%nat := [1; 2; 3]; 1%nat := [9] ]} : gmap nat (list Z)) with
  | Ok (v', item') h' =>
      elems h' v' = [1; 2; 3; 9] /\ read item' h' = Ok 0 h'
  | _ => False
  end.
Proof.
  set (h := ({[ 0%nat := [1; 2; 3]; 1%nat := [9] ]} : gmap nat (list Z))).
  assert (Hwf : wf h (mkVec (Some 0%nat) 3 3)) by wf_by_eval [1; 2; 3].
  assert (Hd : denotes h (mkVec (Some 0%nat) 3 3) (RefTo (Ptr (Some 1%nat) 0)) 9)
    by (split; [vm_compute; reflexivity | discriminate]).
  split; [exact Hwf |]. split; [exact Hd |].
  destruct (rvalue_overloads 0 (fun _ => 0) (fun _ => true) h _ _ 9 Hwf Hd)
    as [[_ H] _].
  destruct (PushBack_rv 0 (fun _ : Z => 0) (fun _ : Z => true)
              (mkVec (Some 0%nat) 3 3) (RefTo (Ptr (Some 1%nat) 0)) h)
    as [[v' item'] h' | e h' | f].
  - destruct H as (_ & He & _ & _ & Hr). split; [| exact Hr].
    rewrite He. reflexivity.
  - destruct H as (_ & _ & _ & Hg). vm_compute in Hg. discriminate.
  - exact H.
Defined.

(** X13 (insert at the end).  [Insert(end(), x)] changes the container and
    the memory exactly as [PushBack(x)] does, and returns the position of
    the new last element. *)
Theorem Insert_at_end_is_PushBack {T} (dflt : T) (moved : T -> T)
    (can_alloc : Z -> bool) (h : gmap nat (list T)) (v : SimpleVector)
    (x : cref T) (Hwf : wf h v) :
  Insert dflt moved can_alloc v (end_ v) x h
  = match PushBack dflt moved can_alloc v x h with
    | Ok v' h' => Ok (v', Ptr (a_ v') (size_ v)) h'
    | Throw e h' => Throw e h'
    | Fault f => Fault f
    end.
Proof. exact (Insert_end_PushBack dflt moved can_alloc h v x Hwf). Qed.

Lemma Insert_at_end_is_PushBack_witness :
  wf ({[ 0%nat := [1; 2; 3] ]} : gmap nat (list Z)) (mkVec (Some 0%nat) 3 3) /\
  Insert 0 id (fun _ => true) (mkVec (Some 0%nat) 3 3)
    (end_ (mkVec (Some 0%nat) 3 3)) (Temp 9)
    ({[ 0%nat := [1; 2; 3] ]} : gmap nat (list Z))
  = Ok (mkVec (Some 1%nat) 4 6, Ptr (Some 1%nat) 3)
       {[ 1%nat := [1; 2; 3; 9; 0; 0] ]}.
Proof.
  assert (Hwf : wf ({[ 0%nat := [1; 2; 3] ]} : gmap nat (list Z))
                  (mkVec (Some 0%nat) 3 3)) by wf_by_eval [1; 2; 3].
  split; [exact Hwf |].
  rewrite (Insert_at_end_is_PushBack 0 id (fun _ => true) _ _ (Temp 9) Hwf).
  vm_compute. reflexivity.
Defined.

(** X14 (assertions).  On a well-formed container, [PopBack] fails its
    assertion exactly when the container is empty, [Erase] exactly when the
    position is not dereferenceable, and [Insert] exactly when the position
    is outside [begin(), end()]. *)
Theorem assertions_guard_preconditions {T} (dflt : T) (moved : T -> T)
    (can_alloc : Z -> bool) (h : gmap nat (list T)) (v : SimpleVector)
    (Hwf : wf h v) :
  (PopBack v h = Fault AssertionFailed <-> size_ v = 0) /\
  (forall pos, base pos = a_ v ->
     (Erase moved v pos h = Fault AssertionFailed
      <-> ~ (0 <= off pos < size_ v))) /\
  (forall pos (value : cref T), base pos = a_ v ->
     (Insert dflt moved can_alloc v pos value h = Fault AssertionFailed
      <-> ~ (0 <= off pos <= size_ v))).
Proof.
  pose proof Hwf as (Hs & _). split_and!.
  - split.
    + intros H. destruct (Z.eq_dec (size_ v) 0) as [Hz | Hnz]; [exact Hz |].
      rewrite PopBack_Ok in H by (try assumption; lia). discriminate.
    + intros Hz. unfold PopBack, noexcept, bind, IsEmpty, GetSize. rewrite Hz.
      reflexivity.
  - intros pos Hbase. split.
    + intros H Hoff.
      destruct (Erase_post moved h v pos Hwf Hbase Hoff) as (h' & Her & _).
      rewrite Her in H. discriminate.
    + intros Hoff. unfold Erase, bind, assert_dereferenceable, ptr_le, ptr_lt,
        begin_, end_, Get, ptr_add, GetSize. simpl. rewrite Hbase.
      destruct (decide (a_ v = a_ v)) as [_ | ?]; [| congruence].
      destruct (Z.leb_spec 0 (off pos)); [| reflexivity].
      destruct (Z.ltb_spec (off pos) (0 + size_ v)); [lia | reflexivity].
  - intros pos value Hbase. split.
    + intros H Hoff.
      destruct (Insert_cases dflt moved can_alloc v pos value h)
        as [Hub | [x Hx]]; [rewrite Hub in H; discriminate |].
      pose proof (Insert_post dflt moved can_alloc h v pos x Hwf Hbase Hoff) as Hp.
      rewrite <- Hx, H in Hp. exact Hp.
    + intros Hoff. unfold Insert, bind, assert_insertable, ptr_le,
        begin_, end_, Get, ptr_add, GetSize. simpl. rewrite Hbase.
      destruct (decide (a_ v = a_ v)) as [_ | ?]; [| congruence].
      destruct (Z.leb_spec 0 (off pos)); [| reflexivity].
      destruct (Z.leb_spec (off pos) (0 + size_ v)); [lia | reflexivity].
Qed.

Lemma assertions_guard_preconditions_witness :
  wf ({[ 0%nat := [1; 2; 3] ]} : gmap nat (list Z)) (mkVec (Some 0%nat) 3 3) /\
  Erase id (mkVec (Some 0%nat) 3 3) (Ptr (Some 0%nat) 3)
    ({[ 0%nat := [1; 2; 3] ]} : gmap nat (list Z)) = Fault AssertionFailed.
Proof.
  assert (Hwf : wf ({[ 0%nat := [1; 2; 3] ]} : gmap nat (list Z))
                  (mkVec (Some 0%nat) 3 3)) by wf_by_eval [1; 2; 3].
  split; [exact Hwf |].
  apply (proj1 (proj2 (assertions_guard_preconditions 0 id (fun _ => true)
                         _ _ Hwf)) (Ptr (Some 0%nat) 3) eq_refl).
  simpl. lia.
Defined.

(** X15 (unchecked access).  On an index below the size [operator[]]
    returns the same reference as [At], to the element of that index; on an
    index from the size on it fails its assertion, where [At] throws. *)
Theorem index_agrees_with_At {T} (h : gmap nat (list T)) (v : SimpleVector)
    (i : Z) (Hwf : wf h v) (Hi : 0 <= i) :
  (i < size_ v ->
     index v i h = Ok (Ptr (a_ v) i) h /\
     At v i h = Ok (Ptr (a_ v) i) h /\
     slot h (Ptr (a_ v) i) = elems h v !! Z.to_nat i /\
     is_Some (elems h v !! Z.to_nat i)) /\
  (size_ v <= i ->
     index v i h = Fault AssertionFailed /\
     At v i h = Throw OutOfRange h).
Proof.
  split.
  - intros Hlt. destruct (slot_elems h v i Hwf ltac:(lia)) as [Hslot Hsome].
    rewrite At_eq. unfold index, noexcept, bind, assert, GetSize.
    destruct (Z.ltb_spec i (size_ v)); [| lia].
    destruct (Z.leb_spec (size_ v) i); [lia |]. auto.
  - intros Hge. rewrite At_eq. unfold index, noexcept, bind, assert, GetSize.
    destruct (Z.ltb_spec i (size_ v)); [lia |].
    destruct (Z.leb_spec (size_ v) i); [| lia]. auto.
Qed.

Lemma index_agrees_with_At_witness :
  wf ({[ 0%nat := [1; 2; 3] ]} : gmap nat (list Z)) (mkVec (Some 0%nat) 3 3) /\
  index (mkVec (Some 0%nat) 3 3) 2 ({[ 0%nat := [1; 2; 3] ]} : gmap nat (list Z))
  = Ok (Ptr (Some 0%nat) 2) {[ 0%nat := [1; 2; 3] ]}.
Proof.
  assert (Hwf : wf ({[ 0%nat := [1; 2; 3] ]} : gmap nat (list Z))
                  (mkVec (Some 0%nat) 3 3)) by wf_by_eval [1; 2; 3].
  split; [exact Hwf |].
  exact (proj1 (proj1 (index_agrees_with_At _ _ 2 Hwf ltac:(lia))
                  ltac:(simpl; lia))).
Defined.

(** X16 (swap).  [swap] exchanges what the two objects hold (handle, size
    and capacity, hence the element sequences) without touching memory or
    any other object, never fails, and undoes itself when applied twice. *)
Theorem swap_exchanges {T} (s : state T) (x y : nat) (vx vy : SimpleVector)
    (Hx : objs s !! x = Some vx) (Hy : objs s !! y = Some vy) :
  exists s',
    swap_obj x y s = Ok tt s' /\
    mem s' = mem s /\
    objs s' !! x = Some vy /\ objs s' !! y = Some vx /\
    elems (mem s') vy = elems (mem s) vy /\
    elems (mem s') vx = elems (mem s) vx /\
    (forall z, z <> x -> z <> y -> objs s' !! z = objs s !! z) /\
    swap_obj x y s' = Ok tt s.
Proof.
  unfold swap_obj, bind, get_obj. rewrite Hx. simpl. rewrite Hy.
  destruct vx as [ax sx cx], vy as [ay sy cy]. unfold put_obj. simpl.
  eexists. split; [reflexivity |]. simpl.
  assert (Hyx : <[y := mkVec ax sx cx]> (<[x := mkVec ay sy cy]> (objs s)) !! x
                = Some (mkVec ay sy cy)).
  { rewrite lookup_insert. case_decide.
    - subst y. congruence.
    - apply lookup_insert_eq. }
  split_and!; try reflexivity.
  - exact Hyx.
  - apply lookup_insert_eq.
  - intros z Hzx Hzy. rewrite !lookup_insert_ne by congruence. reflexivity.
  - rewrite Hyx. simpl. rewrite lookup_insert_eq. simpl.
    destruct s as [o m]. simpl in *. do 2 f_equal.
    apply map_eq. intros k. rewrite !lookup_insert.
    repeat case_decide; subst; congruence.
Qed.

Lemma swap_exchanges_witness :
  exists s',
    swap_obj 0%nat 1%nat
      (mkState {[ 0%nat := mkVec (Some 0%nat) 1 2;
                  1%nat := mkVec (Some 1%nat) 3 3 ]}
               {[ 0%nat := [7; 0]; 1%nat := [1; 2; 3] ]} : state Z) = Ok tt s' /\
    objs s' !! 0%nat = Some (mkVec (Some 1%nat) 3 3).
Proof.
  set (s := mkState {[ 0%nat := mkVec (Some 0%nat) 1 2;
                       1%nat := mkVec (Some 1%nat) 3 3 ]}
                    {[ 0%nat := [7; 0]; 1%nat := [1; 2; 3] ]} : state Z).
  assert (Hx : objs s !! 0%nat = Some (mkVec (Some 0%nat) 1 2))
    by (vm_compute; reflexivity).
  assert (Hy : objs s !! 1%nat = Some (mkVec (Some 1%nat) 3 3))
    by (vm_compute; reflexivity).
  destruct (swap_exchanges s 0%nat 1%nat _ _ Hx Hy) as (s' & Hs & _ & Hx' & _).
  exists s'. split; [exact Hs | exact Hx'].
Defined.



(** X18 (equality).  With an element equality that decides equality,
    [operator==] returns whether the two element sequences are equal
    (capacities play no part), [operator!=] returns the opposite, and
    neither changes anything. *)
Theorem op_eq_compares_elements {T} (eqb : T -> T -> bool) (s : state T)
    (lhs rhs : nat) (l r : SimpleVector)
    (Hwf : wf_state s)
    (Hl : objs s !! lhs = Some l) (Hr : objs s !! rhs = Some r)
    (Heqb : forall x y, eqb x y = true <-> x = y) :
  exists b,
    op_eq eqb lhs rhs s = Ok b s /\
    op_ne eqb lhs rhs s = Ok (negb b) s /\
    (b = true <-> elems (mem s) l = elems (mem s) r).
Proof.
  destruct Hwf as [Hall _].
  pose proof (Hall _ _ Hl) as Hwl. pose proof (Hall _ _ Hr) as Hwr.
  pose proof (op_eq_eval eqb s lhs rhs l r Hwl Hwr Hl Hr) as Heq.
  eexists. split; [exact Heq |]. split.
  - unfold op_ne, bind. rewrite Heq. reflexivity.
  - pose proof (elems_length _ _ Hwl) as Hll.
    pose proof (elems_length _ _ Hwr) as Hlr.
    case_bool_decide as Hsame.
    + subst rhs. rewrite Hl in Hr. injection Hr as <-. simpl. tauto.
    + simpl. destruct (Z.eqb_spec (size_ l) (size_ r)) as [Hsz | Hsz]; simpl.
      * apply all_eqb_eq; [exact Heqb | lia].
      * split; [discriminate |]. intros Hel. rewrite Hel in Hll. lia.
Qed.

Ltac reach_by_run cs :=
  eapply (run_reachable _ _ _ cs); [apply reach_init | vm_compute; reflexivity].

Lemma op_eq_compares_elements_witness :
  exists b,
    op_eq Z.eqb 0%nat 1%nat
      (mkState {[ 0%nat := mkVec (Some 0%nat) 2 2;
                  1%nat := mkVec (Some 1%nat) 2 4 ]}
               {[ 0%nat := [1; 2]; 1%nat := [1; 2; 0; 0] ]} : state Z)
    = Ok b (mkState {[ 0%nat := mkVec (Some 0%nat) 2 2;
                       1%nat := mkVec (Some 1%nat) 2 4 ]}
                    {[ 0%nat := [1; 2]; 1%nat := [1; 2; 0; 0] ]}) /\
    b = true.
Proof.
  set (s := mkState {[ 0%nat := mkVec (Some 0%nat) 2 2;
                       1%nat := mkVec (Some 1%nat) 2 4 ]}
                    {[ 0%nat := [1; 2]; 1%nat := [1; 2; 0; 0] ]} : state Z).
  assert (Hr : reachable 0 id (fun _ => true) s)
    by reach_by_run [NewInit 0%nat [1; 2]; NewReserve 1%nat 4;
                     CallPushBack 1%nat (Temp 1); CallPushBack 1%nat (Temp 2)].
  assert (Hl : objs s !! 0%nat = Some (mkVec (Some 0%nat) 2 2))
    by (vm_compute; reflexivity).
  assert (Hr' : objs s !! 1%nat = Some (mkVec (Some 1%nat) 2 4))
    by (vm_compute; reflexivity).
  destruct (op_eq_compares_elements Z.eqb s 0%nat 1%nat _ _
              (reachable_wf_state 0 id _ s Hr) Hl Hr' Z.eqb_eq)
    as (b & Hb & _ & Hiff).
  exists b. split; [exact Hb |]. apply Hiff. vm_compute. reflexivity.
Defined.

(** X19 (an object equals itself).  [operator==] first compares the two
    addresses: an object is equal to itself whatever the element equality
    answers, while another object with the same elements is equal exactly
    when every element is equal to itself. *)
Theorem op_eq_same_object {T} (eqb : T -> T -> bool) (s : state T)
    (x y : nat) (vx vy : SimpleVector)
    (Hwf : wf_state s)
    (Hx : objs s !! x = Some vx) (Hy : objs s !! y = Some vy)
    (Hxy : x <> y)
    (Hel : elems (mem s) vx = elems (mem s) vy) :
  op_eq eqb x x s = Ok true s /\
  op_eq eqb x y s = Ok (forallb (fun e => eqb e e) (elems (mem s) vx)) s.
Proof.
  destruct Hwf as [Hall _].
  pose proof (Hall _ _ Hx) as Hwx. pose proof (Hall _ _ Hy) as Hwy.
  split.
  - rewrite (op_eq_eval eqb s x x vx vx Hwx Hwx Hx Hx).
    rewrite bool_decide_eq_true_2 by reflexivity. reflexivity.
  - rewrite (op_eq_eval eqb s x y vx vy Hwx Hwy Hx Hy).
    rewrite bool_decide_eq_false_2 by exact Hxy. simpl.
    pose proof (elems_length _ _ Hwx) as Hlx.
    pose proof (elems_length _ _ Hwy) as Hly.
    rewrite <- Hel in *.
    destruct (Z.eqb_spec (size_ vx) (size_ vy)) as [_ | Hne]; [| lia].
    simpl. rewrite all_eqb_diag. reflexivity.
Qed.

Lemma op_eq_same_object_witness :
  op_eq (fun _ _ => false) 0%nat 0%nat
    (mkState {[ 0%nat := mkVec (Some 0%nat) 2 2;
                1%nat := mkVec (Some 1%nat) 2 2 ]}
             {[ 0%nat := [1; 2]; 1%nat := [1; 2] ]} : state Z)
  = Ok true (mkState {[ 0%nat := mkVec (Some 0%nat) 2 2;
                        1%nat := mkVec (Some 1%nat) 2 2 ]}
                     {[ 0%nat := [1; 2]; 1%nat := [1; 2] ]}) /\
  op_eq (fun _ _ => false) 0%nat 1%nat
    (mkState {[ 0%nat := mkVec (Some 0%nat) 2 2;
                1%nat := mkVec (Some 1%nat) 2 2 ]}
             {[ 0%nat := [1; 2]; 1%nat := [1; 2] ]} : state Z)
  = Ok false (mkState {[ 0%nat := mkVec (Some 0%nat) 2 2;
                         1%nat := mkVec (Some 1%nat) 2 2 ]}
                      {[ 0%nat := [1; 2]; 1%nat := [1; 2] ]}).
Proof.
  set (s := mkState {[ 0%nat := mkVec (Some 0%nat) 2 2;
                       1%nat := mkVec (Some 1%nat) 2 2 ]}
                    {[ 0%nat := [1; 2]; 1%nat := [1; 2] ]} : state Z).
  assert (Hr : reachable 0 id (fun _ => true) s)
    by reach_by_run [NewInit 0%nat [1; 2]; NewCopy 1%nat 0%nat].
  assert (Hx : objs s !! 0%nat = Some (mkVec (Some 0%nat) 2 2))
    by (vm_compute; reflexivity).
  assert (Hy : objs s !! 1%nat = Some (mkVec (Some 1%nat) 2 2))
    by (vm_compute; reflexivity).
  exact (op_eq_same_object (fun _ _ => false) s 0%nat 1%nat _ _
           (reachable_wf_state 0 id _ s Hr) Hx Hy ltac:(discriminate)
           ltac:(vm_compute; reflexivity)).
Defined.

(** X20 (lexicographic order).  With an irreflexive element order,
    [operator<] changes nothing and its answer is decided by the first
    position at which one element is less than the other; when one
    sequence is a prefix of the other, the shorter one is the smaller, and
    a sequence is not less than itself. *)
Theorem op_lt_lexicographic {T} (ltb : T -> T -> bool) (s : state T)
    (lhs rhs : nat) (l r : SimpleVector)
    (Hwf : wf_state s)
    (Hl : objs s !! lhs = Some l) (Hr : objs s !! rhs = Some r)
    (Hirr : forall x, ltb x x = false) :
  exists b,
    op_lt ltb lhs rhs s = Ok b s /\
    (forall y t, elems (mem s) r = elems (mem s) l ++ y :: t -> b = true) /\
    (forall t, elems (mem s) l = elems (mem s) r ++ t -> b = false) /\
    (forall p x y t1 t2,
       elems (mem s) l = p ++ x :: t1 -> elems (mem s) r = p ++ y :: t2 ->
       (ltb x y = true -> b = true) /\
       (ltb x y = false -> ltb y x = true -> b = false)).
Proof.
  destruct Hwf as [Hall _].
  pose proof (Hall _ _ Hl) as Hwl. pose proof (Hall _ _ Hr) as Hwr.
  eexists. split; [exact (op_lt_eval ltb s lhs rhs l r Hwl Hwr Hl Hr) |].
  split_and!.
  - intros y t ->.
    rewrite <- (app_nil_r (elems (mem s) l)) at 1.
    rewrite lex_ltb_prefix by exact Hirr. reflexivity.
  - intros t ->.
    rewrite <- (app_nil_r (elems (mem s) r)) at 2.
    rewrite lex_ltb_prefix by exact Hirr. destruct t; reflexivity.
  - intros p x y t1 t2 -> ->. rewrite lex_ltb_prefix by exact Hirr. simpl.
    split.
    + intros ->. reflexivity.
    + intros -> ->. reflexivity.
Qed.

Lemma op_lt_lexicographic_witness :
  exists b,
    op_lt Z.ltb 0%nat 1%nat
      (mkState {[ 0%nat := mkVec (Some 0%nat) 3 3;
                  1%nat := mkVec (Some 1%nat) 2 2 ]}
               {[ 0%nat := [1; 2; 9]; 1%nat := [1; 3] ]} : state Z)
    = Ok b (mkState {[ 0%nat := mkVec (Some 0%nat) 3 3;
                       1%nat := mkVec (Some 1%nat) 2 2 ]}
                    {[ 0%nat := [1; 2; 9]; 1%nat := [1; 3] ]}) /\
    b = true.
Proof.
  set (s := mkState {[ 0%nat := mkVec (Some 0%nat) 3 3;
                       1%nat := mkVec (Some 1%nat) 2 2 ]}
                    {[ 0%nat := [1; 2; 9]; 1%nat := [1; 3] ]} : state Z).
  assert (Hr : reachable 0 id (fun _ => true) s)
    by reach_by_run [NewInit 0%nat [1; 2; 9]; NewInit 1%nat [1; 3]].
  assert (Hx : objs s !! 0%nat = Some (mkVec (Some 0%nat) 3 3))
    by (vm_compute; reflexivity).
  assert (Hy : objs s !! 1%nat = Some (mkVec (Some 1%nat) 2 2))
    by (vm_compute; reflexivity).
  destruct (op_lt_lexicographic Z.ltb s 0%nat 1%nat _ _
              (reachable_wf_state 0 id _ s Hr) Hx Hy Z.ltb_irrefl)
    as (b & Hb & _ & _ & Hfirst).
  exists b. split; [exact Hb |].
  apply (proj1 (Hfirst [1] 2 3 [9] [] ltac:(vm_compute; reflexivity)
                  ltac:(vm_compute; reflexivity))).
  reflexivity.
Defined.

(** X21 (the six operators together).  When [x < y] excludes [y < x] on
    elements and element equality holds exactly where neither is less,
    exactly one of [<], [==], [>] holds of two containers, [<=] is
    "[<] or [==]", [>=] is "[>] or [==]" and [!=] is "[<] or [>]"; none of
    them changes anything. *)
Theorem comparison_operators_agree {T} (eqb ltb : T -> T -> bool)
    (s : state T) (lhs rhs : nat) (l r : SimpleVector)
    (Hwf : wf_state s)
    (Hl : objs s !! lhs = Some l) (Hr : objs s !! rhs = Some r)
    (Hasym : forall x y, ltb x y = true -> ltb y x = false)
    (Heqb : forall x y, eqb x y = negb (ltb x y) && negb (ltb y x)) :
  exists lt eq gt,
    op_lt ltb lhs rhs s = Ok lt s /\
    op_eq eqb lhs rhs s = Ok eq s /\
    op_gt ltb lhs rhs s = Ok gt s /\
    op_le ltb lhs rhs s = Ok (lt || eq) s /\
    op_ge ltb lhs rhs s = Ok (gt || eq) s /\
    op_ne eqb lhs rhs s = Ok (lt || gt) s /\
    gt = negb (lt || eq) /\ lt && eq = false.
Proof.
  destruct Hwf as [Hall _].
  pose proof (Hall _ _ Hl) as Hwl. pose proof (Hall _ _ Hr) as Hwr.
  pose proof (op_lt_eval ltb s lhs rhs l r Hwl Hwr Hl Hr) as Hlt.
  pose proof (op_lt_eval ltb s rhs lhs r l Hwr Hwl Hr Hl) as Hgt.
  pose proof (op_eq_eval eqb s lhs rhs l r Hwl Hwr Hl Hr) as Heq.
  pose proof (elems_length _ _ Hwl) as Hll.
  pose proof (elems_length _ _ Hwr) as Hlr.
  set (xs := elems (mem s) l) in *. set (ys := elems (mem s) r) in *.
  assert (Hirr : forall x, ltb x x = false).
  { intros x. destruct (ltb x x) eqn:Hxx; [| reflexivity].
    rewrite (Hasym _ _ Hxx) in Hxx. discriminate. }
  assert (Hrefl : forall x, eqb x x = true).
  { intros x. rewrite Heqb, Hirr. reflexivity. }
  assert (Hsym : forall x y, eqb x y = eqb y x).
  { intros x y. rewrite !Heqb. apply andb_comm. }
  assert (He : bool_decide (lhs = rhs) || (size_ l =? size_ r) && all_eqb eqb xs ys
               = (Z.of_nat (length xs) =? Z.of_nat (length ys)) && all_eqb eqb xs ys).
  { rewrite Hll, Hlr. case_bool_decide as Hsame; [| reflexivity].
    subst rhs. rewrite Hl in Hr. injection Hr as <-. subst xs ys.
    rewrite Z.eqb_refl, all_eqb_refl by exact Hrefl. reflexivity. }
  rewrite He in Heq.
  pose proof (lex_ltb_le eqb ltb xs ys Hasym Heqb) as H1.
  pose proof (lex_ltb_le eqb ltb ys xs Hasym Heqb) as H2.
  rewrite (all_eqb_sym eqb ys xs Hsym), (Z.eqb_sym (Z.of_nat (length ys))) in H2.
  set (lt := lex_ltb ltb xs ys) in *. set (gt := lex_ltb ltb ys xs) in *.
  set (eq := (Z.of_nat (length xs) =? Z.of_nat (length ys)) && all_eqb eqb xs ys)
    in *.
  exists lt, eq, gt. split_and!.
  - exact Hlt.
  - exact Heq.
  - exact Hgt.
  - unfold op_le, bind. rewrite Hgt. simpl. rewrite H1. reflexivity.
  - unfold op_ge, op_le, bind. rewrite Hlt. simpl. rewrite H2. reflexivity.
  - unfold op_ne, bind. rewrite Heq. simpl. f_equal.
    destruct lt, eq, gt; simpl in *; congruence.
  - destruct lt, eq, gt; simpl in *; congruence.
  - destruct lt, eq, gt; simpl in *; congruence.
Qed.

Lemma comparison_operators_agree_witness :
  exists lt eq gt,
    op_le Z.ltb 0%nat 1%nat
      (mkState {[ 0%nat := mkVec (Some 0%nat) 3 3;
                  1%nat := mkVec (Some 1%nat) 2 2 ]}
               {[ 0%nat := [1; 2; 9]; 1%nat := [1; 3] ]} : state Z)
    = Ok (lt || eq)
         (mkState {[ 0%nat := mkVec (Some 0%nat) 3 3;
                     1%nat := mkVec (Some 1%nat) 2 2 ]}
                  {[ 0%nat := [1; 2; 9]; 1%nat := [1; 3] ]}) /\
    gt = negb (lt || eq).
Proof.
  set (s := mkState {[ 0%nat := mkVec (Some 0%nat) 3 3;
                       1%nat := mkVec (Some 1%nat) 2 2 ]}
                    {[ 0%nat := [1; 2; 9]; 1%nat := [1; 3] ]} : state Z).
  assert (Hr : reachable 0 id (fun _ => true) s)
    by reach_by_run [NewInit 0%nat [1; 2; 9]; NewInit 1%nat [1; 3]].
  assert (Hx : objs s !! 0%nat = Some (mkVec (Some 0%nat) 3 3))
    by (vm_compute; reflexivity).
  assert (Hy : objs s !! 1%nat = Some (mkVec (Some 1%nat) 2 2))
    by (vm_compute; reflexivity).
  assert (Hasym : forall x y : Z, (x <? y) = true -> (y <? x) = false) by lia.
  assert (Heqb : forall x y : Z, (x =? y) = negb (x <? y) && negb (y <? x)) by lia.
  destruct (comparison_operators_agree Z.eqb Z.ltb s 0%nat 1%nat _ _
              (reachable_wf_state 0 id _ s Hr) Hx Hy Hasym Heqb)
    as (lt & eq & gt & _ & _ & _ & Hle & _ & _ & Htri & _).
  exists lt, eq, gt. split; [exact Hle | exact Htri].
Defined.

(** X22 (a copy compares equal).  With a reflexive element equality and an
    irreflexive element order, a freshly copy-constructed container is equal
    to its source and neither is less than the other; the construction
    fails only with [std::bad_alloc], changing nothing. *)
Theorem copy_compares_equal {T} (dflt : T) (moved : T -> T)
    (can_alloc : Z -> bool) (eqb ltb : T -> T -> bool) (s : state T)
    (x other : nat) (o : SimpleVector)
    (Hwf : wf_state s)
    (Ho : objs s !! other = Some o) (Hx : objs s !! x = None)
    (Hrefl : forall e, eqb e e = true) (Hirr : forall e, ltb e e = false) :
  match exec dflt moved can_alloc (NewCopy x other) s with
  | Ok _ s' =>
      op_eq eqb x other s' = Ok true s' /\
      op_eq eqb other x s' = Ok true s' /\
      op_lt ltb x other s' = Ok false s' /\
      op_lt ltb other x s' = Ok false s'
  | Throw e s' => e = BadAlloc /\ s' = s
  | Fault _ => False
  end.
Proof.
  pose proof (keeps_wf_exec dflt moved can_alloc (NewCopy x other) s Hwf) as Hkeep.
  pose proof (proj1 Hwf _ _ Ho) as Hwo.
  pose proof (ctor_copy_post dflt moved can_alloc (mem s) o Hwo) as Hcopy.
  pose proof (elems_length _ _ Hwo) as Hlen.
  assert (Hne : x <> other) by (intros ->; congruence).
  cbn [exec] in *. unfold bind, get_obj, lift in *. rewrite Ho in *. simpl in *.
  destruct (ctor_copy dflt moved can_alloc o (mem s)) as [d h' | e h' | f].
  - destruct Hcopy as (-> & ->). unfold new_obj in *. simpl in *.
    rewrite Hx in *.
    set (d := mkVec (Some (fresh (dom (mem s)))) (size_ o) (capacity_ o)) in *.
    set (h' := <[fresh (dom (mem s)) :=
                   elems (mem s) o
                   ++ replicate (Z.to_nat (capacity_ o - size_ o)) dflt]> (mem s))
      in *.
    set (s' := mkState (<[x := d]> (objs s)) h') in *.
    assert (Hd : objs s' !! x = Some d) by apply lookup_insert_eq.
    assert (Ho' : objs s' !! other = Some o)
      by (simpl; rewrite lookup_insert_ne by exact Hne; exact Ho).
    pose proof (proj1 Hkeep _ _ Hd) as Hwd.
    pose proof (proj1 Hkeep _ _ Ho') as Hwo'.
    assert (Hed : elems (mem s') d = elems (mem s) o).
    { eapply elems_intro; simpl; [reflexivity | apply lookup_insert_eq | lia]. }
    assert (Heo : elems (mem s') o = elems (mem s) o).
    { unfold elems, buffer. destruct (a_ o) as [b |] eqn:Ha; [| reflexivity].
      destruct Hwo as (_ & _ & Hb). rewrite Ha in Hb.
      destruct Hb as (old & Hold & _). simpl. unfold h'.
      rewrite lookup_insert_ne; [reflexivity |].
      intros <-. rewrite fresh_None in Hold. discriminate. }
    rewrite (op_eq_eval eqb s' x other d o Hwd Hwo' Hd Ho').
    rewrite (op_eq_eval eqb s' other x o d Hwo' Hwd Ho' Hd).
    rewrite (op_lt_eval ltb s' x other d o Hwd Hwo' Hd Ho').
    rewrite (op_lt_eval ltb s' other x o d Hwo' Hwd Ho' Hd).
    rewrite Hed, Heo, all_eqb_refl, lex_ltb_irrefl by assumption.
    simpl size_. rewrite Z.eqb_refl, !orb_true_r. auto.
  - destruct Hcopy as (-> & -> & _). rewrite state_eta. auto.
  - exact Hcopy.
Qed.

Lemma copy_compares_equal_witness :
  match exec 0 id (fun _ => true) (NewCopy 1%nat 0%nat)
          (mkState {[ 0%nat := mkVec (Some 0%nat) 2 2 ]} {[ 0%nat := [1; 2] ]}
           : state Z) with
  | Ok _ s' => op_eq Z.eqb 1%nat 0%nat s' = Ok true s'
  | _ => False
  end.
Proof.
  set (s := mkState {[ 0%nat := mkVec (Some 0%nat) 2 2 ]} {[ 0%nat := [1; 2] ]}
            : state Z).
  assert (Hr : reachable 0 id (fun _ => true) s)
    by reach_by_run [NewInit 0%nat [1; 2]].
  assert (Ho : objs s !! 0%nat = Some (mkVec (Some 0%nat) 2 2))
    by (vm_compute; reflexivity).
  assert (Hx : objs s !! 1%nat = None) by (vm_compute; reflexivity).
  pose proof (copy_compares_equal 0 id (fun _ => true) Z.eqb Z.ltb s 1%nat 0%nat _
                (reachable_wf_state 0 id _ s Hr) Ho Hx Z.eqb_refl Z.ltb_irrefl)
    as H.
  destruct (exec 0 id (fun _ => true) (NewCopy 1%nat 0%nat) s) as [u s' | e s' | f]
    eqn:Hex.
  - exact (proj1 H).
  - vm_compute in Hex. discriminate.
  - exact H.
Defined.

(** X23 (reserve, then append).  For every [n], [Reserve(n)] leaves the
    capacity at the larger of the old capacity and [n] (it never shrinks,
    and does nothing at all when [n] is within the capacity) and keeps the
    elements; after it, appending items up to a total of [n] stays in the
    same block and cannot fail; the items are temporaries or references to
    objects outside the container's block, appended as the values they hold.
    [Reserve] fails only with [std::bad_alloc], changing nothing. *)
Theorem Reserve_then_append {T} (dflt : T) (moved : T -> T)
    (can_alloc : Z -> bool) (h : gmap nat (list T)) (v : SimpleVector) (n : Z)
    (items : list (cref T)) (values : list T)
    (Hwf : wf h v)
    (Hitems : Forall2 (denotes h v) items values)
    (Hfit : size_ v + Z.of_nat (length values) <= n) :
  match Reserve dflt moved can_alloc v n h with
  | Ok v1 h1 =>
      capacity_ v1 = Z.max (capacity_ v) n /\
      size_ v1 = size_ v /\ elems h1 v1 = elems h v /\
      (n <= capacity_ v -> v1 = v /\ h1 = h) /\
      exists v2 h2,
        push_all dflt moved can_alloc items v1 h1 = Ok v2 h2 /\
        a_ v2 = a_ v1 /\ capacity_ v2 = capacity_ v1 /\
        elems h2 v2 = elems h v ++ values
  | Throw e h1 => e = BadAlloc /\ h1 = h /\ capacity_ v < n
  | Fault _ => False
  end.
Proof.
  pose proof (spec_Reserve dflt moved can_alloc n v h Hwf) as Hspec.
  pose proof (elems_length h v Hwf) as Hlen.
  assert (Hpost :
    match Reserve dflt moved can_alloc v n h with
    | Ok v1 h1 =>
        capacity_ v1 = Z.max (capacity_ v) n /\
        size_ v1 = size_ v /\ elems h1 v1 = elems h v /\
        (n <= capacity_ v -> v1 = v /\ h1 = h)
    | Throw e h1 => e = BadAlloc /\ h1 = h /\ capacity_ v < n
    | Fault _ => False
    end).
  { destruct (Z.le_gt_cases n (capacity_ v)) as [Hle | Hgt].
    - rewrite Reserve_enough by exact Hle. split_and!; auto; lia.
    - destruct (grants can_alloc n) eqn:Hg.
      + rewrite Reserve_grow by (try assumption; lia). simpl.
        split_and!; try reflexivity; try lia.
        eapply elems_intro; simpl; [reflexivity | | symmetry; exact Hlen].
        apply lookup_release_insert, Hwf.
      + rewrite Reserve_Throw by (try assumption; lia).
        split_and!; auto; lia. }
  destruct (Reserve dflt moved can_alloc v n h) as [v1 h1 | e h1 | f];
    [| exact Hpost | exact Hpost].
  destruct Hpost as (Hcap & Hsz & Hel & Hnoop).
  assert (Hitems1 : Forall2 (denotes h1 v1) items values).
  { eapply Forall2_impl; [exact Hitems |].
    intros r x Hd. exact (denotes_updates h v r x v1 h1 Hd Hspec). }
  destruct Hspec as (Hwf1 & _).
  split_and!; try assumption.
  rewrite (push_all_denotes dflt moved can_alloc items values h1 v1 Hwf1 Hitems1).
  destruct (push_all_room dflt moved can_alloc values h1 v1 Hwf1 ltac:(lia))
    as (h2 & Hrun & _ & Hel2 & _).
  eexists _, h2. split; [exact Hrun |]. simpl.
  split_and!; try reflexivity. rewrite Hel2, Hel. reflexivity.
Qed.

Lemma Reserve_then_append_witness :
  wf ({[ 0%nat := [1; 2] ]} : gmap nat (list Z)) (mkVec (Some 0%nat) 2 2) /\
  match Reserve 0 id (fun _ => true) (mkVec (Some 0%nat) 2 2) 5
          ({[ 0%nat := [1; 2] ]} : gmap nat (list Z)) with
  | Ok v1 h1 =>
      capacity_ v1 = 5 /\
      exists v2 h2,
        push_all 0 id (fun _ => true) (Temp <$> [3; 4; 5]) v1 h1 = Ok v2 h2 /\
        a_ v2 = a_ v1 /\ elems h2 v2 = [1; 2; 3; 4; 5]
  | _ => False
  end.
Proof.
  assert (Hwf : wf ({[ 0%nat := [1; 2] ]} : gmap nat (list Z))
                  (mkVec (Some 0%nat) 2 2)) by wf_by_eval [1; 2].
  split; [exact Hwf |].
  assert (Hall : Forall2 (denotes ({[ 0%nat := [1; 2] ]} : gmap nat (list Z))
                            (mkVec (Some 0%nat) 2 2))
                   (Temp <$> [3; 4; 5]) [3; 4; 5])
    by (repeat constructor).
  pose proof (Reserve_then_append 0 id (fun _ => true) _ _ 5 _ [3; 4; 5] Hwf
                Hall ltac:(simpl; lia)) as H.
  destruct (Reserve 0 id (fun _ => true) (mkVec (Some 0%nat) 2 2) 5
              ({[ 0%nat := [1; 2] ]} : gmap nat (list Z)))
    as [v1 h1 | e h1 | f] eqn:Hres.
  - destruct H as (Hcap & _ & _ & _ & v2 & h2 & Hrun & Ha & _ & Hel).
    split; [exact Hcap |]. exists v2, h2. split; [exact Hrun |].
    split; [exact Ha | exact Hel].
  - vm_compute in Hres. discriminate.
  - exact H.
Defined.

(** X24 (ownership of memory).  In every state a program can reach, each
    object holds a live block of at least its capacity, and each block of
    memory is held by exactly one object: nothing is leaked and nothing is
    shared.  Once every object is destroyed, no memory is left. *)
Theorem every_block_has_one_owner {T} (dflt : T) (moved : T -> T)
    (can_alloc : Z -> bool) (s : state T)
    (Hreach : reachable dflt moved can_alloc s) :
  (forall x v, objs s !! x = Some v -> wf (mem s) v) /\
  (forall b, is_Some (mem s !! b) ->
     exists x v,
       objs s !! x = Some v /\ a_ v = Some b /\
       forall y u, objs s !! y = Some u -> a_ u = Some b -> y = x) /\
  (objs s = ∅ -> mem s = ∅).
Proof.
  pose proof (reachable_wf_state dflt moved can_alloc s Hreach) as [Hwf Hdis].
  pose proof (reachable_no_leak dflt moved can_alloc s Hreach) as Hown.
  split_and!.
  - exact Hwf.
  - intros b Hb. destruct (Hown b Hb) as (x & v & Hx & Ha).
    exists x, v. split_and!; try assumption.
    intros y u Hy Hu. destruct (decide (y = x)) as [-> | Hne]; [reflexivity |].
    exfalso. exact (Hdis y x u v b Hne Hy Hx Hu Ha).
  - intros Hnone. apply map_empty. intros b.
    destruct (mem s !! b) as [buf |] eqn:Hb; [| reflexivity].
    destruct (Hown b ltac:(eauto)) as (x & v & Hx & _).
    rewrite Hnone, lookup_empty in Hx. discriminate.
Qed.

Lemma every_block_has_one_owner_witness :
  exists x v,
    objs (mkState {[ 0%nat := mkVec (Some 1%nat) 3 4;
                     1%nat := mkVec (Some 2%nat) 3 4 ]}
                  {[ 1%nat := [1; 2; 3; 0]; 2%nat := [1; 2; 3; 0] ]} : state Z)
      !! x = Some v /\
    a_ v = Some 2%nat.
Proof.
  set (s := mkState {[ 0%nat := mkVec (Some 1%nat) 3 4;
                       1%nat := mkVec (Some 2%nat) 3 4 ]}
                    {[ 1%nat := [1; 2; 3; 0]; 2%nat := [1; 2; 3; 0] ]} : state Z).
  assert (Hr : reachable 0 id (fun _ => true) s)
    by reach_by_run [NewInit 0%nat [1; 2]; CallPushBack 0%nat (Temp 3);
                     NewCopy 1%nat 0%nat].
  assert (Hb : is_Some (mem s !! 2%nat))
    by (exists [1; 2; 3; 0]; vm_compute; reflexivity).
  destruct (proj1 (proj2 (every_block_has_one_owner 0 id _ s Hr)) 2%nat Hb)
    as (x & v & Hx & Ha & _).
  exists x, v. split; [exact Hx | exact Ha].
Defined.

(** X25 (defined behaviour).  In a reachable state, a call whose
    preconditions hold (live objects, positions inside the container,
    [PopBack] and [operator[]] within the size, an item for [PushBack] or
    [Insert] that is bound to a live object and not to a slot of a full
    container's own block, memory for the [noexcept] move constructor)
    never fails an assertion, never terminates the program and never has
    undefined behaviour: it returns or it throws, and in both cases leaves a
    reachable state. *)
Theorem defined_behaviour {T} (dflt : T) (moved : T -> T)
    (can_alloc : Z -> bool) (s : state T) (c : call T)
    (Hreach : reachable dflt moved can_alloc s)
    (Hreq : requires can_alloc s c) :
  (exists s', exec dflt moved can_alloc c s = Ok tt s' /\
              reachable dflt moved can_alloc s') \/
  (exists e s', exec dflt moved can_alloc c s = Throw e s' /\
                reachable dflt moved can_alloc s').
Proof.
  pose proof (reachable_wf_state dflt moved can_alloc s Hreach) as Hwf.
  pose proof (exec_defined dflt moved can_alloc c s Hwf Hreq) as Hdef.
  destruct (exec dflt moved can_alloc c s) as [[] s' | e s' | f] eqn:Hex.
  - left. exists s'. split; [reflexivity |].
    exact (reach_ok dflt moved can_alloc c s s' Hreach Hex).
  - right. exists e, s'. split; [reflexivity |].
    exact (reach_throw dflt moved can_alloc c s e s' Hreach Hex).
  - destruct Hdef.
Qed.

Lemma defined_behaviour_witness :
  exists s',
    exec 0 id (fun _ => true)
      (CallInsert 0%nat (Ptr (Some 1%nat) 0) (RefTo (Ptr (Some 1%nat) 1)))
      (mkState {[ 0%nat := mkVec (Some 1%nat) 3 4 ]} {[ 1%nat := [1; 2; 3; 0] ]}
       : state Z) = Ok tt s' /\
    reachable 0 id (fun _ => true) s'.
Proof.
  set (s := mkState {[ 0%nat := mkVec (Some 1%nat) 3 4 ]}
                    {[ 1%nat := [1; 2; 3; 0] ]} : state Z).
  assert (Hr : reachable 0 id (fun _ => true) s)
    by reach_by_run [NewInit 0%nat [1; 2]; CallPushBack 0%nat (Temp 3)].
  assert (Hreq : requires (fun _ => true) s
                   (CallInsert 0%nat (Ptr (Some 1%nat) 0)
                      (RefTo (Ptr (Some 1%nat) 1)))).
  { exists (mkVec (Some 1%nat) 3 4). split; [vm_compute; reflexivity |].
    split; [reflexivity |]. split; [simpl; lia |].
    split; [exists 2; vm_compute; reflexivity | intros _; simpl; lia]. }
  destruct (defined_behaviour 0 id (fun _ => true) s _ Hr Hreq)
    as [Hok | (e & s' & Ht & _)].
  - exact Hok.
  - vm_compute in Ht. discriminate.
Defined.
